(** * Newt base models: pseudo-likelihood sites and the four GP model classes

    A shallow embedding of [newt/basemodels.py].  Arrays of shape [N, d, d]
    are sequences of [d x d] matrices, one per site; floating-point numbers
    are read as elements of an ordered field with exact arithmetic.  A
    computation that yields NaN or raises in the Python code yields [None]
    here. *)

From mathcomp Require Import boot order algebra.

Set Implicit Arguments.
Unset Strict Implicit.
Unset Printing Implicit Defensive.

Import Order.Theory GRing.Theory Num.Theory.
Local Open Scope ring_scope.

(** ** Linear-algebra primitives ([jax.scipy.linalg]) *)

Section Linalg.

Variable F : realFieldType.

(** Square root on [F].  It answers [None] where the floating-point root is
    NaN or the pivot test of the factorisation fails (argument not positive),
    and may also answer [None] where [F] has no exact root. *)
Variable sqrtF : F -> option F.

Definition sqrt_spec := forall x r, sqrtF x = Some r -> 0 < r /\ r * r = x.

Definition symmetric n (A : 'M[F]_n) : bool := A^T == A.

(** The lower Cholesky factor, column by column from the top-left corner.
    Only the lower triangle of the argument is read. *)
Fixpoint cholesky n : 'M[F]_n -> option 'M[F]_n :=
  match n with
  | 0 => fun _ => Some 0
  | n'.+1 => fun A : 'M_(1 + n') =>
    if sqrtF (A ord0 ord0) is Some l then
      let c := l^-1 *: dlsubmx A in
      if cholesky (drsubmx A - c *m c^T) is Some L'
      then Some (block_mx l%:M 0 c L')
      else None
    else None
  end.

(** Forward substitution: solves [L X = B] for lower-triangular [L]. *)
Fixpoint solve_lower n k : 'M[F]_n -> 'M[F]_(n, k) -> 'M[F]_(n, k) :=
  match n with
  | 0 => fun _ B => B
  | n'.+1 => fun (L : 'M_(1 + n')) (B : 'M_(1 + n', k)) =>
    let y := (L ord0 ord0)^-1 *: usubmx B in
    col_mx y (solve_lower (drsubmx L) (dsubmx B - dlsubmx L *m y))
  end.

(** Back substitution: solves [U X = Y] for upper-triangular [U]. *)
Fixpoint solve_upper n k : 'M[F]_n -> 'M[F]_(n, k) -> 'M[F]_(n, k) :=
  match n with
  | 0 => fun _ Y => Y
  | n'.+1 => fun (U : 'M_(1 + n')) (Y : 'M_(1 + n', k)) =>
    let X' := solve_upper (drsubmx U) (dsubmx Y) in
    col_mx ((U ord0 ord0)^-1 *: (usubmx Y - ursubmx U *m X')) X'
  end.

(** [cho_factor(a)] with its default [lower=False]: the upper factor [U]
    with [U^T U = a], obtained from the lower factor of the transpose, and the
    flag that tells [cho_solve] which triangle holds the factor. *)
Definition cho_factor n (A : 'M[F]_n) : option ('M[F]_n * bool) :=
  omap (fun L => (L^T, false)) (cholesky A^T).

(** [cho_solve((c, lower), b)]: two triangular solves. *)
Definition cho_solve n k (c : 'M[F]_n * bool) (B : 'M[F]_(n, k)) : 'M[F]_(n, k) :=
  if c.2 then solve_upper c.1^T (solve_lower c.1 B)
  else solve_upper c.1 (solve_lower c.1^T B).

(** The matrix that [cho_factor(a)] factorises: it reads the upper triangle
    of [a] only, which stands for the symmetric matrix with that triangle. *)
Definition upper_symmetrised n (A : 'M[F]_n) : 'M[F]_n :=
  \matrix_(i, j) if (i <= j)%N then A i j else A j i.

(** What a successful factorisation returns. *)
Definition cholesky_post n (A L : 'M[F]_n) : Prop :=
  [/\ is_trig_mx L, forall i, 0 < L i i & L *m L^T = A].

End Linalg.

(** ** Array helpers ([jax.numpy], [jax.lax], [jax.ops], [newt.utils]) *)

Section Arrays.

Variable F : realFieldType.

(** A batched operation fails as a whole when it fails at one index. *)
Fixpoint all_some T (s : seq (option T)) : option (seq T) :=
  if s is x :: s' then
    if x is Some y then omap (cons y) (all_some s') else None
  else Some [::].

(** [lax.scan(f, init, xs)]: the carry is threaded from left to right and
    the per-step outputs are stacked. *)
Fixpoint scan C A B (f : C -> A -> C * B) (init : C) (xs : seq A)
  : C * seq B :=
  if xs is x :: xs' then
    let: (c, y) := f init x in
    let: (c', ys) := scan f c xs' in
    (c', y :: ys)
  else (init, [::]).

(** [a[idx]] for an index array [idx]; JAX clamps an index past the end. *)
Definition gather T (x0 : T) (a : seq T) (idx : seq nat) : seq T :=
  [seq nth x0 a (minn i (size a).-1) | i <- idx].

(** [index_add(a, index[i], v)]; JAX drops an update past the end. *)
Definition index_add (V : nmodType) (a : seq V) (i : nat) (v : V) : seq V :=
  if (i < size a)%N then set_nth 0 a i (nth 0 a i + v) else a.

(** [index_update(a, index[ks, i, j], v)] on a batch of matrices. *)
Definition index_update_entry n (a : seq 'M[F]_n) (ks : seq nat)
    (i j : nat) (v : F) : seq 'M[F]_n :=
  [seq if k \in ks
       then \matrix_(r, c) (if (r == i :> nat) && (c == j :> nat) then v
                            else nth 0 a k r c)
       else nth 0 a k
  | k <- iota 0 (size a)].

(** [index_update(a, index[idx], y)] for an index array [idx]: row [j] of
    [y] is written at position [idx[j]].  JAX drops a write past the end and
    leaves open which write wins at a repeated position; here the writes
    happen from left to right.  A single row [y] is broadcast; any other
    length mismatch raises. *)
Definition index_update T (x0 : T) (a : seq T) (idx : seq nat) (y : seq T)
  : option (seq T) :=
  let write a (iv : nat * T) :=
    if (iv.1 < size a)%N then set_nth x0 a iv.1 iv.2 else a in
  if size y == size idx then Some (foldl write a (zip idx y))
  else if y is [:: y0] then Some (foldl write a (zip idx (nseq (size idx) y0)))
  else None.

(** [np.diff] of a one-dimensional array. *)
Definition np_diff (a : seq F) : seq F :=
  [seq nth 0 a i.+1 - nth 0 a i | i <- iota 0 (size a).-1].

(** [np.diag] of a two-dimensional array given by rows. *)
Definition np_diag (a : seq (seq F)) : seq F :=
  [seq nth 0 (nth [::] a i) i | i <- iota 0 (size a)].

(** [np.sum] of a matrix. *)
Definition np_sum m n (A : 'M[F]_(m, n)) : F := \sum_i \sum_j A i j.

(** [np.squeeze] of an [N, 1] array: its entries in order. *)
Definition np_squeeze (a : seq (seq F)) : seq F := flatten a.

(** [np.unique(a, return_inverse=True)] on the flattened array. *)
Definition np_unique (a : seq F) : seq F * seq nat :=
  let u := sort <=%O (undup a) in (u, [seq index x u | x <- a]).

(** [np.where(~mask)[0]]: the row index of every [False] entry, row by row. *)
Definition where_not_rows (mask : seq (seq bool)) : seq nat :=
  flatten [seq nseq (count negb (nth [::] mask i)) i | i <- iota 0 (size mask)].

(** A row of the input array [X]. *)
Definition input := seq F.

(** Missing observations are NaN entries of [Y]. *)
Definition isnan (y : option F) : bool := ~~ y.

(** What a method returns when its result is squeezed: a zero-, a one- or a
    two-dimensional array. *)
Inductive ndarray := Arr0 of F | Arr1 of seq F | Arr2 of seq (seq F).

(** Broadcasting of two axis lengths: equal, or one of them is one. *)
Definition broadcast_dim (a b : nat) : option nat :=
  if a == b then Some a
  else if a == 1%N then Some b
  else if b == 1%N then Some a
  else None.

(** [op(A, B)] with NumPy broadcasting, for two-dimensional arrays given by
    their rows (at least one row each); a one-dimensional operand of length
    [n] is read as the single row [1, n].  Shapes that do not broadcast
    raise. *)
Definition broadcast2 (op : F -> F -> F) (A B : seq (seq F))
  : option (seq (seq F)) :=
  let ca := size (head [::] A) in
  let cb := size (head [::] B) in
  if (broadcast_dim (size A) (size B), broadcast_dim ca cb)
    is (Some r, Some c) then
    let at_ (M : seq (seq F)) (cm i j : nat) :=
      nth 0 (nth [::] M (if size M == 1%N then 0%N else i))
        (if cm == 1%N then 0%N else j) in
    Some [seq [seq op (at_ A ca i j) (at_ B cb i j) | j <- iota 0 c]
         | i <- iota 0 r]
  else None.

(** The stacked outputs of a scan whose step returns a zero-dimensional array
    (a one-dimensional stack, read as one row) or a one-dimensional array of
    a fixed length (one row per step). *)
Definition stack2 (s : seq ndarray) : option (seq (seq F)) :=
  if all_some [seq (if a is Arr0 x then Some x else None) | a <- s]
    is Some xs then Some [:: xs]
  else if all_some [seq (if a is Arr1 v then Some v else None) | a <- s]
    is Some rows then
    if all (fun r => size r == size (head [::] rows)) rows then Some rows
    else None
  else None.

(** [a[None]] for a zero- or one-dimensional [a], read as rows. *)
Definition expand_dims (a : ndarray) : option (seq (seq F)) :=
  match a with
  | Arr0 x => Some [:: [:: x]]
  | Arr1 v => Some [:: v]
  | Arr2 _ => None
  end.

(** Batched [@] on two batches of the same length. *)
Definition bmm m n k (A : seq 'M[F]_(m, n)) (B : seq 'M[F]_(n, k))
  : seq 'M[F]_(m, k) :=
  [seq AB.1 *m AB.2 | AB <- zip A B].

(** Modelled from the spec: [utils.transpose], the batched transpose of the
    numeric utilities. *)
Definition transpose m n (A : seq 'M[F]_(m, n)) : seq 'M[F]_(n, m) :=
  [seq P^T | P <- A].

(** Modelled from the spec: [utils.inv] and [utils.inv_vmap] (utils.py is not
    part of the sources), the "batched (per-index) matrix inverse with
    jitter" of the numeric utilities.  The amount [jit] that the utility adds
    itself is a parameter; the spec's policy value is [1e-8].  A singular
    argument has no inverse. *)
Definition inv (jit : F) n (P : 'M[F]_n) : option 'M[F]_n :=
  if P + jit%:M \in unitmx then Some (invmx (P + jit%:M)) else None.

Definition inv_vmap (jit : F) n (P : seq 'M[F]_n) : option (seq 'M[F]_n) :=
  all_some [seq inv jit A | A <- P].

(** Modelled from the spec: [utils.solve], the "symmetric positive-definite
    solve via Cholesky" of the numeric utilities. *)
Definition solve (sqrtF : F -> option F) n k (P : 'M[F]_n) (Q : 'M[F]_(n, k))
  : option 'M[F]_(n, k) :=
  omap (fun c => cho_solve c Q) (cho_factor sqrtF P).

(** Modelled from the spec: [ops.process_noise_covariance(A, Pinf)],
    [Q = Pinf - A Pinf A^T]. *)
Definition process_noise_covariance n (A Pinf : 'M[F]_n) : 'M[F]_n :=
  Pinf - A *m Pinf *m A^T.

End Arrays.

(** ** [class GaussianDistribution] *)

Module GaussianDistribution.
Section Def.

Variable F : realFieldType.
Variable sqrtF : F -> option F.
Variable d : nat.

(** The four state variables, read through the properties of the same
    names. *)
Record t := mk {
  mean : seq 'cV[F]_d;
  covariance : seq 'M[F]_d;
  nat1 : seq 'cV[F]_d;
  nat2 : seq 'M[F]_d
}.

(** [reparametrise(param1, param2)]; the two arguments must have the same
    leading dimension. *)
Definition reparametrise (param1 : seq 'cV[F]_d) (param2 : seq 'M[F]_d)
  : option (seq 'cV[F]_d * seq 'M[F]_d) :=
  if size param1 != size param2 then None else
  if all_some [seq cho_factor sqrtF A | A <- param2] is Some chol then
    let reparam1 := [seq cho_solve cb.1 cb.2 | cb <- zip chol param1] in
    let reparam2 := [seq cho_solve c 1%:M | c <- chol] in
    Some (reparam1, reparam2)
  else None.

(** [__init__(mean, covariance)] *)
Definition init mean covariance : option t :=
  if reparametrise mean covariance is Some (nat1, nat2)
  then Some (mk mean covariance nat1 nat2)
  else None.

(** [__call__()] *)
Definition call (self : t) := (mean self, covariance self).

Definition update_mean_cov (self : t) mean covariance : option t :=
  if reparametrise mean covariance is Some (nat1, nat2)
  then Some (mk mean covariance nat1 nat2)
  else None.

Definition update_nat_params (self : t) nat1 nat2 : option t :=
  if reparametrise nat1 nat2 is Some (mean, covariance)
  then Some (mk mean covariance nat1 nat2)
  else None.

(** The two parameterisations agree at every site. *)
Definition dual_consistent (g : t) : Prop :=
  [/\ size (covariance g) = size (mean g),
      size (nat1 g) = size (mean g),
      size (nat2 g) = size (mean g) &
      forall n, (n < size (mean g))%N ->
        nth 0 (covariance g) n *m nth 0 (nat1 g) n = nth 0 (mean g) n /\
        nth 0 (covariance g) n *m nth 0 (nat2 g) n = 1%:M].

End Def.
End GaussianDistribution.

(** ** [class BaseModel] *)

Module BaseModel.
Section Def.

Variable F : realFieldType.
Variable sqrtF : F -> option F.

(** [obs_dim = Y.shape[1]] and [func_dim]. *)
Variables (e q : nat).

(** [isinstance(self.kernel, Independent)] selects the site size. *)
Definition pseudo_lik_size (independent : bool) : nat :=
  if independent then q else e.

Record t (p : nat) := mk {
  X : seq (input F);
  Y : seq 'rV[option F]_e;
  num_data : nat;
  pseudo_likelihood : GaussianDistribution.t F p;
  posterior_mean : seq 'cV[F]_q;
  posterior_variance : seq 'M[F]_q;
  ind : seq nat;
  num_neighbours : seq F;
  mask_y : seq (seq bool);
  mask_pseudo_y : seq (seq bool)
}.

(** [__init__(kernel, likelihood, X, Y, func_dim)]; [X] and [Y] are already
    two-dimensional. *)
Definition init (independent : bool)
    (X : seq (input F)) (Y : seq 'rV[option F]_e)
  : option (t (pseudo_lik_size independent)) :=
  let N := size X in
  let p := pseudo_lik_size independent in
  if GaussianDistribution.init sqrtF
       (nseq N (0 : 'cV[F]_p)) (nseq N (10 ^+ 2 *: 1%:M)) is Some site
  then
    let mask :=
      [seq [seq isnan (y ord0 j) | j <- enum 'I_e]
      | y : 'rV[option F]_e <- Y] in
    Some (mk X Y N site
            (nseq N 0) (nseq N 1%:M) (iota 0 N) (nseq N 1) mask
            (if q != e then [seq flatten (nseq p r) | r <- mask] else mask))
  else None.

(** Assignment to [self.posterior_mean.value] and
    [self.posterior_variance.value]. *)
Definition set_posterior p (self : t p) post_mean post_var : t p :=
  mk (X self) (Y self) (num_data self) (pseudo_likelihood self)
    post_mean post_var (ind self) (num_neighbours self)
    (mask_y self) (mask_pseudo_y self).

(** [group_natural_params(nat1, nat2, batch_ind=None)]: a mini-batch is
    scattered into the stored naturals, a full batch is passed on. *)
Definition group_natural_params p (self : t p)
    (nat1 : seq 'cV[F]_p) (nat2 : seq 'M[F]_p) (batch_ind : option (seq nat))
  : option (seq 'cV[F]_p * seq 'M[F]_p) :=
  if batch_ind is Some batch_ind then
    if size batch_ind != num_data self then
      let site := pseudo_likelihood self in
      if index_update 0 (GaussianDistribution.nat1 site) batch_ind nat1
        is Some nat1 then
        if index_update 0 (GaussianDistribution.nat2 site) batch_ind nat2
          is Some nat2 then Some (nat1, nat2)
        else None
      else None
    else Some (nat1, nat2)
  else Some (nat1, nat2).

(** [conditional_posterior_to_data(batch_ind=None, post_mean=None,
    post_cov=None)] *)
Definition conditional_posterior_to_data p (self : t p)
    (batch_ind : option (seq nat))
    (post_mean : option (seq 'cV[F]_q)) (post_cov : option (seq 'M[F]_q))
  : seq 'cV[F]_q * seq 'M[F]_q :=
  let batch_ind :=
    if batch_ind is Some b then b else iota 0 (num_data self) in
  let ind := gather 0%N (ind self) batch_ind in
  let post_mean :=
    if post_mean is Some m then m else gather 0 (posterior_mean self) ind in
  let post_cov :=
    if post_cov is Some c then c else gather 0 (posterior_variance self) ind in
  (post_mean, post_cov).

(** [conditional_data_to_posterior(mean_f, cov_f)] *)
Definition conditional_data_to_posterior p (self : t p)
    (mean_f : seq 'cV[F]_q) (cov_f : seq 'M[F]_q) :=
  (mean_f, cov_f).

(** [compute_full_pseudo_lik()] and [compute_full_pseudo_nat(batch_ind)] *)
Definition compute_full_pseudo_lik p (self : t p) :=
  GaussianDistribution.call (pseudo_likelihood self).

Definition compute_full_pseudo_nat p (self : t p) (batch_ind : seq nat) :=
  (gather 0 (GaussianDistribution.nat1 (pseudo_likelihood self)) batch_ind,
   gather 0 (GaussianDistribution.nat2 (pseudo_likelihood self)) batch_ind).

End Def.
End BaseModel.

(** ** [class GP] *)

Module GP.
Section Def.

Variable F : realFieldType.
Variable sqrtF : F -> option F.

(** [np.log] and the module constant [LOG2PI = math.log(2 * math.pi)]. *)
Variable lnF : F -> F.
Variable LOG2PI : F.

(** The kernel callback: [kernel(X, X')[i, j] = kernel X[i] X'[j]]. *)
Variable kernel : input F -> input F -> F.

(** [ops.gaussian_conditional(kernel, mean, cov, X, X_star)], an opaque
    operator returning the predictive mean [N*, 1] and covariance [N*, N*]. *)
Variable gaussian_conditional :
  seq 'cV[F]_1 -> seq 'M[F]_1 -> seq (input F) -> option (seq (input F)) ->
  seq (seq F) * seq (seq F).

(** One latent function and one observation column ([dim = 1] in
    [compute_log_lik]). *)
Record t := mk {
  base : BaseModel.t F 1 1 1;
  obs_ind : seq nat
}.

Definition init (X : seq (input F)) (Y : seq 'rV[option F]_1) : option t :=
  if BaseModel.init sqrtF 1 false X Y is Some base
  then Some (mk base (where_not_rows (BaseModel.mask_y base)))
  else None.

(** [self.X[self.obs_ind]] *)
Definition obs_X (self : t) : seq (input F) :=
  gather [::] (BaseModel.X (base self)) (obs_ind self).

(** [self.kernel(X, X)] *)
Definition kernel_matrix n (Xs : seq (input F)) : 'M[F]_n :=
  \matrix_(i, j) kernel (nth [::] Xs i) (nth [::] Xs j).

(** Modelled from the spec: [utils.diag], the batched diagonal; on the
    [N, 1, 1] site means it yields the [N, 1] column of their entries. *)
Definition diag_col n (y : seq 'cV[F]_1) : 'cV[F]_n :=
  \col_i (nth 0 y i) ord0 ord0.

(** [np.diag(np.squeeze(pseudo_var))] on [N, 1, 1] site variances. *)
Definition diag_squeeze n (v : seq 'M[F]_1) : 'M[F]_n :=
  diag_mx (\row_i (nth 0 v i) ord0 ord0).

(** [compute_log_lik(pseudo_y=None, pseudo_var=None)].  With exactly one
    observed row [np.squeeze] leaves a 0-d array, on which [np.diag]
    raises. *)
Definition compute_log_lik (self : t)
    (pseudo_y : option (seq 'cV[F]_1)) (pseudo_var : option (seq 'M[F]_1))
  : option F :=
  let dim : F := 1 in
  let site := BaseModel.pseudo_likelihood (base self) in
  let Xo := obs_X self in
  let: (py, pv) :=
    if pseudo_y is Some y then (y, pseudo_var)
    else (GaussianDistribution.mean site,
          Some (GaussianDistribution.covariance site)) in
  if pv is Some pv then
    let py := gather 0 py (obs_ind self) in
    let pv := gather 0 pv (obs_ind self) in
    let n := size (obs_ind self) in
    if n == 1%N then None else
    let Knn : 'M[F]_n := kernel_matrix n Xo in
    let Ky := Knn + diag_squeeze n pv in
    let y := diag_col n py in
    if cho_factor sqrtF Ky is Some (Ly, low) then
      Some (- 2^-1 * np_sum (y^T *m cho_solve (Ly, low) y)
            - (\sum_i lnF (Ly i i))
            - 2^-1 * n%:R * dim * LOG2PI)
    else None
  else None.

(** [predict(X)]: the model comes back as it went in. *)
Definition predict (self : t) (Xs : seq (input F)) : t * (seq F * seq F) :=
  let site := BaseModel.pseudo_likelihood (base self) in
  let: (mean, covariance) :=
    gaussian_conditional (GaussianDistribution.mean site)
      (GaussianDistribution.covariance site)
      (BaseModel.X (base self)) (Some Xs) in
  (self, (np_squeeze mean, np_diag covariance)).

(** [update_posterior()]: the conditional at the training inputs, reshaped
    to [num_data, 1, 1]; a reshape of an array with another number of entries
    raises. *)
Definition update_posterior (self : t) : option t :=
  let site := BaseModel.pseudo_likelihood (base self) in
  let N := BaseModel.num_data (base self) in
  let: (mean, covariance) :=
    gaussian_conditional (GaussianDistribution.mean site)
      (GaussianDistribution.covariance site)
      (BaseModel.X (base self)) None in
  if (size (flatten mean) == N) && (size (np_diag covariance) == N) then
    Some (mk (BaseModel.set_posterior (base self)
                [seq x%:M | x <- flatten mean]
                [seq x%:M | x <- np_diag covariance])
             (obs_ind self))
  else None.

(** [objax.random.normal(shape=(num_samps, N, func_dim), generator)]: the
    sample with index [s] of the array drawn from the generator of [seed]. *)
Variable normal_array : int -> forall num_samps N d : nat, nat -> 'M[F]_(N, d).

(** [prior_sample(num_samps=1, X=None, seed=0)]; [func_dim] is one.  A
    failed [np.linalg.cholesky] leaves NaN everywhere. *)
Definition prior_sample (self : t) (num_samps : nat)
    (Xs : option (seq (input F))) (seed : int) :=
  let Xs := if Xs is Some Xs then Xs else BaseModel.X (base self) in
  let N := size Xs in
  let m : 'M[F]_(N, 1) := 0 in
  let K : 'M[F]_N := kernel_matrix N Xs in
  if cholesky sqrtF (K + (10 ^- 12) *: 1%:M) is Some chol_K then
    let rand_norm_samples :=
      [seq normal_array seed num_samps N 1%N s | s <- iota 0 num_samps] in
    let f_samples :=
      [seq m + cz.1 *m cz.2
      | cz <- zip (nseq num_samps chol_K) rand_norm_samples] in
    Some f_samples
  else None.

End Def.
End GP.

(** ** [class SparseGP] *)

Module SparseGP.
Section Def.

Variable F : realFieldType.
Variable sqrtF : F -> option F.
Variable kernel : input F -> input F -> F.

(** [num_inducing = Z.shape[0]]. *)
Variable M : nat.

(** The jitter inside [utils.inv_vmap] (see [inv]). *)
Variable inv_jitter : F.

(** [ops.sparse_gaussian_conditional(kernel, nat1, nat2, X, Z)] and
    [ops.sparse_conditional_post_to_data(kernel, mean, cov, X, Z)], opaque. *)
Variable sparse_gaussian_conditional :
  seq 'cV[F]_1 -> seq 'M[F]_1 -> seq (input F) -> M.-tuple (input F) ->
  'cV[F]_M * 'M[F]_M.
Variable sparse_conditional_post_to_data :
  seq 'cV[F]_1 -> 'M[F]_M -> seq (input F) -> M.-tuple (input F) ->
  seq (seq F) * seq (seq F).

Record t := mk {
  gp : GP.t F;
  Z : M.-tuple (input F);
  opt_z : bool;
  num_inducing : nat;
  posterior_covariance : 'M[F]_M
}.

Definition init X Y (Z : M.-tuple (input F)) (opt_z : bool) : option t :=
  if GP.init sqrtF X Y is Some gp then
    let base :=
      BaseModel.set_posterior (GP.base gp) (nseq M 0) (nseq M 1%:M) in
    Some (mk (GP.mk base (GP.obs_ind gp)) Z opt_z M 1%:M)
  else None.

(** [update_posterior()]: three assignments. *)
Definition update_posterior (self : t) : t :=
  let site := BaseModel.pseudo_likelihood (GP.base (gp self)) in
  let: (mean, covariance) :=
    sparse_gaussian_conditional
      (GaussianDistribution.nat1 site) (GaussianDistribution.nat2 site)
      (BaseModel.X (GP.base (gp self))) (Z self) in
  let base :=
    BaseModel.set_posterior (GP.base (gp self))
      [seq (mean i ord0)%:M | i <- enum 'I_M]
      [seq (covariance i i)%:M | i <- enum 'I_M] in
  mk (GP.mk base (GP.obs_ind (gp self))) (Z self) (opt_z self)
    (num_inducing self) covariance.

(** [predict(X)] *)
Definition predict (self : t) (Xs : seq (input F)) : t * (seq F * seq F) :=
  let self := update_posterior self in
  let: (mean, covariance) :=
    sparse_conditional_post_to_data
      (BaseModel.posterior_mean (GP.base (gp self)))
      (posterior_covariance self) Xs (Z self) in
  (self, (np_squeeze mean, np_diag covariance)).

(** [compute_full_pseudo_nat(batch_ind)].  [X[batch_ind].reshape(-1, 1)]
    lists the selected entries as one column; [Wuf.T[..., None]] is the
    sequence of the columns of [Wuf]. *)
Definition compute_full_pseudo_nat (self : t) (batch_ind : seq nat)
  : option (seq 'cV[F]_M * seq 'M[F]_M) :=
  let base := GP.base (gp self) in
  let site := BaseModel.pseudo_likelihood base in
  let xs :=
    [seq [:: x] | x <- flatten (gather [::] (BaseModel.X base) batch_ind)] in
  let Nb := size xs in
  let Kuf : 'M[F]_(M, Nb) :=
    \matrix_(i, j) kernel (tnth (Z self) i) (nth [::] xs j) in
  let Kuu : 'M[F]_M :=
    \matrix_(i, j) kernel (tnth (Z self) i) (tnth (Z self) j) in
  if solve sqrtF Kuu Kuf is Some Wuf then
    let nat1 := gather 0 (GaussianDistribution.nat1 site) batch_ind in
    let nat2 := gather 0 (GaussianDistribution.nat2 site) batch_ind in
    if Nb != size batch_ind then None else
    Some ([seq col j Wuf *m nth 0 nat1 j | j <- enum 'I_Nb],
          [seq col j Wuf *m nth 0 nat2 j *m (col j Wuf)^T | j <- enum 'I_Nb])
  else None.

(** [compute_full_pseudo_lik()] *)
Definition compute_full_pseudo_lik (self : t)
  : option (seq 'cV[F]_M * seq 'M[F]_M) :=
  if compute_full_pseudo_nat self (GP.obs_ind (gp self))
    is Some (nat1lik_full, nat2lik_full) then
    if inv_vmap inv_jitter
         [seq P + (10 ^- 12) *: 1%:M | P <- nat2lik_full]
      is Some pseudo_var_full then
      let pseudo_y_full := bmm pseudo_var_full nat1lik_full in
      Some (pseudo_y_full, pseudo_var_full)
    else None
  else None.

(** [compute_global_pseudo_lik()]: the sites as one Gaussian over the
    inducing values.  As in [GP.compute_log_lik], with exactly one observed
    row [np.squeeze] leaves a 0-d array, on which [np.diag] raises. *)
Definition compute_global_pseudo_lik (self : t) : option ('cV[F]_M * 'M[F]_M) :=
  let base := GP.base (gp self) in
  let site := BaseModel.pseudo_likelihood base in
  let obs := GP.obs_ind (gp self) in
  let n := size obs in
  let Xo := GP.obs_X (gp self) in
  let Kuf : 'M[F]_(M, n) :=
    \matrix_(i, j) kernel (tnth (Z self) i) (nth [::] Xo j) in
  let Kuu : 'M[F]_M :=
    \matrix_(i, j) kernel (tnth (Z self) i) (tnth (Z self) j) in
  if solve sqrtF Kuu Kuf is Some Wuf then
    let nat1 := gather 0 (GaussianDistribution.nat1 site) obs in
    let nat2 := gather 0 (GaussianDistribution.nat2 site) obs in
    if n == 1%N then None else
    let nat1lik_full : 'cV[F]_M := Wuf *m (\col_j (nth 0 nat1 j) ord0 ord0) in
    let nat2lik_full : 'M[F]_M := Wuf *m GP.diag_squeeze n nat2 *m Wuf^T in
    if inv inv_jitter (nat2lik_full + (10 ^- 12) *: 1%:M)
      is Some pseudo_var_full then
      let pseudo_y_full := pseudo_var_full *m nat1lik_full in
      Some (pseudo_y_full, pseudo_var_full)
    else None
  else None.

(** [compute_log_lik(pseudo_y=None, pseudo_var=None)]: both arguments are
    used as they come, so a call that leaves one out raises. *)
Definition compute_log_lik (lnF : F -> F) (LOG2PI : F) (self : t)
    (pseudo_y : option 'cV[F]_M) (pseudo_var : option 'M[F]_M) : option F :=
  let dim : F := 1 in
  let Kuu : 'M[F]_M :=
    \matrix_(i, j) kernel (tnth (Z self) i) (tnth (Z self) j) in
  if (pseudo_y, pseudo_var) is (Some pseudo_y, Some pseudo_var) then
    let Ky := Kuu + pseudo_var in
    if cho_factor sqrtF Ky is Some (Ly, low) then
      Some (- 2^-1 * np_sum (pseudo_y^T *m cho_solve (Ly, low) pseudo_y)
            - (\sum_i lnF (Ly i i))
            - 2^-1 * M%:R * dim * LOG2PI)
    else None
  else None.

End Def.
End SparseGP.

(** ** [class MarkovGP] *)

Module MarkovGP.
Section Def.

Variable F : realFieldType.
Variable sqrtF : F -> option F.

(** [state_dim], [func_dim = H.shape[0]] and [obs_dim]. *)
Variables (sd q e : nat).
Variable independent : bool.
Local Notation p := (BaseModel.pseudo_lik_size e q independent).

(** The jitter inside [utils.inv_vmap] (see [inv]). *)
Variable inv_jitter : F.

(** [utils.input_admin(X, Y, R)], opaque: the prepared [(X, Y, R, dt)]. *)
Variable input_admin :
  seq (input F) -> seq 'rV[option F]_e -> option (seq (seq (option F))) ->
  seq (input F) * seq 'rV[option F]_e * seq (seq (option F)) * seq F.

(** [xla_bridge.get_backend().platform == 'gpu'] *)
Variable on_gpu : bool.

(** The kernel callbacks [measurement_model()], [stationary_covariance()],
    [state_transition(dt)] and [spatial_conditional(X, R)]. *)
Variable measurement_model : 'M[F]_(q, sd).
Variable stationary_covariance : 'M[F]_sd.
Variable state_transition : F -> 'M[F]_sd.
Variable spatial_conditional :
  seq (input F) -> seq (seq (option F)) -> seq 'M[F]_(p, q) * seq 'M[F]_p.

(** [ops.kalman_filter(dt, kernel, y, var, mask, parallel)],
    [ops.rauch_tung_striebel_smoother(dt, kernel, mean, cov, return_full,
    parallel)] and [utils.temporal_conditional(X_aug, X_test, mean, cov,
    gain, kernel)], opaque. *)
Variable kalman_filter :
  forall o, seq F -> seq 'cV[F]_o -> seq 'M[F]_o ->
  option (seq (seq bool)) -> bool -> F * (seq 'cV[F]_sd * seq 'M[F]_sd).
Variable rauch_tung_striebel_smoother :
  seq F -> seq 'cV[F]_sd -> seq 'M[F]_sd -> bool -> bool ->
  seq 'cV[F]_sd * seq 'M[F]_sd * seq 'M[F]_sd.
Variable temporal_conditional :
  seq (input F) -> seq (input F) -> seq 'cV[F]_sd -> seq 'M[F]_sd ->
  seq 'M[F]_sd -> seq 'cV[F]_sd * seq 'M[F]_sd.

(** [objax.random.normal(shape=(n, 1), generator=Generator(seed))] and the
    same for a batch shape [(num_samps, N, n, 1)]. *)
Variable normal : int -> forall n, 'cV[F]_n.
Variable normal_batch : int -> nat -> nat -> forall n, seq (seq 'cV[F]_n).

Record t := mk {
  base : BaseModel.t F e q p;
  R : seq (seq (option F));
  dt : seq F;
  state_dim : nat;
  minf : 'cV[F]_sd;
  spatio_temporal : bool;
  parallel : bool;
  mask_pseudo_y : option (seq (seq bool))
}.

(** [__init__(kernel, likelihood, X, Y, R=None, parallel=None)] *)
Definition init X Y (R : option (seq (seq (option F))))
    (parallel : option bool) : option t :=
  let parallel := if parallel is Some b then b else on_gpu in
  let: (X, Y, R, dt) := input_admin X Y R in
  if BaseModel.init sqrtF q independent X Y is Some base then
    let spatio_temporal := has (has (fun r => ~~ isnan r)) R in
    Some (mk base R dt sd 0 spatio_temporal parallel
            (if (q != e) && spatio_temporal then None
             else Some (BaseModel.mask_pseudo_y base)))
  else None.

(** The assignment [self.mask_pseudo_y = v] of a subclass. *)
Definition set_mask_pseudo_y (self : t) (v : option (seq (seq bool))) : t :=
  mk (base self) (R self) (dt self) (state_dim self) (minf self)
    (spatio_temporal self) (parallel self) v.

(** A batch of site means and covariances of some common size. *)
Definition pseudo_lik := {o : nat & (seq 'cV[F]_o * seq 'M[F]_o)%type}.

(** [compute_full_pseudo_lik()] *)
Definition compute_full_pseudo_lik (self : t) : option pseudo_lik :=
  let site := BaseModel.pseudo_likelihood (base self) in
  if spatio_temporal self then
    let: (B, C) := spatial_conditional (BaseModel.X (base self)) (R self) in
    let nat1lik_full := bmm (transpose B) (GaussianDistribution.nat1 site) in
    let nat2lik_full :=
      bmm (bmm (transpose B) (GaussianDistribution.nat2 site)) B in
    if inv_vmap inv_jitter
         [seq P + (10 ^- 12) *: 1%:M | P <- nat2lik_full]
      is Some pseudo_var_full then
      let pseudo_y_full := bmm pseudo_var_full nat1lik_full in
      Some (existT _ q (pseudo_y_full, pseudo_var_full))
    else None
  else
    Some (existT _ p (GaussianDistribution.mean site,
                      GaussianDistribution.covariance site)).

(** [compute_full_pseudo_nat(batch_ind)] *)
Definition compute_full_pseudo_nat (self : t) (batch_ind : seq nat)
  : pseudo_lik :=
  let site := BaseModel.pseudo_likelihood (base self) in
  let nat1 := gather 0 (GaussianDistribution.nat1 site) batch_ind in
  let nat2 := gather 0 (GaussianDistribution.nat2 site) batch_ind in
  if spatio_temporal self then
    let: (B, C) :=
      spatial_conditional (gather [::] (BaseModel.X (base self)) batch_ind)
        (gather [::] (R self) batch_ind) in
    let nat1lik_full := bmm (transpose B) nat1 in
    let nat2lik_full := bmm (bmm (transpose B) nat2) B in
    existT _ q (nat1lik_full, nat2lik_full)
  else existT _ p (nat1, nat2).

(** [compute_log_lik(pseudo_y=None, pseudo_var=None)]: the first output of
    the filter; the stored sites are loaded when [pseudo_y] is missing. *)
Definition compute_log_lik (self : t) (pseudo_lik_params : option pseudo_lik)
  : option F :=
  let params :=
    if pseudo_lik_params is Some params then Some params
    else compute_full_pseudo_lik self in
  if params is Some (existT o (pseudo_y, pseudo_var)) then
    Some (kalman_filter (dt self) pseudo_y pseudo_var
            (mask_pseudo_y self) (parallel self)).1
  else None.

(** The last lines of [predict].  [np.squeeze] drops every axis of length
    one of the test mean [N, o, 1]: a single test point of a single function
    leaves a zero-dimensional array.  The test variance [N, o, o] goes
    through [diag] when its squeezed form has more than two axes, that is for
    more than one test point of more than one function, and is then squeezed
    in the same way. *)
Definition squeeze_mean o (m : seq 'cV[F]_o) : ndarray F :=
  let rows := [seq [seq x i ord0 | i <- enum 'I_o] | x : 'cV[F]_o <- m] in
  if size m == 1%N then
    if o == 1%N then Arr0 (nth 0 (flatten rows) 0) else Arr1 (flatten rows)
  else if o == 1%N then Arr1 (flatten rows) else Arr2 rows.

Definition squeeze_var o (v : seq 'M[F]_o) : ndarray F :=
  let rows := [seq [seq x i i | i <- enum 'I_o] | x : 'M[F]_o <- v] in
  if size v == 1%N then
    if o == 1%N then Arr0 (nth 0 (flatten rows) 0)
    else Arr2 [seq [seq (nth 0 v 0) i j | j <- enum 'I_o] | i <- enum 'I_o]
  else if o == 1%N then Arr1 (flatten rows) else Arr2 rows.

(** [predict(X=None, R=None, pseudo_lik_params=None)]; a one-dimensional
    [X] has been turned into a column by the caller. *)
Definition predict (self : t) (Xs : option (seq (input F)))
    (Rs : option (seq (seq (option F))))
    (pseudo_lik_params : option pseudo_lik)
  : option (ndarray F * ndarray F) :=
  let Xs := if Xs is Some Xs then Xs else BaseModel.X (base self) in
  let Rs := if Rs is Some Rs then Rs
            else [seq [seq Some r | r <- drop 1 x] | x <- Xs] in
  let Xs := [seq take 1 x | x <- Xs] in
  let params :=
    if pseudo_lik_params is Some params then Some params
    else compute_full_pseudo_lik self in
  if params is Some (existT o (pseudo_y, pseudo_var)) then
    let: (_, (filter_mean, filter_cov)) :=
      kalman_filter (dt self) pseudo_y pseudo_var
        (mask_pseudo_y self) (parallel self) in
    let dt' := behead (dt self) ++ [:: 0] in
    let: (smoother_mean, smoother_cov, gain) :=
      rauch_tung_striebel_smoother dt' filter_mean filter_cov
        true (parallel self) in
    let inf : input F := [:: 10 ^+ 10] in
    let X_aug :=
      [:: [seq - x | x <- inf]]
        ++ [seq take 1 x | x <- BaseModel.X (base self)] ++ [:: inf] in
    let: (state_mean, state_cov) :=
      temporal_conditional X_aug Xs smoother_mean smoother_cov gain in
    let H := measurement_model in
    if spatio_temporal self then
      let: (B, C) := spatial_conditional Xs Rs in
      let W := [seq b *m H | b <- B] in
      let test_mean := bmm W state_mean in
      let test_var :=
        [seq VC.1 + VC.2
        | VC <- zip (bmm (bmm W state_cov) (transpose W)) C] in
      Some (squeeze_mean test_mean, squeeze_var test_var)
    else
      let test_mean := [seq H *m m | m <- state_mean] in
      let test_var := [seq H *m c *m H^T | c <- state_cov] in
      Some (squeeze_mean test_mean, squeeze_var test_var)
  else None.

(** [prior_sample(num_samps=1, X=None, seed=0)] for a one-dimensional [X].
    A failed [np.linalg.cholesky] spoils the state from that step on. *)
Definition prior_sample (self : t) (num_samps : nat) (Xs : option (seq F))
    (seed : int) : option (seq (seq 'cV[F]_q)) :=
  let dt := if Xs is Some Xs then 0 :: np_diff (sort <=%O Xs) else dt self in
    let H := measurement_model in
  let Pinf := stationary_covariance in
  let As := [seq state_transition d | d <- dt] in
  let Qs := [seq process_noise_covariance A Pinf | A <- As] in
  let jitter : 'M[F]_sd := (10 ^- 8) *: 1%:M in
  let f0 : seq 'cV[F]_q := nseq (size dt) 0 in
  let draw_full_sample (carry_ : seq (option 'cV[F]_q) * nat) (_ : F) :=
    let: (f_sample_i, i) := carry_ in
    let gen0 := seed - 1 - i%:Z in
    let m0 := omap (fun c => c *m normal gen0 sd) (cholesky sqrtF Pinf) in
    let sample_one_time_step (carry : option 'cV[F]_sd * nat)
        (inputs : 'M[F]_sd * 'M[F]_sd) :=
      let: (m, k) := carry in
      let: (A, Q) := inputs in
      let chol_Q := cholesky sqrtF (Q + jitter) in
      let gen := seed + (i * k)%:Z + k%:Z in
      let m :=
        if (m, chol_Q) is (Some m, Some chol_Q)
        then Some (A *m m + chol_Q *m normal gen sd) else None in
      let f := omap (mulmx H) m in
      ((m, k.+1), f) in
    let: (_, f_sample) := scan sample_one_time_step (m0, 0%N) (zip As Qs) in
    ((f_sample, i.+1), f_sample) in
  let: (_, f_samples) :=
    scan draw_full_sample ([seq Some f | f <- f0], 0%N) (nseq num_samps 0) in
  all_some [seq all_some f_sample | f_sample <- f_samples].

End Def.

Section Sampling.

Variable F : realFieldType.
Variable sqrtF : F -> option F.
Variable sd : nat.
Variable inv_jitter : F.
Variable measurement_model : 'M[F]_(1, sd).
Variable stationary_covariance : 'M[F]_sd.
Variable state_transition : F -> 'M[F]_sd.
Variable spatial_conditional :
  seq (input F) -> seq (seq (option F)) -> seq 'M[F]_(1, 1) * seq 'M[F]_1.
Variable kalman_filter :
  forall o, seq F -> seq 'cV[F]_o -> seq 'M[F]_o ->
  option (seq (seq bool)) -> bool -> F * (seq 'cV[F]_sd * seq 'M[F]_sd).
Variable rauch_tung_striebel_smoother :
  seq F -> seq 'cV[F]_sd -> seq 'M[F]_sd -> bool -> bool ->
  seq 'cV[F]_sd * seq 'M[F]_sd * seq 'M[F]_sd.
Variable temporal_conditional :
  seq (input F) -> seq (input F) -> seq 'cV[F]_sd -> seq 'M[F]_sd ->
  seq 'M[F]_sd -> seq 'cV[F]_sd * seq 'M[F]_sd.
Variable normal : int -> forall n, 'cV[F]_n.
Variable normal_batch : int -> nat -> nat -> forall n, seq (seq 'cV[F]_n).

(** The model that [posterior_sample] is written for: one latent function,
    one observation column, a site of size one at every time step. *)
Definition t1 := t F sd 1 1 false.

Definition predict1 (self : t1) Xs pseudo_lik_params :=
  predict (e := 1) (independent := false) inv_jitter measurement_model
    spatial_conditional kalman_filter
    rauch_tung_striebel_smoother temporal_conditional
    self Xs None pseudo_lik_params.

(** The [if X is None: ... else: ...] block of [posterior_sample]: the
    inputs of the sampling grid, and the positions of the training and of the
    test inputs in it. *)
Definition sample_grid (self : t1) (Xs : option (seq (input F)))
  : option (seq F) * seq nat * seq nat :=
  let N := BaseModel.num_data (base self) in
  if Xs is Some Xs then
    let: (u, ind) := np_unique (flatten (BaseModel.X (base self) ++ Xs)) in
    (Some u, take N ind, drop N ind)
  else (None, iota 0 N, iota 0 N).

(** [prior_samp_train + lik_chol @ normal(...)], at one time step and along
    one sample. *)
Definition noisy_sample (f : 'cV[F]_1) (chol : 'M[F]_1) (eps : 'cV[F]_1) :=
  f + chol *m eps.

Definition noisy_samples (f : seq 'cV[F]_1) (lik_chol : seq 'M[F]_1)
    (eps : seq 'cV[F]_1) : seq 'cV[F]_1 :=
  [seq noisy_sample fce.1.1 fce.1.2 fce.2 | fce <- zip (zip f lik_chol) eps].

(** The local function [smooth_prior_sample(i, prior_samp_y_i)]. *)
Definition smooth_prior_sample (self : t1) Xcol (i : nat)
    (prior_samp_y_i : seq 'cV[F]_1) : nat * option (ndarray F) :=
  let site := BaseModel.pseudo_likelihood (base self) in
  let smoothed_sample :=
    omap fst
      (predict1 self Xcol
         (Some (existT _ 1%N
                  (prior_samp_y_i, GaussianDistribution.covariance site)))) in
  (i.+1, smoothed_sample).

(** [(prior_samp[..., 0, 0] - smoothed_samples + post_mean[None])[:,
    test_ind]], with the broadcasting of the three arrays.  With no sample
    no array has a row, and nor has the result.  Stacked two-dimensional
    outputs do not occur with one latent function. *)
Definition combine_samples (test_ind : seq nat) (post_mean : ndarray F)
    (prior_samp : seq (seq 'cV[F]_1)) (smoothed_samples : seq (ndarray F))
  : option (seq (seq F)) :=
  if prior_samp is [::] then Some [::] else
  let prior := [seq [seq x ord0 ord0 | x : 'cV[F]_1 <- f] | f <- prior_samp] in
  if (stack2 smoothed_samples, expand_dims post_mean)
    is (Some smoothed, Some post) then
    if broadcast2 (fun x y => x - y) prior smoothed is Some d then
      if broadcast2 +%R d post is Some r then
        Some [seq gather 0 row test_ind | row <- r]
      else None
    else None
  else None.

(** [posterior_sample(X=None, num_samps=1, seed=0)]; the result has one row
    per sample and one column per test index. *)
Definition posterior_sample (self : t1) (Xs : option (seq (input F)))
    (num_samps : nat) (seed : int) : option (seq (seq F)) :=
  let site := BaseModel.pseudo_likelihood (base self) in
  let: (Xs, train_ind, test_ind) := sample_grid self Xs in
  let Xcol := omap (map (fun x => [:: x])) Xs in
  if predict1 self Xcol None is Some (post_mean, _) then
    if prior_sample sqrtF measurement_model stationary_covariance
         state_transition normal self num_samps Xs seed is Some prior_samp
    then
      if all_some [seq cholesky sqrtF c
                  | c <- GaussianDistribution.covariance site]
        is Some lik_chol then
        let prior_samp_train := [seq gather 0 f train_ind | f <- prior_samp] in
        let noise := normal_batch seed num_samps (size train_ind) 1 in
        let prior_samp_y :=
          [seq noisy_samples fe.1 lik_chol fe.2
          | fe <- zip prior_samp_train noise] in
        let: (_, smoothed_samples) :=
          scan (smooth_prior_sample self Xcol) 0%N prior_samp_y in
        if all_some smoothed_samples is Some smoothed_samples then
          combine_samples test_ind post_mean prior_samp smoothed_samples
        else None
      else None
    else None
  else None.

End Sampling.
End MarkovGP.

(** ** [class SparseMarkovGP] *)

(** What a Python call yields: a value, or a raised exception. *)
Inductive exception := TypeError | ValueError.

Inductive result (T : Type) := Return of T | Raise of exception.
Arguments Raise {T}.

Module SparseMarkovGP.
Section Def.

Variable F : realFieldType.
Variable sqrtF : F -> option F.
Variables (sd q e : nat).
Variable independent : bool.
Local Notation p := (BaseModel.pseudo_lik_size e q independent).
Variable inv_jitter : F.
Variable input_admin :
  seq (input F) -> seq 'rV[option F]_e -> option (seq (seq (option F))) ->
  seq (input F) * seq 'rV[option F]_e * seq (seq (option F)) * seq F.
Variable on_gpu : bool.
Variable measurement_model : 'M[F]_(q, sd).
Variable spatial_conditional :
  seq (input F) -> seq (seq (option F)) -> seq 'M[F]_(p, q) * seq 'M[F]_p.

(** [utils.set_z_stats(X, Z)], opaque: the interval index of every data
    point and the number of data points of every interval. *)
Variable set_z_stats : seq (input F) -> seq F -> seq nat * seq F.

(** [utils.compute_conditional_statistics(x, Z, kernel, ind)], opaque: the
    conditional mean map [P] and residual covariance [T] of one data point. *)
Variable compute_conditional_statistics :
  input F -> seq F -> nat -> 'M[F]_(sd, 2 * sd) * 'M[F]_sd.

(** The size of a function-space site: [B] projects in the spatio-temporal
    case, [H] alone otherwise. *)
Definition out_dim (spatio_temporal : bool) : nat :=
  if spatio_temporal then p else q.

(** The attributes that [__init__] sets or overrides; [Z] is the single
    column of the stored [M + 2, 1] array. *)
Record t := mk {
  markov : MarkovGP.t F sd q e independent;
  Z : seq F;
  dz : seq F;
  num_transitions : nat;
  pseudo_likelihood : GaussianDistribution.t F (2 * sd);
  posterior_mean : seq 'cV[F]_(2 * sd);
  posterior_variance : seq 'M[F]_(2 * sd);
  conditional_mean :
    option (seq 'M[F]_(out_dim (MarkovGP.spatio_temporal markov), 2 * sd));
  ind : seq nat;
  num_neighbours : seq F
}.

Definition X (self : t) := BaseModel.X (MarkovGP.base (markov self)).
Definition num_data (self : t) :=
  BaseModel.num_data (MarkovGP.base (markov self)).

(** [np.concatenate([-inf, Z, inf], axis=0)] after [Z = np.sort(Z, axis=0)],
    with [inf = np.array([[1e10]])]. *)
Definition inf : F := 10 ^+ 10.

Definition augment (Z : seq F) : seq F :=
  [:: - inf] ++ sort <=%O Z ++ [:: inf].

(** The local [nat2] of [__init__]. *)
Definition init_nat2 (num_transitions : nat) : seq 'M[F]_(2 * sd) :=
  let eyes : seq 'M[F]_(2 * sd) := nseq num_transitions 1%:M in
  index_update_entry [seq (10 ^- 8) *: eye | eye <- eyes]
    (iota 0 num_transitions.-1) sd sd (10 ^- 2).

(** The diagonal of site [k] of that [nat2], out of [num_transitions]. *)
Definition init_precision_diag (num_transitions k : nat) : 'rV[F]_(2 * sd) :=
  \row_i (if (i == sd :> nat) && (k < num_transitions.-1)%N
          then 10 ^- 2 else 10 ^- 8).

(** [__init__(kernel, likelihood, X, Y, Z, R=None, parallel=None)] for a
    one-dimensional or single-column [Z]. *)
Definition init X Y (Z : seq F) (R : option (seq (seq (option F))))
    (parallel : option bool) : option t :=
  if MarkovGP.init sqrtF sd q independent input_admin on_gpu X Y R parallel
    is Some markov then
    let markov := MarkovGP.set_mask_pseudo_y markov None in
    let Z := augment Z in
    let dz := np_diff Z in
    let num_transitions := size dz in
    let zeros : seq 'cV[F]_(2 * sd) := nseq num_transitions 0 in
    let eyes : seq 'M[F]_(2 * sd) := nseq num_transitions 1%:M in
    let nat2 := init_nat2 num_transitions in
    if inv_vmap inv_jitter nat2 is Some covariance then
      if GaussianDistribution.init sqrtF zeros covariance is Some site then
        let: (ind, num_neighbours) :=
          set_z_stats (BaseModel.X (MarkovGP.base markov)) Z in
        Some (mk (markov := markov) Z dz num_transitions site zeros eyes
                None ind num_neighbours)
      else None
    else None
  else None.

(** Modelled from the spec: [utils.sum_natural_params_by_group], the step of
    the grouping scan: a member's contribution is added to the naturals of
    its interval and the interval's member count goes up by one. *)
Definition sum_natural_params_by_group
    (carry : seq 'cV[F]_(2 * sd) * seq 'M[F]_(2 * sd) * seq F)
    (inputs : nat * 'cV[F]_(2 * sd) * 'M[F]_(2 * sd)) :=
  let: (ind_m, nat1_m, nat2_m) := inputs in
  let: (nat1s, nat2s, count) := carry in
  ((index_add nat1s ind_m nat1_m,
    index_add nat2s ind_m nat2_m,
    index_add count ind_m 1), tt).

(** The local [ind] of [group_natural_params]: the interval of every data
    point of the update. *)
Definition batch_intervals (self : t) (batch_ind : option (seq nat))
  : seq nat :=
  if batch_ind is Some batch_ind then gather 0%N (ind self) batch_ind
  else ind self.

(** [group_natural_params(nat1_n, nat2_n, batch_ind=None)].  The scanned
    arrays must have the same leading dimension, and [num_neighbours] one
    entry per site. *)
Definition group_natural_params (self : t)
    (nat1_n : seq 'cV[F]_(2 * sd)) (nat2_n : seq 'M[F]_(2 * sd))
    (batch_ind : option (seq nat))
  : option (seq 'cV[F]_(2 * sd) * seq 'M[F]_(2 * sd)) :=
  let ind := batch_intervals self batch_ind in
  let old_nat1 := GaussianDistribution.nat1 (pseudo_likelihood self) in
  let old_nat2 := GaussianDistribution.nat2 (pseudo_likelihood self) in
  if [&& size nat1_n == size ind, size nat2_n == size ind,
         size old_nat2 == size old_nat1 &
         size (num_neighbours self) == size old_nat1] then
    let: ((new_nat1, new_nat2, counter), _) :=
      scan sum_natural_params_by_group
        ([seq 0 | _ <- old_nat1], [seq 0 | _ <- old_nat2],
         nseq (size old_nat1) 0)
        (zip (zip ind nat1_n) nat2_n) in
    let num_neighbours := [seq Num.max x 1 | x <- num_neighbours self] in
    let residual k := 1 - nth 0 counter k / nth 0 num_neighbours k in
    let nat1 :=
      [seq nth 0 new_nat1 k + residual k *: nth 0 old_nat1 k
      | k <- iota 0 (size old_nat1)] in
    let nat2 :=
      [seq nth 0 new_nat2 k + residual k *: nth 0 old_nat2 k
      | k <- iota 0 (size old_nat1)] in
    let nat2 := [seq P + (10 ^- 8) *: 1%:M | P <- nat2] in
    Some (nat1, nat2)
  else None.

(** Assignment to [self.conditional_mean]. *)
Definition set_conditional_mean (self : t) W : t :=
  mk (markov := markov self) (Z self) (dz self) (num_transitions self)
    (pseudo_likelihood self) (posterior_mean self) (posterior_variance self)
    W (ind self) (num_neighbours self).

(** [conditional_posterior_to_data(batch_ind=None, post_mean=None,
    post_cov=None)]: the projector [W] is stored in [self.conditional_mean]
    on the way. *)
Definition conditional_posterior_to_data (self : t)
    (batch_ind : option (seq nat))
    (post_mean : option (seq 'cV[F]_(2 * sd)))
    (post_cov : option (seq 'M[F]_(2 * sd)))
  : t * (seq 'cV[F]_(out_dim (MarkovGP.spatio_temporal (markov self)))
         * seq 'M[F]_(out_dim (MarkovGP.spatio_temporal (markov self)))) :=
  let batch_ind :=
    if batch_ind is Some b then b else iota 0 (num_data self) in
  let post_mean :=
    if post_mean is Some m then m else posterior_mean self in
  let post_cov :=
    if post_cov is Some c then c else posterior_variance self in
  let ind := gather 0%N (ind self) batch_ind in
  let post_mean := gather 0 post_mean ind in
  let post_cov := gather 0 post_cov ind in
  let Xb := gather [::] (X self) batch_ind in
  let PT :=
    [seq compute_conditional_statistics (take 1 xi.1) (Z self) xi.2
    | xi <- zip Xb ind] in
  let P := [seq pt.1 | pt <- PT] in
  let T := [seq pt.2 | pt <- PT] in
  let H := measurement_model in
  let Wc :=
    match MarkovGP.spatio_temporal (markov self) as st
      return seq 'M[F]_(out_dim st, 2 * sd) * seq 'M[F]_(out_dim st) with
    | true =>
      let: (B, C) :=
        spatial_conditional Xb (gather [::] (MarkovGP.R (markov self))
                                  batch_ind) in
      let BH := [seq b *m H | b <- B] in
      (bmm BH P,
       [seq VC.1 + VC.2 | VC <- zip (bmm (bmm BH T) (transpose BH)) C])
    | false =>
      ([seq H *m Pn | Pn <- P], [seq H *m Tn *m H^T | Tn <- T])
    end in
  let W := Wc.1 in
  let conditional_cov := Wc.2 in
  let self := set_conditional_mean (self := self) (Some W) in
  let mean_f := bmm W post_mean in
  let cov_f :=
    [seq VC.1 + VC.2
    | VC <- zip (bmm (bmm W post_cov) (transpose W)) conditional_cov] in
  (self, (mean_f, cov_f)).

(** [conditional_data_to_posterior(mean_f, cov_f)].  There is no guard: with
    [self.conditional_mean] still [None] the array operations are applied to
    [None] ([transpose(None)], and [cov_f @ None] all the same), which
    raises. *)
Definition conditional_data_to_posterior (self : t)
    (mean_f : seq 'cV[F]_(out_dim (MarkovGP.spatio_temporal (markov self))))
    (cov_f : seq 'M[F]_(out_dim (MarkovGP.spatio_temporal (markov self))))
  : result (seq 'cV[F]_(2 * sd) * seq 'M[F]_(2 * sd)) :=
  if conditional_mean self is Some W then
    let mean_q := bmm (transpose W) mean_f in
    let cov_q := bmm (bmm (transpose W) cov_f) W in
    Return (mean_q, cov_q)
  else Raise TypeError.

End Def.

Arguments set_conditional_mean {F sd q e independent} self W.
Arguments conditional_data_to_posterior {F sd q e independent} self mean_f cov_f.

End SparseMarkovGP.

(** ** The rationals as a field of numbers

    Exact roots exist for squares only; here they are found for the squares
    of natural numbers. *)

Definition nat_root (n : nat) : nat :=
  find (fun k => n <= k * k)%N (iota 0 n.+1).

Definition rat_sqrt (x : rat) : option rat :=
  let n := `|numq x|%N in
  let r := nat_root n in
  if [&& 0 < x, denq x == 1 & (r * r == n)%N] then Some r%:R else None.

(** ** Concrete models for the examples *)

(** A sparse Markov model over the rationals with two intervals and three
    data points, two of them in the first interval. *)
Definition toy_base : BaseModel.t rat 1 1 (BaseModel.pseudo_lik_size 1 1 false) :=
  BaseModel.mk (e := 1) (q := 1) [::] [::] 3
    (GaussianDistribution.mk [::] [::] [::] [::]) [::] [::] [::] [::] [::] [::].

Definition toy_markov : MarkovGP.t rat 1 1 1 false :=
  MarkovGP.mk toy_base [::] [::] 1 0 false false None.

Definition toy_site : GaussianDistribution.t rat (2 * 1) :=
  GaussianDistribution.mk [:: 0; 0] [:: 1%:M; 1%:M]
    [:: const_mx 1; const_mx 2] [:: 1%:M; 2%:M].

Definition toy_sparse : SparseMarkovGP.t rat 1 1 1 false :=
  SparseMarkovGP.mk (markov := toy_markov) [:: 0; 1; 2] [:: 1; 1] 2
    toy_site [:: 0; 0] [:: 1%:M; 1%:M] None [:: 0; 0; 1]%N [:: 2; 1].

(** A sparse Markov model built by [__init__] over the rationals: one data
    point, no spatial input, a utility inverse without jitter of its own. *)
Definition toy_input_admin (X : seq (input rat)) (Y : seq 'rV[option rat]_1)
    (R : option (seq (seq (option rat)))) :=
  (X, Y, [::] : seq (seq (option rat)), [:: 0 : rat]).

Definition toy_set_z_stats (X : seq (input rat)) (Z : seq rat) :=
  ([:: 0%N], [:: 1 : rat; 0]).

Definition toy_init (Z : seq rat) :=
  SparseMarkovGP.init rat_sqrt 1 1 false 0 toy_input_admin false
    toy_set_z_stats [:: [:: 0]] [:: const_mx (Some 1)] Z None None.

(** A dense and a sparse model over the rationals: two observed data points,
    a white kernel of variance 4, site variances 5 and one inducing input. *)
Definition toy_kernel (x y : input rat) : rat := if x == y then 4 else 0.

Definition toy_dense_site : GaussianDistribution.t rat 1 :=
  GaussianDistribution.mk [:: const_mx 3; const_mx 3] [:: 5%:M; 5%:M]
    [:: const_mx (3 / 5); const_mx (3 / 5)] [:: (5^-1)%:M; (5^-1)%:M].

Definition toy_dense_base : BaseModel.t rat 1 1 1 :=
  BaseModel.mk (e := 1) (q := 1) [:: [:: 0]; [:: 1]]
    [:: const_mx (Some 1); const_mx (Some 1)] 2 toy_dense_site
    [:: 0; 0] [:: 1%:M; 1%:M] [:: 0; 1]%N [:: 1; 1]
    [:: [:: false]; [:: false]] [:: [:: false]; [:: false]].

Definition toy_gp : GP.t rat := GP.mk toy_dense_base [:: 0; 1]%N.

Definition toy_sgp : SparseGP.t rat 1 :=
  SparseGP.mk toy_gp [tuple [:: 0]] false 1 1%:M.

(** ** The log normaliser of the spec

    [log N(y | 0, Ky)] for an [n]-dimensional [y], in the words of the spec:
    the quadratic form, the log-determinant and the constant. *)
Definition log_normaliser (F : realFieldType) (lnF : F -> F) (LOG2PI : F)
    n (y : 'cV[F]_n) (Ky : 'M[F]_n) : F :=
  - 2^-1 * (y^T *m invmx Ky *m y) ord0 ord0
  - 2^-1 * lnF (\det Ky)
  - 2^-1 * n%:R * LOG2PI.

(** A Markov model with one data point and callbacks simple enough to be
    followed by hand: the filter sums the entries of every pseudo-observation,
    smoother and temporal conditional pass the filtered states on, every
    random draw is one.  The transition is chosen so that the process noise
    plus the jitter of [prior_sample] is 4. *)
Section ToySmoothing.

Variable F : realFieldType.

Definition toy_filter o (dt : seq F) (y : seq 'cV[F]_o) (v : seq 'M[F]_o)
    (mask : option (seq (seq bool))) (parallel : bool)
  : F * (seq 'cV[F]_1 * seq 'M[F]_1) :=
  (0, ([seq const_mx (\sum_i m i ord0) | m : 'cV[F]_o <- y],
       nseq (size y) 1%:M)).

Definition toy_smoother (dt : seq F) (m : seq 'cV[F]_1) (c : seq 'M[F]_1)
    (return_full parallel : bool) :=
  (m, c, c).

Definition toy_temporal_conditional (X_aug X_test : seq (input F))
    (m : seq 'cV[F]_1) (c gain : seq 'M[F]_1) :=
  (m, c).

Definition toy_spatial_conditional (X : seq (input F))
    (R : seq (seq (option F))) : seq 'M[F]_(1, 1) * seq 'M[F]_1 :=
  ([::], [::]).

Definition toy_normal (seed : int) n : 'cV[F]_n := const_mx 1.

Definition toy_normal_batch (seed : int) (num_samps N : nat) n
  : seq (seq 'cV[F]_n) :=
  nseq num_samps (nseq N (const_mx 1)).

Definition toy_transition (dt : F) : 'M[F]_1 := (10 ^- 4 / 2)%:M.

Definition toy_smoothing_site : GaussianDistribution.t F 1 :=
  GaussianDistribution.mk [:: const_mx 3] [:: 4%:M]
    [:: const_mx (3 / 4)] [:: (4^-1)%:M].

Definition toy_smoothing_base
  : BaseModel.t F 1 1 (BaseModel.pseudo_lik_size 1 1 false) :=
  BaseModel.mk (e := 1) (q := 1) [:: [:: 0]] [:: const_mx (Some 1)] 1
    toy_smoothing_site [:: 0] [:: 1%:M] [:: 0%N] [:: 1]
    [:: [:: false]] [:: [:: false]].

Definition toy_smoothing : MarkovGP.t1 F 1 :=
  MarkovGP.mk toy_smoothing_base [::] [:: 0] 1 0 false false
    (Some [:: [:: false]]).

(** The mean that [predict] returns with these callbacks. *)
Definition toy_predict_mean o (y : seq 'cV[F]_o) : seq F :=
  [seq (\sum_i m i ord0) | m : 'cV[F]_o <- y].

End ToySmoothing.

(** Callbacks for the sparse Markov models of the examples. *)
Definition toy_conditional_statistics (x : input rat) (Z : seq rat) (k : nat)
  : 'M[rat]_(1, 2 * 1) * 'M[rat]_1 :=
  (const_mx 1, 1%:M).

Definition toy_spatial (X : seq (input rat)) (R : seq (seq (option rat)))
  : seq 'M[rat]_(BaseModel.pseudo_lik_size 1 1 false, 1)
    * seq 'M[rat]_(BaseModel.pseudo_lik_size 1 1 false) :=
  ([::], [::]).

(** A sparse conditional that answers zero everywhere. *)
Definition toy_sparse_conditional (nat1 : seq 'cV[rat]_1)
    (nat2 : seq 'M[rat]_1) (X : seq (input rat)) (Z : 1.-tuple (input rat))
  : 'cV[rat]_1 * 'M[rat]_1 :=
  (0, 0).

Definition toy_post_to_data (mean : seq 'cV[rat]_1) (cov : 'M[rat]_1)
    (X : seq (input rat)) (Z : 1.-tuple (input rat))
  : seq (seq rat) * seq (seq rat) :=
  ([::], [::]).

(** Callbacks for the dense models of the examples: a white kernel whose
    variance plus the jitter of [GP.prior_sample] is 4, random draws that are
    all one, and a conditional that answers zero at every training input. *)
Section ToyDense.

Variable F : realFieldType.

Definition toy_white_kernel (x y : input F) : F :=
  if x == y then 4 - 10 ^- 12 else 0.

Definition toy_normal_array (seed : int) (num_samps N d : nat) (s : nat)
  : 'M[F]_(N, d) :=
  const_mx 1.

Definition toy_gaussian_conditional (mean : seq 'cV[F]_1)
    (cov : seq 'M[F]_1) (X : seq (input F)) (Xs : option (seq (input F)))
  : seq (seq F) * seq (seq F) :=
  ([seq [:: 0] | _ <- X], [seq nseq (size X) 0 | _ <- X]).

End ToyDense.

(** ** The state recursion of the prior sampler

    The states [m_k, m_k+1, ...] of a linear recursion
    [m_k = step k m_(k-1)] over [n] steps, started after [m]. *)
Fixpoint prior_states (T : Type) (step : nat -> T -> T) (m : T) (k n : nat)
  : seq T :=
  if n is n'.+1 then
    step k m :: prior_states step (step k m) k.+1 n'
  else [::].

(** A covariance that is not symmetric: ones on and below the diagonal. *)
Definition toy_lower_ones : 'M[rat]_2 :=
  \matrix_(i, j) if (j <= i)%N then 1 else 0.

(** A white kernel of variance 44. *)
Definition toy_kernel44 (F : realFieldType) (x y : input F) : F :=
  if x == y then 44 else 0.

(** A two-point model of the same kind, and a generator whose draws for
    sample [i] are all [i]. *)
Section ToySmoothing2.

Variable F : realFieldType.

Definition toy_smoothing_site2 : GaussianDistribution.t F 1 :=
  GaussianDistribution.mk [:: const_mx 3; const_mx 3] [:: 4%:M; 4%:M]
    [:: const_mx (3 / 4); const_mx (3 / 4)] [:: (4^-1)%:M; (4^-1)%:M].

Definition toy_smoothing_base2
  : BaseModel.t F 1 1 (BaseModel.pseudo_lik_size 1 1 false) :=
  BaseModel.mk (e := 1) (q := 1) [:: [:: 0]; [:: 1]]
    [:: const_mx (Some 1); const_mx (Some 1)] 2
    toy_smoothing_site2 [:: 0; 0] [:: 1%:M; 1%:M] [:: 0%N; 1%N] [:: 1; 1]
    [:: [:: false]; [:: false]] [:: [:: false]; [:: false]].

Definition toy_smoothing2 : MarkovGP.t1 F 1 :=
  MarkovGP.mk toy_smoothing_base2 [::] [:: 0; 1] 1 0 false false
    (Some [:: [:: false]; [:: false]]).

Definition toy_normal_ramp (seed : int) (num_samps N : nat) n
  : seq (seq 'cV[F]_n) :=
  [seq nseq N (const_mx i%:R) | i <- iota 0 num_samps].

End ToySmoothing2.

(** * Properties *)

Section LinalgFacts.

Variable F : realFieldType.
Variable sqrtF : F -> option F.
Hypothesis sqrtF_ok : sqrt_spec sqrtF.

Lemma mx11_ul n (A : 'M[F]_(1 + n)) : ulsubmx A = (A ord0 ord0)%:M.
Proof.
by rewrite [LHS]mx11_scalar !mxE lshift0.
Qed.

Lemma solve_lowerS n k (L : 'M[F]_(1 + n)) (B : 'M[F]_(1 + n, k)) :
  solve_lower L B =
  col_mx ((L ord0 ord0)^-1 *: usubmx B)
    (solve_lower (drsubmx L)
       (dsubmx B - dlsubmx L *m ((L ord0 ord0)^-1 *: usubmx B))).
Proof. by []. Qed.

Lemma solve_upperS n k (U : 'M[F]_(1 + n)) (Y : 'M[F]_(1 + n, k)) :
  solve_upper U Y =
  col_mx ((U ord0 ord0)^-1 *:
            (usubmx Y - ursubmx U *m solve_upper (drsubmx U) (dsubmx Y)))
    (solve_upper (drsubmx U) (dsubmx Y)).
Proof. by []. Qed.

Lemma solve_lower_step n k (L : 'M[F]_(1 + n)) (B : 'M[F]_(1 + n, k)) :
  (forall (L' : 'M[F]_n) (B' : 'M[F]_(n, k)),
     is_trig_mx L' -> (forall i, L' i i != 0) -> L' *m solve_lower L' B' = B') ->
  is_trig_mx L -> (forall i, L i i != 0) -> L *m solve_lower L B = B.
Proof.
move=> IH Ltrig Ldiag; rewrite solve_lowerS; set y := _ *: usubmx B.
rewrite -[L in L *m _]submxK mul_block_col (ursubmx_trig _ Ltrig) //.
rewrite mul0mx addr0 IH;
  [by apply: drsubmx_trig | by move=> i; rewrite !mxE |].
rewrite addrC subrK mx11_ul mul_scalar_mx scalerA divff ?scale1r ?vsubmxK //.
Qed.

Lemma solve_lower_ok n k (L : 'M[F]_n) (B : 'M[F]_(n, k)) :
  is_trig_mx L -> (forall i, L i i != 0) -> L *m solve_lower L B = B.
Proof.
elim: n L B => [|n IH] L B; first by rewrite !flatmx0.
exact: solve_lower_step.
Qed.

Lemma solve_upper_step n k (U : 'M[F]_(1 + n)) (Y : 'M[F]_(1 + n, k)) :
  (forall (U' : 'M[F]_n) (Y' : 'M[F]_(n, k)),
     is_trig_mx U'^T -> (forall i, U' i i != 0) ->
     U' *m solve_upper U' Y' = Y') ->
  is_trig_mx U^T -> (forall i, U i i != 0) -> U *m solve_upper U Y = Y.
Proof.
move=> IH Utrig Udiag; rewrite solve_upperS.
have dl0 : dlsubmx U = 0.
  by apply: trmx_inj; rewrite trmx_dlsub ursubmx_trig // trmx0.
rewrite -[U in U *m _]submxK mul_block_col dl0 mul0mx add0r IH.
- by rewrite trmx_drsub; apply: drsubmx_trig.
- by move=> i; rewrite !mxE.
rewrite mx11_ul mul_scalar_mx scalerA divff ?scale1r ?subrK ?vsubmxK //.
Qed.

Lemma solve_upper_ok n k (U : 'M[F]_n) (Y : 'M[F]_(n, k)) :
  is_trig_mx U^T -> (forall i, U i i != 0) -> U *m solve_upper U Y = Y.
Proof.
elim: n U Y => [|n IH] U Y; first by rewrite !flatmx0.
exact: solve_upper_step.
Qed.

Lemma choleskyS n (A : 'M[F]_(1 + n)) :
  cholesky sqrtF A =
  if sqrtF (A ord0 ord0) is Some l then
    if cholesky sqrtF
         (drsubmx A - (l^-1 *: dlsubmx A) *m (l^-1 *: dlsubmx A)^T) is Some L'
    then Some (block_mx l%:M 0 (l^-1 *: dlsubmx A) L')
    else None
  else None.
Proof. by []. Qed.

Lemma cholesky_step n (A L : 'M[F]_(1 + n)) :
  (forall A' L' : 'M[F]_n,
     symmetric A' -> cholesky sqrtF A' = Some L' -> cholesky_post A' L') ->
  symmetric A -> cholesky sqrtF A = Some L -> cholesky_post A L.
Proof.
move=> IH /eqP Asym; rewrite choleskyS.
case El: (sqrtF _) => [l|] //; have [l_gt0 ll] := sqrtF_ok El.
set c := l^-1 *: dlsubmx A; set S := drsubmx A - _.
case EL': (cholesky sqrtF S) => [L'|] // [<-].
have Ssym : symmetric S.
  by rewrite /symmetric /S linearB /= trmx_mul trmxK trmx_drsub Asym.
have [L'trig L'pos L'L'] := IH _ _ Ssym EL'.
have l0 : l != 0 by rewrite gt_eqF.
split.
- by rewrite is_trig_block_mx // eqxx mx11_is_trig.
- move=> i; case: (split_ordP i) => j ->.
    by rewrite block_mxEul ord1 mxE eqxx mulr1n.
  by rewrite block_mxEdr.
- rewrite tr_block_mx trmx0 tr_scalar_mx mulmx_block.
  rewrite !mulmx0 !mul0mx !addr0 L'L' /S addrC subrK.
  rewrite -scalar_mxM ll mul_scalar_mx mul_mx_scalar /c linearZ /= !scalerA.
  rewrite divff // !scale1r trmx_dlsub Asym -mx11_ul; exact: submxK.
Qed.

Lemma cholesky_ok n (A L : 'M[F]_n) :
  symmetric A -> cholesky sqrtF A = Some L -> cholesky_post A L.
Proof.
elim: n A L => [|n IH] A L.
  move=> _ _; split; rewrite ?flatmx0 //; first exact: mx0_is_trig.
  by case.
exact: cholesky_step.
Qed.

(** What a successful factorisation guarantees for the solve that uses it. *)
Lemma cho_solve_ok n k (A : 'M[F]_n) c (B : 'M[F]_(n, k)) :
  symmetric A -> cho_factor sqrtF A = Some c -> A *m cho_solve c B = B.
Proof.
move=> Asym; rewrite /cho_factor (eqP Asym).
case EL: (cholesky sqrtF A) => [L|] //= [<-].
have [Ltrig Lpos <-] := cholesky_ok Asym EL.
have Ldiag i : L i i != 0 by rewrite gt_eqF.
rewrite /cho_solve /= trmxK -mulmxA solve_upper_ok ?trmxK //.
  by move=> i; rewrite mxE.
exact: solve_lower_ok.
Qed.

(** A successful factorisation makes the solve the exact inverse. *)
Lemma cho_solve_inv n (A : 'M[F]_n) c :
  symmetric A -> cho_factor sqrtF A = Some c ->
  A \in unitmx /\ forall k (B : 'M[F]_(n, k)), cho_solve c B = invmx A *m B.
Proof.
move=> Asym Ec; have /mulmx1_unit [Au _] := cho_solve_ok 1%:M Asym Ec.
by split=> // k B; rewrite -[LHS](mulKmx Au) (cho_solve_ok _ Asym Ec).
Qed.

(** Diagonal matrices with exact roots factorise. *)
Lemma cholesky_diag_step n (v w : 'rV[F]_(1 + n)) :
  (forall v' w' : 'rV[F]_n,
     (forall i, sqrtF (v' ord0 i) = Some (w' ord0 i)) ->
     cholesky sqrtF (diag_mx v') = Some (diag_mx w')) ->
  (forall i, sqrtF (v ord0 i) = Some (w ord0 i)) ->
  cholesky sqrtF (diag_mx v) = Some (diag_mx w).
Proof.
move=> IH vw; rewrite -[v]hsubmxK -[w]hsubmxK !diag_mx_row choleskyS.
have -> : block_mx (diag_mx (lsubmx v)) 0 0 (diag_mx (rsubmx v)) ord0 ord0
          = v ord0 ord0.
  by rewrite -[ord0](@lshift0 n 0) block_mxEul !mxE eqxx lshift0.
rewrite vw block_mxKdl block_mxKdr scaler0 mul0mx subr0.
rewrite (IH _ (rsubmx w)); first by move=> i; rewrite !mxE.
by rewrite [diag_mx (lsubmx w)]mx11_scalar !mxE eqxx lshift0.
Qed.

Lemma cholesky_diag n (v w : 'rV[F]_n) :
  (forall i, sqrtF (v ord0 i) = Some (w ord0 i)) ->
  cholesky sqrtF (diag_mx v) = Some (diag_mx w).
Proof.
elim: n v w => [|n IH] v w; first by rewrite /= !flatmx0.
exact: cholesky_diag_step.
Qed.

Lemma cho_factor_diag n (v w : 'rV[F]_n) :
  (forall i, sqrtF (v ord0 i) = Some (w ord0 i)) ->
  cho_factor sqrtF (diag_mx v) = Some (diag_mx w, false).
Proof.
by move=> vw; rewrite /cho_factor tr_diag_mx (cholesky_diag vw) /= tr_diag_mx.
Qed.

Lemma cho_factor_scalar n (a l : F) :
  sqrtF a = Some l -> cho_factor sqrtF (a%:M : 'M[F]_n) = Some (l%:M, false).
Proof.
move=> al; rewrite -!diag_const_mx; apply: cho_factor_diag => i.
by rewrite !mxE.
Qed.

End LinalgFacts.

Section StoreFacts.

Variable F : realFieldType.
Variable sqrtF : F -> option F.
Hypothesis sqrtF_ok : sqrt_spec sqrtF.
Variable d : nat.

Lemma all_some_size T (s : seq (option T)) t :
  all_some s = Some t -> size t = size s.
Proof.
elim: s t => [|[x|] s IH] t //=; first by case=> <-.
by case E: (all_some s) => [t'|] //= [<-] /=; rewrite (IH _ E).
Qed.

Lemma all_some_nth T (x0 : T) (s : seq (option T)) t n :
  all_some s = Some t -> (n < size s)%N -> nth None s n = Some (nth x0 t n).
Proof.
elim: s t n => [|[x|] s IH] t n //=.
case E: (all_some s) => [t'|] //= [<-] /=.
by case: n => [|n] //=; rewrite ltnS; apply: IH.
Qed.

(** What [reparametrise] returns on symmetric input: at every index the
    linear system against [param2] is solved exactly. *)
Lemma reparametrise_ok (p1 : seq 'cV[F]_d) (p2 : seq 'M[F]_d) r1 r2 :
  all (@symmetric F d) p2 -> GaussianDistribution.reparametrise sqrtF p1 p2 = Some (r1, r2) ->
  [/\ size p1 = size p2, size r1 = size p2, size r2 = size p2 &
      forall n, (n < size p2)%N ->
        [/\ nth 0 p2 n \in unitmx,
            nth 0 r1 n = invmx (nth 0 p2 n) *m nth 0 p1 n &
            nth 0 r2 n = invmx (nth 0 p2 n)]].
Proof.
move=> p2sym; rewrite /GaussianDistribution.reparametrise; case: eqP => //= sz12.
case Ech: (all_some _) => [chol|] // [<- <-].
have szc : size chol = size p2 by rewrite (all_some_size Ech) size_map.
split=> //; rewrite ?size_map ?size_zip ?szc ?sz12 ?minnn // => n ltn.
have Asym : symmetric (nth 0 p2 n) by rewrite (all_nthP 0 p2sym).
have := all_some_nth (0, false) Ech; rewrite size_map => /(_ n ltn).
rewrite (nth_map 0) // => /(cho_solve_inv sqrtF_ok Asym) [Au Es].
split=> //.
  rewrite (nth_map ((0, false), 0)) ?size_zip ?szc ?sz12 ?minnn //.
  by rewrite nth_zip ?szc ?sz12 //= Es.
by rewrite (nth_map (0, false)) ?szc // Es mulmx1.
Qed.

(** The value of [reparametrise] where every factorisation succeeds. *)
Lemma reparametrise_val (p1 : seq 'cV[F]_d) (p2 : seq 'M[F]_d) :
  size p1 = size p2 -> all (@symmetric F d) p2 ->
  all (fun A => cho_factor sqrtF A : bool) p2 ->
  GaussianDistribution.reparametrise sqrtF p1 p2 =
  Some ([seq invmx Ab.1 *m Ab.2 | Ab <- zip p2 p1], [seq invmx A | A <- p2]).
Proof.
move=> sz12 p2sym p2ok.
have [chol Ech] : exists chol,
    all_some [seq cho_factor sqrtF A | A <- p2] = Some chol.
  elim: p2 p2ok {sz12 p2sym} => [|A p2 IH] /=; first by exists [::].
  case: (cho_factor sqrtF A) => [c|] //= /IH [chol ->].
  by exists (c :: chol).
case E: (GaussianDistribution.reparametrise sqrtF p1 p2) => [[r1 r2]|].
  have [_ sz1 sz2 vals] := reparametrise_ok p2sym E.
  congr (Some (_, _)); apply: (@eq_from_nth _ 0).
  - by rewrite sz1 size_map size_zip sz12 minnn.
  - move=> n; rewrite sz1 => ltn; have [_ -> _] := vals n ltn.
    rewrite (nth_map (0, 0)) ?size_zip ?sz12 ?minnn //.
    by rewrite nth_zip ?sz12.
  - by rewrite sz2 size_map.
  - move=> n; rewrite sz2 => ltn; have [_ _ ->] := vals n ltn.
    by rewrite (nth_map 0).
by move: E; rewrite /GaussianDistribution.reparametrise sz12 eqxx Ech.
Qed.

End StoreFacts.

Section RatFacts.

Lemma nat_root_sq (a : nat) : nat_root (a * a) = a.
Proof.
rewrite /nat_root; set P := fun k => _; set s := iota _ _.
have szs : size s = (a * a).+1 by rewrite size_iota.
have a_in : (a < size s)%N.
  by rewrite szs ltnS; case: a {P s szs} => // a; rewrite leq_pmulr.
have Pa : P a by rewrite /P.
have hasPs : has P s.
  by apply/hasP; exists a => //; rewrite mem_iota add0n /= -szs.
have := nth_find 0%N hasPs; have ltf := hasPs; rewrite has_find in ltf.
rewrite nth_iota -?szs // add0n {1}/P.
rewrite !mulnn leq_sqr => le_af; apply/eqP; rewrite eqn_leq le_af andbT.
rewrite leqNgt; apply/negP => lt_fa.
have := before_find 0%N lt_fa; rewrite nth_iota -?szs // add0n.
by rewrite Pa.
Qed.

Lemma rat_sqrt_ok : sqrt_spec rat_sqrt.
Proof.
move=> x r; rewrite /rat_sqrt; case: and3P => // [[x_gt0 /eqP dx /eqP rr]] [<-].
set k := nat_root _ in rr *.
have nx_gt0 : 0 < numq x by rewrite numq_gt0.
have k_neq0 : k != 0%N.
  apply/eqP => k0; move: rr; rewrite k0 => /esym/eqP.
  by rewrite absz_eq0 => /eqP nx0; rewrite nx0 in nx_gt0.
split; first by rewrite ltr0n lt0n.
rewrite -natrM rr pmulrn gtz0_abs // -[RHS]divq_num_den dx divr1 //.
Qed.

Lemma rat_sqrt_sq (a : nat) :
  (0 < a)%N -> rat_sqrt (a%:R * a%:R) = Some a%:R.
Proof.
move=> a_gt0; rewrite /rat_sqrt -natrM pmulrn numq_int denq_int eqxx /=.
by rewrite ltr0z nat_root_sq eqxx (ltz_nat 0) muln_gt0 a_gt0.
Qed.

End RatFacts.

(** * The claims *)

Section SiteStoreClaims.

Variable F : realFieldType.
Variable sqrtF : F -> option F.
Hypothesis sqrtF_ok : sqrt_spec sqrtF.
Variable d : nat.

Lemma reparametrise_consistent (p1 : seq 'cV[F]_d) (p2 : seq 'M[F]_d) r1 r2 :
  all (@symmetric F d) p2 ->
  GaussianDistribution.reparametrise sqrtF p1 p2 = Some (r1, r2) ->
  forall n, (n < size p2)%N ->
    [/\ nth 0 p2 n *m nth 0 r1 n = nth 0 p1 n,
        nth 0 p2 n *m nth 0 r2 n = 1%:M,
        nth 0 r2 n *m nth 0 p2 n = 1%:M &
        nth 0 r2 n *m nth 0 p1 n = nth 0 r1 n].
Proof.
move=> p2sym E n ltn; have [_ _ _ /(_ n ltn) [Au -> ->]] :=
  reparametrise_ok sqrtF_ok p2sym E.
by rewrite mulKVmx // mulmxV // mulVmx.
Qed.

End SiteStoreClaims.

Section TriangleFacts.

Variable F : realFieldType.
Variable sqrtF : F -> option F.

Lemma cholesky_lower_ext n (A B : 'M[F]_n) :
  (forall i j : 'I_n, (j <= i)%N -> A i j = B i j) ->
  cholesky sqrtF A = cholesky sqrtF B.
Proof.
elim: n A B => [|n IH] //; rewrite -[n.+1]/(1 + n)%N => A B AB.
rewrite !choleskyS (AB ord0 ord0) //.
have -> : dlsubmx A = dlsubmx B.
  by apply/matrixP => i j; rewrite !mxE; apply: AB; rewrite ord1.
case: (sqrtF _) => [l|] //; set c := _ *: _.
rewrite (IH _ (drsubmx B - c *m c^T)) // => i j leji.
rewrite [LHS]mxE [RHS]mxE; congr (_ + _).
by rewrite /drsubmx /rsubmx /dsubmx !mxE; apply: AB; rewrite /= leq_add2l.
Qed.

Lemma upper_symmetrised_sym n (A : 'M[F]_n) : symmetric (upper_symmetrised A).
Proof.
apply/eqP/matrixP => i j; rewrite !mxE.
by case: ltngtP => // /val_inj ->.
Qed.

Lemma upper_symmetrised_id n (A : 'M[F]_n) :
  symmetric A -> upper_symmetrised A = A.
Proof.
move/eqP => As; apply/matrixP => i j; rewrite mxE; case: leqP => // _.
by rewrite -[in RHS]As mxE.
Qed.

Lemma cho_factor_upper n (A : 'M[F]_n) :
  cho_factor sqrtF A = cho_factor sqrtF (upper_symmetrised A).
Proof.
rewrite /cho_factor; congr omap; apply: cholesky_lower_ext => i j leji.
by rewrite !mxE leji.
Qed.

Lemma reparametrise_upper d (p1 : seq 'cV[F]_d) (p2 : seq 'M[F]_d) :
  GaussianDistribution.reparametrise sqrtF p1 p2
  = GaussianDistribution.reparametrise sqrtF p1
      [seq upper_symmetrised A | A <- p2].
Proof.
rewrite /GaussianDistribution.reparametrise size_map -map_comp.
have -> // : [seq (cho_factor sqrtF (n:=d) \o @upper_symmetrised F d) A
              | A <- p2] = [seq cho_factor sqrtF A | A <- p2].
by apply: eq_map => A /=; rewrite -cho_factor_upper.
Qed.

Hypothesis sqrtF_ok : sqrt_spec sqrtF.

Lemma reparametrise_upper_ok d (p1 : seq 'cV[F]_d) (p2 : seq 'M[F]_d) r1 r2 :
  GaussianDistribution.reparametrise sqrtF p1 p2 = Some (r1, r2) ->
  [/\ size p1 = size p2, size r1 = size p2, size r2 = size p2 &
      forall n, (n < size p2)%N ->
        let S := upper_symmetrised (nth 0 p2 n) in
        [/\ S \in unitmx, nth 0 r1 n = invmx S *m nth 0 p1 n &
            nth 0 r2 n = invmx S]].
Proof.
rewrite reparametrise_upper => E.
have sym : all (@symmetric F d) [seq upper_symmetrised A | A <- p2].
  by apply/allP => ? /mapP [A _ ->]; apply: upper_symmetrised_sym.
have [s1 s2 s3 vals] := reparametrise_ok sqrtF_ok sym E.
rewrite size_map in s1 s2 s3 vals; split=> // n ltn.
by have := vals n ltn; rewrite (nth_map 0).
Qed.

Lemma cholesky_1 n : sqrtF 1 = Some 1 -> cholesky sqrtF (1%:M : 'M[F]_n) = Some 1%:M.
Proof.
move=> sq1; elim: n => [|n IH]; first by rewrite /= [1%:M]flatmx0.
rewrite choleskyS mxE eqxx sq1 (@scalar_mx_block _ 1 n) block_mxKdl block_mxKdr.
by rewrite scaler0 mul0mx subr0 IH.
Qed.

End TriangleFacts.

(** C1 (amended).  After a successful [update_mean_cov(mean, covariance)]
    with symmetric covariances, or [update_nat_params(nat1, nat2)] with
    symmetric precisions, the store holds, at every site [n],
    [covariance_n @ nat1_n = mean_n] and [covariance_n @ nat2_n = I], and the
    four arrays have the same length; the equalities are those of exact
    arithmetic.  Whatever the second argument, the factorisation reads its
    upper triangle only, and the two derived arrays are the exact solutions
    against the symmetric matrix [S_n] with that triangle:
    [S_n @ derived2_n = I] and [S_n @ derived1_n = first_n]. *)
Theorem dual_consistency_after_update (F : realFieldType)
    (sqrtF : F -> option F) (d : nat) :
  sqrt_spec sqrtF ->
  [/\ forall self mean covariance g,
        all (@symmetric F d) covariance ->
        GaussianDistribution.update_mean_cov sqrtF self mean covariance
          = Some g ->
        GaussianDistribution.dual_consistent g,
      forall self nat1 nat2 g,
        all (@symmetric F d) nat2 ->
        GaussianDistribution.update_nat_params sqrtF self nat1 nat2 = Some g ->
        GaussianDistribution.dual_consistent g,
      forall self mean (covariance : seq 'M[F]_d) g,
        GaussianDistribution.update_mean_cov sqrtF self mean covariance
          = Some g ->
        forall n, (n < size covariance)%N ->
          let S := upper_symmetrised (nth 0 covariance n) in
          S *m nth 0 (GaussianDistribution.nat2 g) n = 1%:M /\
          S *m nth 0 (GaussianDistribution.nat1 g) n = nth 0 mean n &
      forall self nat1 (nat2 : seq 'M[F]_d) g,
        GaussianDistribution.update_nat_params sqrtF self nat1 nat2 = Some g ->
        forall n, (n < size nat2)%N ->
          let S := upper_symmetrised (nth 0 nat2 n) in
          S *m nth 0 (GaussianDistribution.covariance g) n = 1%:M /\
          S *m nth 0 (GaussianDistribution.mean g) n = nth 0 nat1 n].
Proof.
move=> sqrtF_ok; split=> [self m c g csym|self n1 n2 g nsym|self m c g|self n1 n2 g].
- rewrite /GaussianDistribution.update_mean_cov.
  case E: (GaussianDistribution.reparametrise _ _ _) => [[r1 r2]|] // [<-].
  have [sz1 sz2 sz3 _] := reparametrise_ok sqrtF_ok csym E.
  split; rewrite /= ?sz2 ?sz3 ?sz1 // => n ltn.
  by have [] := reparametrise_consistent sqrtF_ok csym E ltn.
- rewrite /GaussianDistribution.update_nat_params.
  case E: (GaussianDistribution.reparametrise _ _ _) => [[r1 r2]|] // [<-].
  have [sz1 sz2 sz3 _] := reparametrise_ok sqrtF_ok nsym E.
  split; rewrite /= ?sz3 ?sz2 ?sz1 // => n ltn.
  by have [_ _] := reparametrise_consistent sqrtF_ok nsym E ltn.
- rewrite /GaussianDistribution.update_mean_cov.
  case E: (GaussianDistribution.reparametrise _ _ _) => [[r1 r2]|] // [<-].
  have [_ _ _ vals] := reparametrise_upper_ok sqrtF_ok E.
  by move=> n /vals /= [Su -> ->]; rewrite mulmxV // mulKVmx.
rewrite /GaussianDistribution.update_nat_params.
case E: (GaussianDistribution.reparametrise _ _ _) => [[r1 r2]|] // [<-].
have [_ _ _ vals] := reparametrise_upper_ok sqrtF_ok E.
by move=> n /vals /= [Su -> ->]; rewrite mulmxV // mulKVmx.
Qed.

Lemma rat_sqrt_1 : rat_sqrt 1 = Some 1.
Proof. by rewrite -(rat_sqrt_sq (a := 1)) // mulr1. Qed.

Lemma rat_sqrt_4 : rat_sqrt 4 = Some 2.
Proof. by rewrite -(rat_sqrt_sq (a := 2)) // -natrM. Qed.

Lemma update_some_rat (m : 'cV[rat]_1) :
  GaussianDistribution.reparametrise rat_sqrt [:: m] [:: 4%:M] =
  Some ([:: invmx 4%:M *m m], [:: invmx 4%:M]).
Proof.
rewrite reparametrise_val //=; first exact: rat_sqrt_ok.
  by rewrite /symmetric tr_scalar_mx eqxx.
by rewrite (cho_factor_scalar _ rat_sqrt_4).
Qed.

Lemma dual_consistency_after_update_witness :
  let m : 'cV[rat]_1 := const_mx 3 in
  let g0 : GaussianDistribution.t rat 1 :=
    GaussianDistribution.mk [::] [::] [::] [::] in
  GaussianDistribution.dual_consistent
    (GaussianDistribution.mk [:: m] [:: 4%:M]
       [:: invmx 4%:M *m m] [:: invmx 4%:M]) /\
  GaussianDistribution.dual_consistent
    (GaussianDistribution.mk [:: invmx 4%:M *m m] [:: invmx 4%:M]
       [:: m] [:: 4%:M]).
Proof.
move=> m g0.
have sym4 : all (@symmetric rat 1) [:: 4%:M].
  by rewrite /= /symmetric tr_scalar_mx eqxx.
have [H1 H2 _ _] := dual_consistency_after_update 1 rat_sqrt_ok.
split.
  apply: (H1 g0 [:: m] [:: 4%:M] _ sym4).
  by rewrite /GaussianDistribution.update_mean_cov update_some_rat.
apply: (H2 g0 [:: m] [:: 4%:M] _ sym4).
by rewrite /GaussianDistribution.update_nat_params update_some_rat.
Defined.

Lemma upper_symmetrised_lower_ones : upper_symmetrised toy_lower_ones = 1%:M.
Proof.
apply/matrixP => i j; rewrite !mxE -val_eqE.
by case: ltngtP.
Qed.

(** C1 as stated fails for an argument that is not symmetric:
    [update_mean_cov] succeeds on the covariance [[1, 0], [1, 1]], of which
    only the upper triangle is read, and stores it next to [nat2 = I]. *)
Lemma nonsymmetric_update_inconsistent :
  exists g,
    GaussianDistribution.update_mean_cov rat_sqrt
      (GaussianDistribution.mk [::] [::] [::] [::]) [:: 0] [:: toy_lower_ones]
      = Some g /\
    nth 0 (GaussianDistribution.covariance g) 0
      *m nth 0 (GaussianDistribution.nat2 g) 0 != 1%:M.
Proof.
have E : GaussianDistribution.reparametrise rat_sqrt
           [:: 0 : 'cV[rat]_2] [:: toy_lower_ones]
         = Some ([:: invmx 1%:M *m 0], [:: invmx 1%:M]).
  rewrite reparametrise_upper [map _ _]/= upper_symmetrised_lower_ones.
  rewrite (@reparametrise_val _ _ rat_sqrt_ok 2 [:: 0] [:: 1%:M]) //.
    by rewrite all_seq1 /symmetric trmx1.
  by rewrite all_seq1 /cho_factor trmx1 (cholesky_1 _ rat_sqrt_1).
rewrite /GaussianDistribution.update_mean_cov E; eexists; split; first by [].
rewrite [nth _ _ _]/= [nth 0 _ 0]/= invmx1 mulmx1.
apply/eqP => /matrixP /(_ ord_max ord0).
by rewrite !mxE.
Qed.

Section GroupingFacts.

Variable F : realFieldType.

Lemma scan_carry C A B (f : C -> A -> C * B) init xs :
  (scan f init xs).1 = foldl (fun c x => (f c x).1) init xs.
Proof.
elim: xs init => [|x xs IH] init //=.
by case: (f init x) => c y /=; rewrite -IH; case: (scan f c xs).
Qed.

Lemma size_index_add (V : nmodType) (a : seq V) i v :
  size (index_add a i v) = size a.
Proof.
rewrite /index_add; case: ifP => // lti.
by rewrite size_set_nth; apply/maxn_idPr.
Qed.

Lemma nth_index_add (V : nmodType) (a : seq V) i v k :
  (k < size a)%N ->
  nth 0 (index_add a i v) k = nth 0 a k + (if i == k then v else 0).
Proof.
move=> ltk; rewrite /index_add; case: ifP => [lti|gei].
  by rewrite nth_set_nth /= eq_sym; case: eqP => [->|_] //; rewrite addr0.
by case: eqP => [ik|_]; rewrite ?addr0 //; rewrite ik ltk in gei.
Qed.

Variable n : nat.

Notation step := (@SparseMarkovGP.sum_natural_params_by_group F n).

Lemma grouping_fold xs (a1 : seq 'cV[F]_(2 * n)) (a2 : seq 'M[F]_(2 * n))
    (cnt : seq F) b1 b2 c :
  size a2 = size a1 -> size cnt = size a1 ->
  foldl (fun c x => (step c x).1) (a1, a2, cnt) xs = (b1, b2, c) ->
  [/\ size b1 = size a1, size b2 = size a1, size c = size a1 &
      forall k, (k < size a1)%N ->
        [/\ nth 0 b1 k = nth 0 a1 k + \sum_(x <- xs | x.1.1 == k) x.1.2,
            nth 0 b2 k = nth 0 a2 k + \sum_(x <- xs | x.1.1 == k) x.2 &
            nth 0 c k = nth 0 cnt k + (count (fun x => x.1.1 == k) xs)%:R]].
Proof.
elim: xs a1 a2 cnt => [|[[i v1] v2] xs IH] a1 a2 cnt sz2 szc /=.
  case=> <- <- <-; split=> // k _.
  by rewrite !big_nil !addr0.
move/IH; rewrite !size_index_add => /(_ sz2 szc) [-> -> -> vals].
split=> // k ltk; have [-> -> ->] := vals k ltk.
rewrite !nth_index_add ?sz2 ?szc // !big_cons /=.
by case: eqP => _; rewrite -?addrA ?add0r // natrD.
Qed.

End GroupingFacts.

Section GroupingClaim.

Variable F : realFieldType.
Variables (sd q e : nat) (independent : bool).

Lemma sum_zip_members (W : nmodType) (V T : Type) (a0 : V) (b0 : T)
    (ind : seq nat) (a : seq V) (b : seq T) (k : nat)
    (f : nat * V * T -> W) (g : nat -> W) :
  size a = size ind -> size b = size ind ->
  (forall j, (j < size ind)%N ->
     f (nth 0%N ind j, nth a0 a j, nth b0 b j) = g j) ->
  \sum_(x <- zip (zip ind a) b | x.1.1 == k) f x =
  \sum_(j < size ind | nth 0%N ind j == k) g j.
Proof.
move=> sza szb fg.
rewrite (big_nth (0%N, a0, b0)) !size_zip sza szb !minnn big_mkord.
apply: eq_big => [j|j _]; rewrite !nth_zip ?size_zip ?sza ?szb ?minnn //=.
exact: fg.
Qed.

Lemma count_zip_members (V T : Type) (ind : seq nat) (a : seq V) (b : seq T)
    (k : nat) :
  size a = size ind -> size b = size ind ->
  count (fun x : nat * V * T => x.1.1 == k) (zip (zip ind a) b) =
  count_mem k ind.
Proof.
move=> sza szb.
have {2}<- : [seq x.1.1 | x <- zip (zip ind a) b] = ind.
  rewrite (map_comp fst fst).
  have -> : [seq i.1 | i <- zip (zip ind a) b] = zip ind a.
    by apply: (@unzip1_zip _ _ (zip ind a) b); rewrite size_zip sza szb minnn.
  by apply: (@unzip1_zip _ _ ind a); rewrite sza.
by rewrite count_map.
Qed.

End GroupingClaim.

(** What [group_natural_params] returns, when it returns. *)
Lemma group_natural_params_val (F : realFieldType) (sd q e : nat) (independent : bool)
    (self : SparseMarkovGP.t F sd q e independent)
    nat1_n nat2_n batch_ind nat1 nat2 :
  SparseMarkovGP.group_natural_params self nat1_n nat2_n batch_ind
    = Some (nat1, nat2) ->
  let ind := SparseMarkovGP.batch_intervals self batch_ind in
  let site := SparseMarkovGP.pseudo_likelihood self in
  let old_nat1 := GaussianDistribution.nat1 site in
  let old_nat2 := GaussianDistribution.nat2 site in
  [/\ size nat1 = size old_nat1, size nat2 = size old_nat1 &
      forall k, (k < size old_nat1)%N ->
        let c_k : F := (count_mem k ind)%:R in
        let N_k := Num.max (nth 0 (SparseMarkovGP.num_neighbours self) k) 1 in
        nth 0 nat1 k =
          \sum_(j < size ind | nth 0%N ind j == k) nth 0 nat1_n j
          + (1 - c_k / N_k) *: nth 0 old_nat1 k /\
        nth 0 nat2 k =
          \sum_(j < size ind | nth 0%N ind j == k) nth 0 nat2_n j
          + (1 - c_k / N_k) *: nth 0 old_nat2 k
          + (10 ^- 8) *: 1%:M].
Proof.
move=> E ind site old1 old2; move: E.
rewrite /SparseMarkovGP.group_natural_params -/ind -/site -/old1 -/old2.
case: and4P => // [[/eqP sz1 /eqP sz2 /eqP szo /eqP szn]].
set xs := zip _ _; set init := (_, _, _).
case Esc: (scan _ init xs) => [[[new1 new2] counter] ys] [<- <-].
have := scan_carry (@SparseMarkovGP.sum_natural_params_by_group F sd) init xs.
rewrite Esc /= => /esym /grouping_fold; rewrite !size_map size_nseq.
case=> // szn1 szn2 szc vals.
split; rewrite ?size_map ?size_iota // => k ltk.
have [E1 E2 Ec] := vals k ltk.
have Enn : nth 0 [seq Num.max x 1 | x <- SparseMarkovGP.num_neighbours self] k
           = Num.max (nth 0 (SparseMarkovGP.num_neighbours self) k) 1.
  by rewrite (nth_map 0) ?szn.
have Ez1 : nth 0 [seq (0 : 'cV[F]_(2 * sd)) | _ <- old1] k = 0.
  by rewrite (nth_map 0) ?szo.
have Ez2 : nth 0 [seq (0 : 'M[F]_(2 * sd)) | _ <- old2] k = 0.
  by rewrite (nth_map 0) ?szo.
rewrite (count_zip_members k sz1 sz2) nth_nseq ltk add0r in Ec.
rewrite (sum_zip_members (a0 := 0) (b0 := 0)
           (g := fun j => nth 0 nat1_n j) k sz1 sz2) // Ez1 add0r in E1.
rewrite (sum_zip_members (a0 := 0) (b0 := 0)
           (g := fun j => nth 0 nat2_n j) k sz1 sz2) // Ez2 add0r in E2.
split.
  by rewrite (nth_map 0%N) ?size_iota // nth_iota // add0n Enn E1 Ec.
rewrite (nth_map 0) ?size_map ?size_iota //.
by rewrite (nth_map 0%N) ?size_iota // nth_iota // add0n Enn E2 Ec.
Qed.

(** The call returns when the scanned arrays and the stored arrays have the
    lengths they are meant to have. *)
Lemma group_natural_params_returns (F : realFieldType) (sd q e : nat)
    (independent : bool) (self : SparseMarkovGP.t F sd q e independent)
    nat1_n nat2_n batch_ind :
  let ind := SparseMarkovGP.batch_intervals self batch_ind in
  let site := SparseMarkovGP.pseudo_likelihood self in
  size nat1_n = size ind -> size nat2_n = size ind ->
  size (GaussianDistribution.nat2 site) = size (GaussianDistribution.nat1 site) ->
  size (SparseMarkovGP.num_neighbours self)
    = size (GaussianDistribution.nat1 site) ->
  exists r,
    SparseMarkovGP.group_natural_params self nat1_n nat2_n batch_ind = Some r.
Proof.
move=> ind site sz1 sz2 szo szn; rewrite /SparseMarkovGP.group_natural_params.
rewrite -/ind -/site sz1 sz2 szo szn !eqxx /=.
by case: (scan _ _ _) => [[[new1 new2] counter] ys]; eexists.
Qed.

(** C2.  [SparseMarkovGP.group_natural_params(nat1_n, nat2_n, batch_ind)],
    called with one contribution per data point of the update on a store
    whose arrays have one length.  The data points of the update are those
    listed in [batch_ind] (all of them without [batch_ind]), and data point
    [batch_ind[j]] lies in the interval [self.ind[batch_ind[j]]].  The call
    returns for every inducing interval [k] the sum of the contributions of
    the data points of the update that lie in [k], plus [(1 - c_k / N_k)] times the stored naturals, where [c_k] counts
    those data points and [N_k = max(num_neighbours_k, 1)]; the returned
    [nat2] has [1e-8 * I] added on top. *)
Theorem grouping_rule (F : realFieldType) (sd q e : nat) (independent : bool)
    (self : SparseMarkovGP.t F sd q e independent)
    nat1_n nat2_n batch_ind :
  let ind := if batch_ind is Some batch_ind
             then gather 0%N (SparseMarkovGP.ind self) batch_ind
             else SparseMarkovGP.ind self in
  let site := SparseMarkovGP.pseudo_likelihood self in
  let old_nat1 := GaussianDistribution.nat1 site in
  let old_nat2 := GaussianDistribution.nat2 site in
  size nat1_n = size ind -> size nat2_n = size ind ->
  size old_nat2 = size old_nat1 ->
  size (SparseMarkovGP.num_neighbours self) = size old_nat1 ->
  exists nat1 nat2,
    SparseMarkovGP.group_natural_params self nat1_n nat2_n batch_ind
      = Some (nat1, nat2) /\
    [/\ size nat1 = size old_nat1, size nat2 = size old_nat1 &
        forall k, (k < size old_nat1)%N ->
          let c_k : F := (count_mem k ind)%:R in
          let N_k :=
            Num.max (nth 0 (SparseMarkovGP.num_neighbours self) k) 1 in
          nth 0 nat1 k =
            \sum_(j < size ind | nth 0%N ind j == k) nth 0 nat1_n j
            + (1 - c_k / N_k) *: nth 0 old_nat1 k /\
          nth 0 nat2 k =
            \sum_(j < size ind | nth 0%N ind j == k) nth 0 nat2_n j
            + (1 - c_k / N_k) *: nth 0 old_nat2 k
            + (10 ^- 8) *: 1%:M].
Proof.
move=> ind site old1 old2 sz1 sz2 szo szn.
have [[nat1 nat2] E] := group_natural_params_returns sz1 sz2 szo szn.
by exists nat1, nat2; split=> //; apply: group_natural_params_val E.
Qed.

Lemma grouping_rule_witness :
  exists nat1 nat2,
    SparseMarkovGP.group_natural_params toy_sparse
      [:: const_mx 3; const_mx 4] [:: 3%:M; 4%:M] (Some [:: 2; 0]%N)
      = Some (nat1, nat2) /\
    nth 0 nat1 0 = const_mx 4 + (1 - 1 / 2) *: const_mx 1 /\
    nth 0 nat1 1 = const_mx 3 + (1 - 1 / 1) *: const_mx 2.
Proof.
have [nat1 [nat2 [E [_ _ vals]]]] :=
  @grouping_rule _ _ _ _ _ toy_sparse
    [:: const_mx 3; const_mx 4] [:: 3%:M; 4%:M] (Some [:: 2; 0]%N)
    (erefl _) (erefl _) (erefl _) (erefl _).
exists nat1, nat2; split=> //.
have [-> _] := vals 0%N isT; have [-> _] := vals 1%N isT.
split; rewrite big_mkcond !big_ord_recl big_ord0 /= ?addr0 ?add0r.
  by rewrite max_l ?ler1n.
by rewrite maxxx.
Defined.

Section DiagonalFacts.

Variable F : realFieldType.

Lemma diag_mx_inv n (v : 'rV[F]_n) :
  (forall i, v ord0 i != 0) ->
  diag_mx v \in unitmx /\ invmx (diag_mx v) = diag_mx (map_mx GRing.inv v).
Proof.
move=> vn0.
have E : diag_mx v *m diag_mx (map_mx GRing.inv v) = 1%:M.
  rewrite mulmx_diag -diag_const_mx; congr diag_mx.
  by apply/rowP => i; rewrite !mxE divff.
have [vu _] := mulmx1_unit E; split=> //.
by rewrite -[RHS](mulKmx vu) E mulmx1.
Qed.

Lemma inv_diag (jit : F) n (v : 'rV[F]_n) :
  (forall i, v ord0 i + jit != 0) ->
  inv jit (diag_mx v) =
  Some (diag_mx (\row_i (v ord0 i + jit)^-1)).
Proof.
move=> vn0; rewrite /inv.
have -> : diag_mx v + jit%:M = diag_mx (\row_i (v ord0 i + jit)).
  rewrite -diag_const_mx -linearD /=; congr diag_mx.
  by apply/rowP => i; rewrite !mxE.
have [|-> ->] := @diag_mx_inv n (\row_i (v ord0 i + jit)).
  by move=> i; rewrite mxE.
by congr (Some (diag_mx _)); apply/rowP => i; rewrite !mxE.
Qed.

Variable sd : nat.

Lemma size_init_nat2 K : size (SparseMarkovGP.init_nat2 F sd K) = K.
Proof.
by rewrite /SparseMarkovGP.init_nat2 /index_update_entry !size_map size_iota
           size_nseq.
Qed.

Lemma nth_init_nat2 K k :
  (k < K)%N ->
  nth 0 (SparseMarkovGP.init_nat2 F sd K) k =
  diag_mx (SparseMarkovGP.init_precision_diag F sd K k).
Proof.
move=> ltk; rewrite /SparseMarkovGP.init_nat2 /index_update_entry.
rewrite size_map size_nseq (nth_map 0%N) ?size_iota // nth_iota // add0n.
rewrite (nth_map 0) ?size_nseq // nth_nseq ltk mem_iota add0n /=.
apply/matrixP => i j; rewrite /SparseMarkovGP.init_precision_diag.
case: (k < K.-1)%N; rewrite !mxE ?andbT ?andbF; last first.
  by case: (i == j); rewrite ?mulr1n ?mulr0n ?mulr1 ?mulr0.
case: (eqVneq i j) => [->|neq_ij]; rewrite ?mulr1n ?mulr0n ?andbb ?mulr1 //.
have -> : (i == sd :> nat) && (j == sd :> nat) = false.
  apply/negP => /andP [/eqP isd /eqP jsd]; case/negP: neq_ij.
  by apply/eqP/val_inj; rewrite /= isd jsd.
by rewrite mulr0.
Qed.

End DiagonalFacts.

Section ConstructionFacts.

Variable F : realFieldType.
Variable sqrtF : F -> option F.
Hypothesis sqrtF_ok : sqrt_spec sqrtF.

Lemma GaussianDistribution_init_fields d (m : seq 'cV[F]_d) c g :
  GaussianDistribution.init sqrtF m c = Some g ->
  [/\ GaussianDistribution.mean g = m, GaussianDistribution.covariance g = c &
      GaussianDistribution.reparametrise sqrtF m c =
      Some (GaussianDistribution.nat1 g, GaussianDistribution.nat2 g)].
Proof.
rewrite /GaussianDistribution.init.
by case: (GaussianDistribution.reparametrise _ _ _) => [[r1 r2]|] // [<-].
Qed.

Lemma BaseModel_init_fields e q independent X Y
    (b : BaseModel.t F e q (BaseModel.pseudo_lik_size e q independent)) :
  BaseModel.init sqrtF q independent X Y = Some b ->
  let site := BaseModel.pseudo_likelihood b in
  [/\ GaussianDistribution.mean site = nseq (size X) 0,
      GaussianDistribution.covariance site = nseq (size X) (10 ^+ 2 *: 1%:M),
      BaseModel.posterior_mean b = nseq (size X) 0,
      BaseModel.posterior_variance b = nseq (size X) 1%:M &
      BaseModel.X b = X].
Proof.
rewrite /BaseModel.init.
case E: (GaussianDistribution.init _ _ _) => [site|] // [<-] /=.
by have [-> ->] := GaussianDistribution_init_fields E.
Qed.

Lemma size_augment (Z : seq F) :
  size (SparseMarkovGP.augment Z) = (size Z).+2.
Proof. by rewrite /SparseMarkovGP.augment /= size_cat size_sort addn1. Qed.

Lemma size_np_diff (a : seq F) : size (np_diff a) = (size a).-1.
Proof. by rewrite /np_diff size_map size_iota. Qed.

Lemma nth_np_diff (a : seq F) k :
  (k < (size a).-1)%N -> nth 0 (np_diff a) k = nth 0 a k.+1 - nth 0 a k.
Proof.
by move=> ltk; rewrite /np_diff (nth_map 0%N) ?size_iota // nth_iota.
Qed.

Lemma inv_vmap_nth (jit : F) n (P V : seq 'M[F]_n) :
  inv_vmap jit P = Some V ->
  size V = size P /\
  forall k, (k < size P)%N ->
    nth 0 P k + jit%:M \in unitmx /\
    nth 0 V k = invmx (nth 0 P k + jit%:M).
Proof.
rewrite /inv_vmap => E; have szV := all_some_size E.
rewrite size_map in szV; split=> // k ltk.
have := all_some_nth 0 E; rewrite size_map => /(_ k ltk).
by rewrite (nth_map 0) // /inv; case: ifP => // Au [<-].
Qed.

End ConstructionFacts.

Section SparseMarkovConstruction.

Variable F : realFieldType.
Variable sqrtF : F -> option F.
Hypothesis sqrtF_ok : sqrt_spec sqrtF.
Variables (sd q e : nat) (independent : bool).
Variable inv_jitter : F.
Variable input_admin :
  seq (input F) -> seq 'rV[option F]_e -> option (seq (seq (option F))) ->
  seq (input F) * seq 'rV[option F]_e * seq (seq (option F)) * seq F.
Variable on_gpu : bool.
Variable set_z_stats : seq (input F) -> seq F -> seq nat * seq F.

Notation init :=
  (SparseMarkovGP.init sqrtF sd q independent inv_jitter input_admin on_gpu
     set_z_stats).

Lemma SparseMarkovGP_init_fields X Y Z R parallel self :
  init X Y Z R parallel = Some self ->
  let K := (size Z).+1 in
  let site := SparseMarkovGP.pseudo_likelihood self in
  [/\ SparseMarkovGP.Z self = SparseMarkovGP.augment Z,
      SparseMarkovGP.dz self = np_diff (SparseMarkovGP.augment Z),
      SparseMarkovGP.num_transitions self = K &
      SparseMarkovGP.conditional_mean self = None] /\
  [/\ SparseMarkovGP.posterior_mean self = nseq K 0,
      SparseMarkovGP.posterior_variance self = nseq K 1%:M,
      GaussianDistribution.mean site = nseq K 0,
      inv_vmap inv_jitter (SparseMarkovGP.init_nat2 F sd K)
        = Some (GaussianDistribution.covariance site) &
      GaussianDistribution.reparametrise sqrtF (nseq K 0)
        (GaussianDistribution.covariance site)
        = Some (GaussianDistribution.nat1 site,
                GaussianDistribution.nat2 site)].
Proof.
rewrite /SparseMarkovGP.init.
case: (MarkovGP.init _ _ _ _ _ _ _ _ _ _) => [markov|] //.
rewrite size_np_diff size_augment /=.
case Ecov: (inv_vmap _ _) => [cov|] //.
case Esite: (GaussianDistribution.init _ _ _) => [site|] //.
case: (set_z_stats _ _) => ind nn [<-] /=.
by have [-> -> ->] := GaussianDistribution_init_fields Esite.
Qed.

(** The stored covariance and precision of every site, for a utility
    inverse that adds a non-negative jitter. *)
Lemma SparseMarkovGP_init_sites X Y Z R parallel self :
  0 <= inv_jitter ->
  init X Y Z R parallel = Some self ->
  let K := (size Z).+1 in
  let site := SparseMarkovGP.pseudo_likelihood self in
  let D k := SparseMarkovGP.init_precision_diag F sd K k in
  [/\ size (GaussianDistribution.covariance site) = K,
      size (GaussianDistribution.nat2 site) = K &
      forall k, (k < K)%N ->
        nth 0 (GaussianDistribution.covariance site) k
          = diag_mx (\row_i (D k ord0 i + inv_jitter)^-1) /\
        nth 0 (GaussianDistribution.nat2 site) k
          = diag_mx (\row_i (D k ord0 i + inv_jitter))].
Proof.
move=> jit_ge0 /SparseMarkovGP_init_fields [_ [_ _ _ Ecov Erep]] K site D.
have [szc vals] := inv_vmap_nth Ecov; rewrite size_init_nat2 in szc vals.
have Dpos k i : 0 < D k ord0 i + inv_jitter.
  rewrite /D /SparseMarkovGP.init_precision_diag mxE.
  by apply: ltr_wpDr => //; case: ifP => _; rewrite ?exprn_gt0 ?invr_gt0 ?exprn_gt0.
have cov_k k : (k < K)%N ->
    nth 0 (GaussianDistribution.covariance site) k
      = diag_mx (\row_i (D k ord0 i + inv_jitter)^-1).
  move=> ltk; have [_ ->] := vals k ltk; rewrite nth_init_nat2 //.
  have := @inv_diag F inv_jitter _ (D k); rewrite /inv.
  by case: ifP => // _ /(_ (fun i => lt0r_neq0 (Dpos k i))) [].
have csym : all (@symmetric F (2 * sd)) (GaussianDistribution.covariance site).
  apply/(all_nthP 0) => k; rewrite szc => ltk.
  by rewrite cov_k // /symmetric tr_diag_mx.
have [_ _ sz2 nats] := reparametrise_ok sqrtF_ok csym Erep.
split; rewrite ?sz2 // => k ltk; split; first exact: cov_k.
have [|_ _ ->] := nats k; first by rewrite szc.
rewrite cov_k //.
have [|_ ->] := @diag_mx_inv F _ (\row_i (D k ord0 i + inv_jitter)^-1).
  by move=> i; rewrite mxE invr_eq0 lt0r_neq0.
by congr diag_mx; apply/rowP => i; rewrite !mxE invrK.
Qed.

End SparseMarkovConstruction.

Section ConstructionSucceeds.

Variable F : realFieldType.
Variable sqrtF : F -> option F.
Hypothesis sqrtF_ok : sqrt_spec sqrtF.

Lemma all_some_map T U (x0 : T) (f : T -> option U) (g : T -> U) (s : seq T) :
  (forall k, (k < size s)%N -> f (nth x0 s k) = Some (g (nth x0 s k))) ->
  all_some [seq f x | x <- s] = Some [seq g x | x <- s].
Proof.
elim: s => [|x s IH] //= fg.
by rewrite (fg 0%N) // IH // => k ltk; apply: (fg k.+1).
Qed.

Variables (sd q e : nat) (independent : bool).
Variable inv_jitter : F.
Variable input_admin :
  seq (input F) -> seq 'rV[option F]_e -> option (seq (seq (option F))) ->
  seq (input F) * seq 'rV[option F]_e * seq (seq (option F)) * seq F.
Variable on_gpu : bool.
Variable set_z_stats : seq (input F) -> seq F -> seq nat * seq F.

Lemma SparseMarkovGP_init_succeeds X Y Z R parallel markov r2 r8 :
  MarkovGP.init sqrtF sd q independent input_admin on_gpu X Y R parallel
    = Some markov ->
  0 <= inv_jitter ->
  sqrtF (10 ^- 2 + inv_jitter)^-1 = Some r2 ->
  sqrtF (10 ^- 8 + inv_jitter)^-1 = Some r8 ->
  exists self,
    SparseMarkovGP.init sqrtF sd q independent inv_jitter input_admin on_gpu
      set_z_stats X Y Z R parallel = Some self.
Proof.
move=> Em jit_ge0 E2 E8; rewrite /SparseMarkovGP.init Em.
rewrite size_np_diff size_augment /=; set K := (size Z).+1.
pose D k := SparseMarkovGP.init_precision_diag F sd K k.
have Dpos k i : 0 < D k ord0 i + inv_jitter.
  rewrite /D /SparseMarkovGP.init_precision_diag mxE.
  by apply: ltr_wpDr => //; case: ifP => _;
     rewrite ?exprn_gt0 ?invr_gt0 ?exprn_gt0.
have Einv k : (k < K)%N ->
    inv inv_jitter (nth 0 (SparseMarkovGP.init_nat2 F sd K) k)
      = Some (diag_mx (\row_i (D k ord0 i + inv_jitter)^-1)).
  move=> ltk; rewrite nth_init_nat2 //; apply: inv_diag => i.
  exact: lt0r_neq0.
pose cov := [seq invmx (A + inv_jitter%:M)
            | A <- SparseMarkovGP.init_nat2 F sd K].
have -> : inv_vmap inv_jitter (SparseMarkovGP.init_nat2 F sd K) = Some cov.
  apply: (@all_some_map _ _ 0) => k; rewrite size_init_nat2 => ltk.
  by have := Einv k ltk; rewrite /inv; case: ifP.
have szcov : size cov = K by rewrite size_map size_init_nat2.
have nth_cov k : (k < K)%N ->
    nth 0 cov k = diag_mx (\row_i (D k ord0 i + inv_jitter)^-1).
  move=> ltk; rewrite (nth_map 0) ?size_init_nat2 //.
  by have := Einv k ltk; rewrite /inv; case: ifP => // _ [].
have szz : size (nseq K (0 : 'cV[F]_(2 * sd))) = size cov.
  by rewrite szcov size_nseq.
have csym : all (@symmetric F (2 * sd)) cov.
  by apply/(all_nthP 0) => k; rewrite szcov => ltk;
     rewrite nth_cov // /symmetric tr_diag_mx.
have cok : all (fun A => cho_factor sqrtF A : bool) cov.
  apply/(all_nthP 0) => k; rewrite szcov => ltk; rewrite nth_cov //.
  rewrite (@cho_factor_diag _ sqrtF _ _
             (\row_i (if (i == sd :> nat) && (k < K.-1)%N then r2 else r8))) //.
  move=> i; rewrite !mxE /D /SparseMarkovGP.init_precision_diag.
  by case: ifP.
rewrite /GaussianDistribution.init (reparametrise_val sqrtF_ok szz csym cok).
by destruct (set_z_stats _ _); eexists.
Qed.

End ConstructionSucceeds.

Section BaseConstructionSucceeds.

Variable F : realFieldType.
Variable sqrtF : F -> option F.
Hypothesis sqrtF_ok : sqrt_spec sqrtF.

Lemma BaseModel_init_succeeds e q independent X
    (Y : seq 'rV[option F]_e) r :
  sqrtF (10 ^+ 2) = Some r ->
  exists b, BaseModel.init sqrtF q independent X Y = Some b.
Proof.
move=> Er; rewrite /BaseModel.init /GaussianDistribution.init.
set p := BaseModel.pseudo_lik_size e q independent.
set m := nseq _ _; set c := nseq _ _.
have sz : size m = size c by rewrite !size_nseq.
have csym : all (@symmetric F p) c.
  by rewrite all_nseq /symmetric linearZ /= tr_scalar_mx eqxx orbT.
have cok : all (fun A => cho_factor sqrtF A : bool) c.
  by rewrite all_nseq scalemx1 (cho_factor_scalar _ Er) orbT.
by rewrite (reparametrise_val sqrtF_ok sz csym cok); eexists.
Qed.

End BaseConstructionSucceeds.

Section RatConstruction.

Lemma rat_sqrt_e2 : rat_sqrt (10 ^+ 2) = Some 10.
Proof. by rewrite expr2 rat_sqrt_sq. Qed.

Lemma rat_sqrt_inv_e2 : rat_sqrt (10 ^- 2 + 0)^-1 = Some 10.
Proof. by rewrite addr0 invrK rat_sqrt_e2. Qed.

Lemma expr_10_8 : 10 ^+ 8 = 10 ^+ 4 * 10 ^+ 4 :> rat.
Proof. by rewrite -exprD. Qed.

Lemma rat_sqrt_inv_e8 : rat_sqrt (10 ^- 8 + 0)^-1 = Some (10 ^+ 4).
Proof.
rewrite addr0 invrK expr_10_8 -natrX rat_sqrt_sq //.
Qed.

End RatConstruction.

Section MarkovConstructionSucceeds.

Variable F : realFieldType.
Variable sqrtF : F -> option F.
Hypothesis sqrtF_ok : sqrt_spec sqrtF.
Variables (sd q e : nat) (independent : bool).
Variable input_admin :
  seq (input F) -> seq 'rV[option F]_e -> option (seq (seq (option F))) ->
  seq (input F) * seq 'rV[option F]_e * seq (seq (option F)) * seq F.
Variable on_gpu : bool.

Lemma MarkovGP_init_succeeds X Y R parallel r :
  sqrtF (10 ^+ 2) = Some r ->
  exists markov,
    MarkovGP.init sqrtF sd q independent input_admin on_gpu X Y R parallel
      = Some markov.
Proof.
move=> Er; rewrite /MarkovGP.init.
case: (input_admin X Y R) => [[[X' Y'] R'] dt].
have [b ->] := BaseModel_init_succeeds sqrtF_ok q independent X' Y' Er.
by eexists.
Qed.

Lemma MarkovGP_init_fields X Y R parallel markov :
  MarkovGP.init sqrtF sd q independent input_admin on_gpu X Y R parallel
    = Some markov ->
  let X' := (input_admin X Y R).1.1.1 in
  let site := BaseModel.pseudo_likelihood (MarkovGP.base markov) in
  [/\ GaussianDistribution.mean site = nseq (size X') 0,
      GaussianDistribution.covariance site = nseq (size X') (10 ^+ 2 *: 1%:M),
      BaseModel.posterior_mean (MarkovGP.base markov) = nseq (size X') 0 &
      BaseModel.posterior_variance (MarkovGP.base markov)
        = nseq (size X') 1%:M].
Proof.
rewrite /MarkovGP.init; case: (input_admin X Y R) => [[[X' Y'] R'] dt] /=.
case E: (BaseModel.init _ _ _ _ _) => [b|] // [<-] /=.
by have [-> -> -> ->] := BaseModel_init_fields E.
Qed.

End MarkovConstructionSucceeds.

Section GridFacts.

Variable F : realFieldType.

Lemma sorted_augment (Z : seq F) :
  sorted <=%O (SparseMarkovGP.augment Z) =
  all (fun z => (- SparseMarkovGP.inf F <= z) && (z <= SparseMarkovGP.inf F)) Z.
Proof.
rewrite /SparseMarkovGP.augment (sorted_pairwise le_trans).
rewrite /= pairwise_cat all_cat /= !andbT allrel1r.
rewrite -(sorted_pairwise le_trans) sort_le_sorted andbT !all_sort.
have -> : - SparseMarkovGP.inf F <= SparseMarkovGP.inf F.
  by rewrite /SparseMarkovGP.inf -subr_ge0 opprK addr_ge0 // exprn_ge0.
by rewrite andbT -all_predI.
Qed.

End GridFacts.

Lemma toy_init_succeeds Z : exists self, toy_init Z = Some self.
Proof.
have [markov Em] :=
  MarkovGP_init_succeeds rat_sqrt_ok 1 1 false toy_input_admin false
    [:: [:: 0]] [:: const_mx (Some 1)] None None rat_sqrt_e2.
exact: (SparseMarkovGP_init_succeeds rat_sqrt_ok toy_set_z_stats Z Em (lexx 0)
          rat_sqrt_inv_e2 rat_sqrt_inv_e8).
Qed.

(** C4, as amended.  At construction the stored [Z] is the sorted inducing
    inputs between the two finite sentinels [-1e10] and [1e10], [dz] holds the
    [M + 1] consecutive differences of the stored array, and the stored array
    as a whole is sorted exactly when every inducing input lies within the
    sentinels. *)
Theorem inducing_grid (F : realFieldType) (sqrtF : F -> option F)
    (sd q e : nat) (independent : bool) (inv_jitter : F)
    input_admin (on_gpu : bool) set_z_stats X Y Z R parallel
    (self : SparseMarkovGP.t F sd q e independent) :
  SparseMarkovGP.init sqrtF sd q independent inv_jitter input_admin on_gpu
    set_z_stats X Y Z R parallel = Some self ->
  [/\ SparseMarkovGP.Z self = - 10 ^+ 10 :: sort <=%O Z ++ [:: 10 ^+ 10],
      sorted <=%O (sort <=%O Z) /\ perm_eq (sort <=%O Z) Z,
      size (SparseMarkovGP.dz self) = (size Z).+1 /\
      SparseMarkovGP.num_transitions self = (size Z).+1,
      forall k, (k < (size Z).+1)%N ->
        nth 0 (SparseMarkovGP.dz self) k =
        nth 0 (SparseMarkovGP.Z self) k.+1 - nth 0 (SparseMarkovGP.Z self) k &
      sorted <=%O (SparseMarkovGP.Z self) =
      all (fun z => (- 10 ^+ 10 <= z) && (z <= 10 ^+ 10)) Z].
Proof.
move=> /SparseMarkovGP_init_fields [[EZ Edz EK _] _].
split; rewrite ?EZ ?Edz ?EK ?size_np_diff ?size_augment //.
- by rewrite sort_le_sorted perm_sort.
- by move=> k ltk; rewrite nth_np_diff ?size_augment.
- exact: sorted_augment.
Qed.

(** C4 as stated fails: an inducing input beyond the sentinel leaves the
    stored array unsorted. *)
Lemma inducing_grid_unsorted :
  exists self,
    toy_init [:: 2 * 10 ^+ 10] = Some self /\
    ~~ sorted <=%O (SparseMarkovGP.Z self).
Proof.
have [self E] := toy_init_succeeds [:: 2 * 10 ^+ 10]; exists self; split.
  exact: E.
have [[-> _ _ _] _] := SparseMarkovGP_init_fields E.
rewrite sorted_augment all_seq1 negb_and; apply/orP; right.
rewrite /SparseMarkovGP.inf -ltNge mulr2n mulrDl mul1r ltrDl.
by rewrite exprn_gt0.
Qed.

Lemma inducing_grid_witness :
  exists self,
    toy_init [:: 1; 0] = Some self /\
    size (SparseMarkovGP.dz self) = 3 /\
    SparseMarkovGP.Z self = - 10 ^+ 10 :: sort <=%O [:: 1; 0] ++ [:: 10 ^+ 10].
Proof.
have [self E] := toy_init_succeeds [:: 1; 0]; exists self; split.
  exact: E.
have [-> _ [-> _] _ _] := inducing_grid E.
by split.
Defined.

Section DenseConstruction.

Variable F : realFieldType.
Variable sqrtF : F -> option F.

Lemma GP_init_fields X Y (g : GP.t F) :
  GP.init sqrtF X Y = Some g ->
  let site := BaseModel.pseudo_likelihood (GP.base g) in
  [/\ GaussianDistribution.mean site = nseq (size X) 0,
      GaussianDistribution.covariance site = nseq (size X) (10 ^+ 2 *: 1%:M),
      BaseModel.posterior_mean (GP.base g) = nseq (size X) 0 &
      BaseModel.X (GP.base g) = X].
Proof.
rewrite /GP.init; case E: (BaseModel.init _ _ _ _ _) => [b|] // [<-] /=.
by have [-> -> -> _ ->] := BaseModel_init_fields E.
Qed.

Lemma SparseGP_init_fields M X Y (Z : M.-tuple (input F)) opt_z
    (g : SparseGP.t F M) :
  SparseGP.init sqrtF X Y Z opt_z = Some g ->
  let base := GP.base (SparseGP.gp g) in
  let site := BaseModel.pseudo_likelihood base in
  [/\ GaussianDistribution.mean site = nseq (size X) 0,
      GaussianDistribution.covariance site = nseq (size X) (10 ^+ 2 *: 1%:M),
      BaseModel.posterior_mean base = nseq M 0 &
      SparseGP.posterior_covariance g = 1%:M].
Proof.
rewrite /SparseGP.init; case E: (GP.init _ _ _) => [gp|] // [<-] /=.
by have [-> ->] := GP_init_fields E.
Qed.

End DenseConstruction.

(** C5, as amended.  [GP], [SparseGP] and [MarkovGP] create their site and
    posterior containers with zero means and the site covariance [1e2 * I] at
    every site.  [SparseMarkovGP] creates zero site and posterior means as
    well, but replaces the site store: its site covariance is the inverse
    that [inv_vmap] returns for the initial precision. *)
Theorem containers_at_construction (F : realFieldType)
    (sqrtF : F -> option F) :
  (forall X Y g, GP.init sqrtF X Y = Some g ->
     let site := BaseModel.pseudo_likelihood (GP.base g) in
     [/\ GaussianDistribution.mean site = nseq (size X) 0,
         BaseModel.posterior_mean (GP.base g) = nseq (size X) 0 &
         GaussianDistribution.covariance site
           = nseq (size X) (10 ^+ 2 *: 1%:M)]) /\
  (forall M X Y (Z : M.-tuple (input F)) opt_z g,
     SparseGP.init sqrtF X Y Z opt_z = Some g ->
     let base := GP.base (SparseGP.gp g) in
     let site := BaseModel.pseudo_likelihood base in
     [/\ GaussianDistribution.mean site = nseq (size X) 0,
         BaseModel.posterior_mean base = nseq M 0 &
         GaussianDistribution.covariance site
           = nseq (size X) (10 ^+ 2 *: 1%:M)]) /\
  (forall sd q e independent input_admin on_gpu X Y R parallel
          (g : MarkovGP.t F sd q e independent),
     MarkovGP.init sqrtF sd q independent input_admin on_gpu X Y R parallel
       = Some g ->
     let N := size (input_admin X Y R).1.1.1 in
     let site := BaseModel.pseudo_likelihood (MarkovGP.base g) in
     [/\ GaussianDistribution.mean site = nseq N 0,
         BaseModel.posterior_mean (MarkovGP.base g) = nseq N 0 &
         GaussianDistribution.covariance site = nseq N (10 ^+ 2 *: 1%:M)]) /\
  (forall sd q e independent inv_jitter input_admin on_gpu set_z_stats
          X Y Z R parallel (g : SparseMarkovGP.t F sd q e independent),
     SparseMarkovGP.init sqrtF sd q independent inv_jitter input_admin on_gpu
       set_z_stats X Y Z R parallel = Some g ->
     let K := (size Z).+1 in
     let site := SparseMarkovGP.pseudo_likelihood g in
     [/\ GaussianDistribution.mean site = nseq K 0,
         SparseMarkovGP.posterior_mean g = nseq K 0 &
         inv_vmap inv_jitter (SparseMarkovGP.init_nat2 F sd K)
           = Some (GaussianDistribution.covariance site)]).
Proof.
split=> [X Y g /GP_init_fields /= [-> -> -> _] //|].
split=> [M X Y Z opt_z g /SparseGP_init_fields /= [-> -> -> _] //|].
split=> [sd q e ind ia gpu X Y R par g|].
  by move=> /MarkovGP_init_fields /= [-> -> -> _].
move=> sd q e ind jit ia gpu szs X Y Z R par g.
by move=> /SparseMarkovGP_init_fields /= [_ [-> _ -> -> _]].
Qed.

Section NumericFacts.

Variable F : realFieldType.

Lemma entry_e8_neq_e2 :
  (10 ^- 8 + 0)^-1 *+ true = 10 ^+ 2 * true%:R :> F -> False.
Proof. by rewrite mulr1n mulr1 addr0 invrK => h; lra. Qed.

Lemma entry_e2_neq_e2 :
  (10 ^- 2 + 0)^-1 *+ true = 10 ^- 2 :> F -> False.
Proof. by rewrite !mulr1n addr0 invrK => h; lra. Qed.

End NumericFacts.

Lemma GP_init_toy :
  exists g, GP.init rat_sqrt [:: [:: 0]] [:: const_mx (Some 1)] = Some g.
Proof.
rewrite /GP.init.
have [b ->] := BaseModel_init_succeeds rat_sqrt_ok 1 false [:: [:: 0]]
                 [:: (const_mx (Some 1) : 'rV[option rat]_1)] rat_sqrt_e2.
by eexists.
Qed.

Lemma containers_at_construction_witness :
  (exists g, GP.init rat_sqrt [:: [:: 0]] [:: const_mx (Some 1)] = Some g /\
     GaussianDistribution.covariance (BaseModel.pseudo_likelihood (GP.base g))
       = [:: 10 ^+ 2 *: 1%:M]) /\
  (exists g, toy_init [:: 0] = Some g /\
     SparseMarkovGP.posterior_mean g = [:: 0; 0]).
Proof.
have [Hgp [_ [_ Hsm]]] := containers_at_construction rat_sqrt.
split.
  have [g E] := GP_init_toy; exists g; split; first exact: E.
  by have [_ _ ->] := Hgp _ _ _ E.
have [g E] := toy_init_succeeds [:: 0]; exists g; split; first exact: E.
by have [_ -> _] := Hsm _ _ _ _ _ _ _ _ _ _ _ _ _ _ E.
Defined.

(** C5 as stated fails for [SparseMarkovGP]: the covariance of its first
    site is not [1e2 * I]. *)
Lemma sparse_markov_site_covariance_not_1e2 :
  exists self,
    toy_init [:: 0] = Some self /\
    nth 0 (GaussianDistribution.covariance
             (SparseMarkovGP.pseudo_likelihood self)) 0
      != 10 ^+ 2 *: 1%:M.
Proof.
have [self E] := toy_init_succeeds [:: 0]; exists self; split.
  exact: E.
have [_ _ /(_ 0%N isT) [-> _]] :=
  SparseMarkovGP_init_sites rat_sqrt_ok (lexx 0) E.
apply/eqP => /matrixP /(_ ord0 ord0); rewrite !mxE !eqxx.
set b := _ && _; have -> : b = false by [].
exact: entry_e8_neq_e2.
Qed.

(** C6 (amended).  What [__init__] initialises to [1e-2] and [1e-8] is the
    diagonal of the site precision [nat2], not of the site covariance: in a
    model built by [SparseMarkovGP.__init__] from [M] inducing inputs every
    site [k] of the [M + 1] has a diagonal precision and a diagonal
    covariance (all off-diagonal entries are zero); the precision at index
    [S] is [1e-2] (plus the jitter of the utility inverse) for every site but
    the last, every other diagonal entry of the precision is [1e-8] (plus that
    jitter), and the covariance is the entrywise inverse of that diagonal,
    about [1e2] and [1e8]. *)
Theorem initial_site_precision (F : realFieldType) (sqrtF : F -> option F)
    (sd q e : nat) (independent : bool) (inv_jitter : F) input_admin on_gpu
    set_z_stats X Y Z R parallel
    (self : SparseMarkovGP.t F sd q e independent) :
  sqrt_spec sqrtF -> 0 <= inv_jitter ->
  SparseMarkovGP.init sqrtF sd q independent inv_jitter input_admin on_gpu
    set_z_stats X Y Z R parallel = Some self ->
  let site := SparseMarkovGP.pseudo_likelihood self in
  let d (k : nat) (i : 'I_(2 * sd)) : F :=
    if (i == sd :> nat) && (k < size Z)%N then 10 ^- 2 else 10 ^- 8 in
  forall k, (k < (size Z).+1)%N -> forall i j,
    nth 0 (GaussianDistribution.nat2 site) k i j
      = (if i == j then d k i + inv_jitter else 0) /\
    nth 0 (GaussianDistribution.covariance site) k i j
      = (if i == j then (d k i + inv_jitter)^-1 else 0).
Proof.
move=> sqrtF_ok jit_ge0 E site d k ltk i j.
have [_ _ /(_ k ltk) [-> ->]] := SparseMarkovGP_init_sites sqrtF_ok jit_ge0 E.
by rewrite /d !mxE /=; case: (i == j); rewrite ?mulr1n ?mulr0n.
Qed.

Lemma initial_site_precision_witness :
  exists self, toy_init [:: 0] = Some self /\
    let site := SparseMarkovGP.pseudo_likelihood self in
    let d (k : nat) (i : 'I_(2 * 1)) : rat :=
      if (i == 1%N :> nat) && (k < 1)%N then 10 ^- 2 else 10 ^- 8 in
    forall k, (k < 2)%N -> forall i j,
      nth 0 (GaussianDistribution.nat2 site) k i j
        = (if i == j then d k i + 0 else 0) /\
      nth 0 (GaussianDistribution.covariance site) k i j
        = (if i == j then (d k i + 0)^-1 else 0).
Proof.
have [self E] := toy_init_succeeds [:: 0]; exists self; split.
  exact: E.
exact: (initial_site_precision rat_sqrt_ok (lexx 0) E).
Defined.

(** C6 as stated fails: in the model built from one inducing input, the
    covariance of the first site at index [S] is not [1e-2]. *)
Lemma initial_site_covariance_not_1e_2 :
  exists self,
    toy_init [:: 0] = Some self /\
    nth 0 (GaussianDistribution.covariance
             (SparseMarkovGP.pseudo_likelihood self)) 0
      (Ordinal (isT : (1 < 2 * 1)%N)) (Ordinal (isT : (1 < 2 * 1)%N))
      != 10 ^- 2.
Proof.
have [self E] := toy_init_succeeds [:: 0]; exists self; split.
  exact: E.
have [_ _ /(_ 0%N isT) [-> _]] :=
  SparseMarkovGP_init_sites rat_sqrt_ok (lexx 0) E.
apply/eqP; rewrite !mxE eqxx.
set b := _ && _; have -> : b = true by [].
exact: entry_e2_neq_e2.
Qed.

Section JitterFacts.

Variable F : realFieldType.
Variable sqrtF : F -> option F.
Hypothesis sqrtF_ok : sqrt_spec sqrtF.

Lemma scalar_jitter_neq :
  (4%:M + (10 ^- 8)%:M) *m nth 0 [:: invmx 4%:M] 0 != 1%:M :> 'M[F]_1.
Proof.
rewrite /= invmx_scalar -raddfD /= -scalar_mxM.
apply/eqP => /matrixP /(_ ord0 ord0); rewrite !mxE /= !mulr1n => h.
have : (4 + 10 ^- 8) = 4 :> F.
  by rewrite -[LHS]mulr1 -[X in _ * X](@mulVf _ 4) ?mulrA ?h ?mul1r // pnatr_eq0.
by move=> h'; lra.
Qed.

Lemma all_some_map_in (T : eqType) U (f : T -> option U) (g : T -> U)
    (s : seq T) :
  {in s, forall x, f x = Some (g x)} ->
  all_some [seq f x | x <- s] = Some [seq g x | x <- s].
Proof.
elim: s => [|x s IH] //= fg.
rewrite fg ?mem_head // IH // => y ys.
by apply: fg; rewrite inE ys orbT.
Qed.

Lemma unitmx11 (A : 'M[F]_1) : 0 < A ord0 ord0 -> A \in unitmx.
Proof. by move=> A0; rewrite unitmxE det_mx11 unitfE lt0r_neq0. Qed.

Lemma nth_gather_ge0 (a : seq 'M[F]_1) idx j :
  (forall k, 0 <= nth 0 a k ord0 ord0) ->
  0 <= nth 0 (gather 0 a idx) j ord0 ord0.
Proof.
move=> a0; rewrite /gather; case: (ltnP j (size idx)) => ltj.
  by rewrite (nth_map 0%N).
by rewrite nth_default ?size_map // mxE.
Qed.

Variable kernel : input F -> input F -> F.
Variable inv_jitter : F.

Lemma pseudo_precision_unit (w : 'cV[F]_1) (N : 'M[F]_1) :
  0 <= inv_jitter -> 0 <= N ord0 ord0 ->
  w *m N *m w^T + (10 ^- 12) *: 1%:M + inv_jitter%:M \in unitmx.
Proof.
move=> jit_ge0 N_ge0; apply: unitmx11.
rewrite !mxE !big_ord1 !mxE /= !mulr1n mulr1.
apply: ltr_wpDr => //; apply: ltr_wpDl; last by rewrite invr_gt0 exprn_gt0.
by rewrite big_ord1 mulrAC -expr2 mulr_ge0 ?sqr_ge0.
Qed.

(** With one inducing input, [compute_full_pseudo_lik] returns. *)
Lemma SparseGP_compute_full_pseudo_lik_succeeds (self : SparseGP.t F 1) l :
  let base := GP.base (SparseGP.gp self) in
  let obs := GP.obs_ind (SparseGP.gp self) in
  let z := tnth (SparseGP.Z self) ord0 in
  0 <= inv_jitter ->
  sqrtF (kernel z z) = Some l ->
  size (flatten (gather [::] (BaseModel.X base) obs)) = size obs ->
  (forall k, 0 <= nth 0 (GaussianDistribution.nat2
                           (BaseModel.pseudo_likelihood base)) k ord0 ord0) ->
  exists y v,
    SparseGP.compute_full_pseudo_lik sqrtF kernel inv_jitter self
      = Some (y, v).
Proof.
move=> base obs z jit_ge0 sq_z sz_obs nat2_ge0.
have [n1 [n2 [E n2P]]] : exists n1 n2,
    SparseGP.compute_full_pseudo_nat sqrtF kernel self obs = Some (n1, n2) /\
    {in n2, forall P, exists (w : 'cV[F]_1) (N : 'M[F]_1),
       0 <= N ord0 ord0 /\ P = w *m N *m w^T}.
  rewrite /SparseGP.compute_full_pseudo_nat.
  set Kuu := (\matrix_(i, j) _ : 'M[F]_1).
  have -> : Kuu = (kernel z z)%:M.
    by apply/matrixP => i j; rewrite !mxE !ord1 eqxx mulr1n.
  rewrite /solve (cho_factor_scalar _ sq_z) /omap /obind /oapp.
  rewrite size_map sz_obs eqxx.
  eexists; eexists; split; first by reflexivity.
  move=> P /mapP [j _ ->]; eexists; eexists; split; last by reflexivity.
  exact: nth_gather_ge0.
rewrite /SparseGP.compute_full_pseudo_lik E /inv_vmap -map_comp.
rewrite (@all_some_map_in _ _ _
           (fun A => invmx (A + (10 ^- 12) *: 1%:M + inv_jitter%:M)));
  last by eexists; eexists.
move=> P /n2P [w [N [N_ge0 ->]]]; rewrite /inv [X in if X then _ else _]/=.
by rewrite pseudo_precision_unit.
Qed.

End JitterFacts.

Section ToyFacts.

Variable F : realFieldType.

Lemma toy_nat2_ge0 k :
  0 <= nth 0 [:: (5^-1)%:M; (5^-1)%:M : 'M[F]_1] k ord0 ord0.
Proof.
by case: k => [|[|k]]; rewrite /= ?nth_nil !mxE ?mulr1n ?invr_ge0 ?ler0n.
Qed.

End ToyFacts.

(** C3 (amended).  Neither function adds [1e-8 * I].  [reparametrise]
    factorises [param2] as it is, reading its upper triangle only: what it
    returns is the exact solution against the symmetric matrix [S_n] with the
    upper triangle of [param2_n], whose inverse is [reparam2_n]; [S_n] is
    [param2_n] itself when that is symmetric.  In
    [SparseGP.compute_full_pseudo_lik] the code adds [1e-12 * I] before it
    calls the utility inverse, so that the inverted matrix is the full
    precision plus [1e-12 * I] plus the jitter of the utility itself. *)
Theorem jitter_amounts (F : realFieldType) (sqrtF : F -> option F)
    (d M : nat) (kernel : input F -> input F -> F) (inv_jitter : F) :
  sqrt_spec sqrtF ->
  (forall (p1 : seq 'cV[F]_d) (p2 : seq 'M[F]_d) r1 r2,
     GaussianDistribution.reparametrise sqrtF p1 p2 = Some (r1, r2) ->
     forall n, (n < size p2)%N ->
       let S := upper_symmetrised (nth 0 p2 n) in
       [/\ S \in unitmx,
           nth 0 r1 n = invmx S *m nth 0 p1 n,
           nth 0 r2 n = invmx S &
           symmetric (nth 0 p2 n) -> S = nth 0 p2 n]) /\
  (forall (self : SparseGP.t F M) y v,
     SparseGP.compute_full_pseudo_lik sqrtF kernel inv_jitter self
       = Some (y, v) ->
     exists n1 n2,
       [/\ SparseGP.compute_full_pseudo_nat sqrtF kernel self
             (GP.obs_ind (SparseGP.gp self)) = Some (n1, n2),
           size v = size n2, y = bmm v n1 &
           forall k, (k < size n2)%N ->
             nth 0 n2 k + (10 ^- 12 + inv_jitter)%:M \in unitmx /\
             nth 0 v k = invmx (nth 0 n2 k + (10 ^- 12 + inv_jitter)%:M)]).
Proof.
move=> sqrtF_ok; split=> [p1 p2 r1 r2 E n ltn|self y v].
  have [_ _ _ /(_ n ltn) /= [Su E1 E2]] := reparametrise_upper_ok sqrtF_ok E.
  by split=> //; apply: upper_symmetrised_id.
rewrite /SparseGP.compute_full_pseudo_lik.
case E: (SparseGP.compute_full_pseudo_nat _ _ _ _) => [[n1 n2]|] //.
case Ev: (inv_vmap _ _) => [pv|] // [<- <-].
exists n1, n2; have [sz vals] := inv_vmap_nth Ev; rewrite size_map in sz vals.
split=> // k ltk; have := vals k ltk.
by rewrite (nth_map 0) // -addrA scalemx1 -raddfD.
Qed.

Lemma jitter_amounts_witness :
  (forall n, (n < size [:: 4%:M : 'M[rat]_1])%N ->
     let S := upper_symmetrised (nth 0 [:: 4%:M : 'M[rat]_1] n) in
     [/\ S \in unitmx,
         nth 0 [:: invmx 4%:M *m const_mx 3 : 'cV[rat]_1] n
           = invmx S *m nth 0 [:: const_mx 3] n,
         nth 0 [:: invmx 4%:M] n = invmx S &
         symmetric (nth 0 [:: 4%:M : 'M[rat]_1] n)
         -> S = nth 0 [:: 4%:M : 'M[rat]_1] n]) /\
  (exists y v,
     SparseGP.compute_full_pseudo_lik rat_sqrt toy_kernel 0 toy_sgp
       = Some (y, v) /\
     exists n1 n2,
       [/\ SparseGP.compute_full_pseudo_nat rat_sqrt toy_kernel toy_sgp
             [:: 0; 1]%N = Some (n1, n2),
           size v = size n2, y = bmm v n1 &
           forall k, (k < size n2)%N ->
             nth 0 n2 k + (10 ^- 12 + 0)%:M \in unitmx /\
             nth 0 v k = invmx (nth 0 n2 k + (10 ^- 12 + 0)%:M)]).
Proof.
split.
  exact: (proj1 (jitter_amounts 1 1 toy_kernel 0 rat_sqrt_ok) _ _ _ _
            (update_some_rat (const_mx 3))).
have sq : rat_sqrt (toy_kernel (tnth (SparseGP.Z toy_sgp) ord0)
                      (tnth (SparseGP.Z toy_sgp) ord0)) = Some 2.
  by rewrite /toy_kernel eqxx rat_sqrt_4.
have [y [v E]] :=
  SparseGP_compute_full_pseudo_lik_succeeds (self := toy_sgp)
    (lexx 0) sq (erefl _) (@toy_nat2_ge0 _).
exists y, v; split; first exact: E.
exact: (proj2 (jitter_amounts 1 1 toy_kernel 0 rat_sqrt_ok) _ _ _ E).
Defined.

(** C3 as stated fails for [reparametrise]: what it returns for the
    precision [4] is not the inverse of [4 + 1e-8]. *)
Lemma reparametrise_adds_no_jitter :
  exists (r1 : seq 'cV[rat]_1) (r2 : seq 'M[rat]_1),
    GaussianDistribution.reparametrise rat_sqrt [:: const_mx 3] [:: 4%:M]
      = Some (r1, r2) /\
    (4%:M + (10 ^- 8)%:M) *m nth 0 r2 0 != 1%:M.
Proof.
exists [:: invmx 4%:M *m const_mx 3], [:: invmx 4%:M]; split.
  exact: update_some_rat.
exact: scalar_jitter_neq.
Qed.

Section LogLikFacts.

Variable F : realFieldType.
Variable sqrtF : F -> option F.
Hypothesis sqrtF_ok : sqrt_spec sqrtF.
Variable lnF : F -> F.
Hypothesis lnF_mul :
  forall x y, 0 < x -> 0 < y -> lnF (x * y) = lnF x + lnF y.

Lemma lnF_1 : lnF 1 = 0.
Proof.
have /eqP := lnF_mul ltr01 ltr01.
by rewrite mulr1 -[X in X == _]addr0 (inj_eq (addrI _)) => /eqP <-.
Qed.

Lemma lnF_prod n (u : 'I_n -> F) :
  (forall i, 0 < u i) ->
  0 < \prod_i u i /\ lnF (\prod_i u i) = \sum_i lnF (u i).
Proof.
move=> u_gt0.
apply: (big_rec2 (fun a b => 0 < a /\ lnF a = b)) => [|i b a _ [a_gt0 <-]].
  by rewrite ltr01 lnF_1.
by rewrite mulr_gt0 // lnF_mul.
Qed.

(** The log-determinant from the diagonal of the factor. *)
Lemma cho_factor_logdet n (A : 'M[F]_n) Ly low :
  symmetric A -> cho_factor sqrtF A = Some (Ly, low) ->
  \sum_i lnF (Ly i i) = 2^-1 * lnF (\det A).
Proof.
move=> Asym; rewrite /cho_factor (eqP Asym).
case EL: (cholesky sqrtF A) => [L|] //= [<- _].
have [Ltrig Lpos <-] := cholesky_ok sqrtF_ok Asym EL.
rewrite det_mulmx det_tr (det_trig Ltrig).
have [p_gt0 Ep] := lnF_prod Lpos.
rewrite lnF_mul // Ep -mulr2n -[X in _ * X]mulr_natl mulrA mulVf ?pnatr_eq0 //.
rewrite mul1r.
by apply: eq_bigr => i _; rewrite mxE.
Qed.

Lemma flatten_nseq_filter (P : pred nat) m n :
  flatten [seq nseq (P i) i | i <- iota m n] = [seq i <- iota m n | P i].
Proof. by elim: n m => [|n IH] m //=; rewrite IH; case: (P m). Qed.

(** The observed rows are those where [Y] is not NaN. *)
Lemma GP_init_obs_ind X (Y : seq 'rV[option F]_1) (g : GP.t F) :
  GP.init sqrtF X Y = Some g ->
  GP.obs_ind g =
  [seq i <- iota 0 (size Y) | ~~ isnan (nth (const_mx None) Y i ord0 ord0)].
Proof.
rewrite /GP.init /BaseModel.init.
case: (GaussianDistribution.init _ _ _) => [site|] // [<-] /=.
rewrite /where_not_rows size_map -flatten_nseq_filter.
congr flatten; apply/eq_in_map => i; rewrite mem_iota add0n /= => ltn.
rewrite (nth_map (const_mx None)) // enum_ordSl enum_ord0 /=.
by rewrite addn0.
Qed.

Variable LOG2PI : F.
Variable kernel : input F -> input F -> F.
Hypothesis kernel_sym : forall x y, kernel x y = kernel y x.

Lemma Ky_symmetric n Xs pv :
  symmetric (GP.kernel_matrix kernel n Xs + GP.diag_squeeze n pv).
Proof.
rewrite /symmetric linearD /= tr_diag_mx; apply/eqP; congr (_ + _).
by apply/matrixP => i j; rewrite !mxE kernel_sym.
Qed.

Lemma compute_log_lik_val (self : GP.t F) c :
  let obs := GP.obs_ind self in
  let site := BaseModel.pseudo_likelihood (GP.base self) in
  let n := size obs in
  let y := GP.diag_col n (gather 0 (GaussianDistribution.mean site) obs) in
  let Ky :=
    GP.kernel_matrix kernel n (gather [::] (BaseModel.X (GP.base self)) obs)
    + GP.diag_squeeze n (gather 0 (GaussianDistribution.covariance site) obs) in
  n != 1%N ->
  cho_factor sqrtF Ky = Some c ->
  GP.compute_log_lik sqrtF lnF LOG2PI kernel self None None
    = Some (log_normaliser lnF LOG2PI y Ky).
Proof.
move=> obs site n y Ky n1 Ec.
rewrite /GP.compute_log_lik (negPf n1) -/Ky Ec.
case: c Ec => Ly low Ec; congr Some; rewrite /log_normaliser.
have Ksym : symmetric Ky by apply: Ky_symmetric.
have [_ ->] := cho_solve_inv sqrtF_ok Ksym Ec.
rewrite (cho_factor_logdet Ksym Ec) mulr1.
by rewrite /np_sum !big_ord1 mulmxA.
Qed.

(** With exactly one observed row the call raises. *)
Lemma compute_log_lik_single_row (self : GP.t F) :
  size (GP.obs_ind self) = 1%N ->
  GP.compute_log_lik sqrtF lnF LOG2PI kernel self None None = None.
Proof. by rewrite /GP.compute_log_lik => ->. Qed.

End LogLikFacts.


Section ToyLogLik.

Lemma toy_kernel_sym x y : toy_kernel x y = toy_kernel y x.
Proof. by rewrite /toy_kernel eq_sym. Qed.

Lemma rat_sqrt_9 : rat_sqrt 9 = Some 3.
Proof. by rewrite -(rat_sqrt_sq (a := 3)) // -natrM. Qed.

Lemma toy_Ky :
  let obs := GP.obs_ind toy_gp in
  let site := BaseModel.pseudo_likelihood (GP.base toy_gp) in
  GP.kernel_matrix toy_kernel 2 (gather [::] (BaseModel.X (GP.base toy_gp)) obs)
  + GP.diag_squeeze 2 (gather 0 (GaussianDistribution.covariance site) obs)
  = 9%:M.
Proof.
have E01 : ([:: 0] == [:: 1 : rat]) = false.
  by rewrite eqseq_cons eq_sym oner_eq0.
have E10 : ([:: 1] == [:: 0 : rat]) = false.
  by rewrite eqseq_cons oner_eq0.
have E49 : 4 + 5 = 9 :> rat by rewrite -natrD.
apply/matrixP => i j; rewrite !mxE /toy_kernel.
case: i => [[|[|i]] lti] //; case: j => [[|[|j]] ltj] //;
  by rewrite /gather /= ?eqxx ?E01 ?E10 !mxE eqxx !mulr1n E49.
Qed.

Lemma toy_y :
  let obs := GP.obs_ind toy_gp in
  let site := BaseModel.pseudo_likelihood (GP.base toy_gp) in
  GP.diag_col 2 (gather 0 (GaussianDistribution.mean site) obs) = const_mx 3.
Proof.
apply/matrixP => i j; rewrite !mxE.
by case: i => [[|[|i]] lti] //; rewrite /gather /= !mxE.
Qed.

End ToyLogLik.

Section InitLogLik.

Variable F : realFieldType.

Lemma toy_kernel44_sym (x y : input F) : toy_kernel44 x y = toy_kernel44 y x.
Proof. by rewrite /toy_kernel44 eq_sym. Qed.

Lemma e144 : 44 + 10 ^+ 2 = 12%:R * 12%:R :> F.
Proof. by rewrite -natrX -natrD -natrM. Qed.

Lemma white_Ky (X : seq (input F)) (obs : seq nat)
    (mean : seq 'cV[F]_1) (cov : seq 'M[F]_1) :
  uniq X -> obs = iota 0 (size X) ->
  mean = nseq (size X) 0 -> cov = nseq (size X) (10 ^+ 2 *: 1%:M) ->
  GP.kernel_matrix (@toy_kernel44 F) (size obs) (gather [::] X obs)
  + GP.diag_squeeze (size obs) (gather 0 cov obs) = (44 + 10 ^+ 2)%:M /\
  GP.diag_col (size obs) (gather 0 mean obs) = 0.
Proof.
move=> uX -> -> ->.
have G T (x0 : T) (a : seq T) :
    size a = size X -> gather x0 a (iota 0 (size X)) = a.
  move=> sz; apply: (@eq_from_nth _ x0).
    by rewrite /gather size_map size_iota.
  rewrite /gather size_map size_iota => i lti.
  rewrite (nth_map 0%N) ?size_iota // nth_iota // add0n; congr nth.
  by apply/minn_idPl; rewrite sz -ltnS prednK // (leq_ltn_trans _ lti).
rewrite !G ?size_nseq //; split; apply/matrixP => i j; rewrite !mxE.
  have lti : (i < size X)%N.
    by rewrite -[X in (_ < X)%N](size_iota 0 (size X)) ltn_ord.
  have ltj : (j < size X)%N.
    by rewrite -[X in (_ < X)%N](size_iota 0 (size X)) ltn_ord.
  rewrite /toy_kernel44 nth_uniq // nth_nseq lti !mxE eqxx mulr1n mulr1.
  have -> : (i == j) = (i == j :> nat) by [].
  by case: eqP => _; rewrite ?mulr1n ?mulr0n ?addr0 ?add0r.
by rewrite nth_nseq; case: ifP; rewrite mxE.
Qed.

End InitLogLik.

Lemma init_white_Ky (X : seq (input rat)) Y g :
  GP.init rat_sqrt X Y = Some g -> uniq X ->
  GP.obs_ind g = iota 0 (size X) ->
  let obs := GP.obs_ind g in
  let site := BaseModel.pseudo_likelihood (GP.base g) in
  GP.kernel_matrix (@toy_kernel44 rat) (size obs)
    (gather [::] (BaseModel.X (GP.base g)) obs)
  + GP.diag_squeeze (size obs)
      (gather 0 (GaussianDistribution.covariance site) obs)
  = (44 + 10 ^+ 2)%:M /\
  GP.diag_col (size obs) (gather 0 (GaussianDistribution.mean site) obs) = 0.
Proof.
rewrite /GP.init.
case Eb: (BaseModel.init _ _ _ _ _) => [b|] // [<-] uX Eo.
have [Em Ec _ _ EX] := BaseModel_init_fields Eb.
by rewrite [GP.base _]/= EX; apply: white_Ky.
Qed.

Lemma rat_sqrt_144 : rat_sqrt (44 + 10 ^+ 2) = Some 12%:R.
Proof. by rewrite e144 rat_sqrt_sq. Qed.

Lemma GP_init_two_rows :
  exists g, GP.init rat_sqrt [:: [:: 0]; [:: 1]]
              [:: const_mx (Some 1); const_mx (Some 2)] = Some g.
Proof.
rewrite /GP.init.
have [b ->] := BaseModel_init_succeeds rat_sqrt_ok 1 false [:: [:: 0]; [:: 1]]
                 [:: (const_mx (Some 1) : 'rV[option rat]_1);
                     const_mx (Some 2)] rat_sqrt_e2.
by eexists.
Qed.



Section SamplingFacts.

Variable F : realFieldType.

Lemma scan_map C A B (f : C -> A -> C * B) (g : A -> B) :
  (forall c x, (f c x).2 = g x) ->
  forall c xs, (scan f c xs).2 = [seq g x | x <- xs].
Proof.
move=> fg c xs; elim: xs c => [|x xs IH] c //=.
case E: (f c x) => [c' y]; case E': (scan f c' xs) => [c'' ys] /=.
by rewrite -(fg c x) E -(IH c') E'.
Qed.

Lemma all_some_eq_nth T (x0 : T) (s : seq (option T)) (t : seq T) :
  size t = size s ->
  (forall i, (i < size s)%N -> nth None s i = Some (nth x0 t i)) ->
  all_some s = Some t.
Proof.
elim: s t => [|x s IH] [|y t] //= [szt] nth_s.
have := nth_s 0%N isT => /= ->.
by rewrite (IH t) // => i lti; apply: (nth_s i.+1).
Qed.

End SamplingFacts.

Section BroadcastFacts.

Variable F : realFieldType.

Lemma broadcast_dim_same a : broadcast_dim a a = Some a.
Proof. by rewrite /broadcast_dim eqxx. Qed.

Lemma broadcast_dim_1r a : broadcast_dim a 1 = Some a.
Proof. by rewrite /broadcast_dim; case: eqP => [->|_] //; case: eqP => [->|]. Qed.

Lemma broadcast_dim_1l b : broadcast_dim 1 b = Some b.
Proof. by rewrite /broadcast_dim; case: eqP => [->|_]. Qed.

Lemma broadcast_index n i : (i < n)%N -> (if n == 1%N then 0%N else i) = i.
Proof. by case: eqP => // ->; case: i. Qed.

(** Two arrays of one shape. *)
Lemma broadcast2_same (op : F -> F -> F) (A B : seq (seq F)) r c :
  size A = r -> size B = r ->
  size (head [::] A) = c -> size (head [::] B) = c ->
  broadcast2 op A B
  = Some [seq [seq op (nth 0 (nth [::] A i) j) (nth 0 (nth [::] B i) j)
              | j <- iota 0 c] | i <- iota 0 r].
Proof.
move=> sA sB cA cB.
rewrite /broadcast2 sA sB cA cB !broadcast_dim_same; congr Some.
apply/eq_in_map => i; rewrite mem_iota add0n => /andP [_ lti].
apply/eq_in_map => j; rewrite mem_iota add0n => /andP [_ ltj].
by rewrite !broadcast_index.
Qed.

(** An array and a single row of as many columns. *)
Lemma broadcast2_row (op : F -> F -> F) (A : seq (seq F)) (v : seq F) r c :
  size A = r -> size (head [::] A) = c -> size v = c ->
  broadcast2 op A [:: v]
  = Some [seq [seq op (nth 0 (nth [::] A i) j) (nth 0 v j)
              | j <- iota 0 c] | i <- iota 0 r].
Proof.
move=> sA cA cv.
rewrite /broadcast2 sA cA /= cv broadcast_dim_1r broadcast_dim_same.
congr Some.
apply/eq_in_map => i; rewrite mem_iota add0n => /andP [_ lti].
apply/eq_in_map => j; rewrite mem_iota add0n => /andP [_ ltj].
by rewrite !broadcast_index.
Qed.

(** A column against a row: every entry of the column meets every entry of
    the row. *)
Lemma broadcast2_col_row (op : F -> F -> F) (A : seq (seq F)) (v : seq F) r c :
  size A = r -> size (head [::] A) = 1%N -> size v = c ->
  broadcast2 op A [:: v]
  = Some [seq [seq op (nth 0 (nth [::] A i) 0) (nth 0 v j)
              | j <- iota 0 c] | i <- iota 0 r].
Proof.
move=> sA cA cv.
rewrite /broadcast2 sA cA /= cv broadcast_dim_1r broadcast_dim_1l.
congr Some.
apply/eq_in_map => i; rewrite mem_iota add0n => /andP [_ lti].
apply/eq_in_map => j; rewrite mem_iota add0n => /andP [_ ltj].
by rewrite !broadcast_index.
Qed.

(** An array and a single entry. *)
Lemma broadcast2_scalar (op : F -> F -> F) (A : seq (seq F)) (x : F) r c :
  size A = r -> size (head [::] A) = c ->
  broadcast2 op A [:: [:: x]]
  = Some [seq [seq op (nth 0 (nth [::] A i) j) x
              | j <- iota 0 c] | i <- iota 0 r].
Proof.
move=> sA cA.
rewrite /broadcast2 sA cA /= !broadcast_dim_1r.
congr Some.
apply/eq_in_map => i; rewrite mem_iota add0n => /andP [_ lti].
apply/eq_in_map => j; rewrite mem_iota add0n => /andP [_ ltj].
by rewrite !broadcast_index.
Qed.

Lemma stack2_arr1 (rows : seq (seq F)) c :
  (0 < size rows)%N -> all (fun r => size r == c) rows ->
  stack2 [seq Arr1 v | v <- rows] = Some rows.
Proof.
case: rows => [|v rows] // _ szs; rewrite /stack2 [all_some _]/=.
have -> : all_some [seq (if a is Arr1 v then Some v else None)
                   | a <- [seq Arr1 v | v <- v :: rows]] = Some (v :: rows).
  by elim: (v :: rows) => [|w ws IH] //=; rewrite -/(all_some _) IH.
have /andP [/eqP sv _] := szs.
by rewrite [head _ _]/= sv szs.
Qed.

Lemma stack2_arr0 (xs : seq F) :
  stack2 [seq Arr0 x | x <- xs] = Some [:: xs].
Proof.
rewrite /stack2.
have -> // : all_some [seq (if a is Arr0 x then Some x else None)
                      | a <- [seq Arr0 x | x <- xs]] = Some xs.
by elim: xs => [|w ws IH] //=; rewrite -/(all_some _) IH.
Qed.

Lemma squeeze_mean1 (m : seq 'cV[F]_1) :
  MarkovGP.squeeze_mean m =
  if size m == 1%N then Arr0 ((nth 0 m 0) ord0 ord0)
  else Arr1 [seq x ord0 ord0 | x : 'cV[F]_1 <- m].
Proof.
have E : flatten [seq [seq x i ord0 | i <- enum 'I_1] | x : 'cV[F]_1 <- m]
         = [seq x ord0 ord0 | x : 'cV[F]_1 <- m].
  by elim: m => [|x m IH] //=; rewrite IH enum_ordSl enum_ord0.
rewrite /MarkovGP.squeeze_mean eqxx E; case: eqP => // sz1; congr Arr0.
by case: m sz1 {E} => [|x [|y m]].
Qed.

End BroadcastFacts.

Section DoucetFacts.

Variable F : realFieldType.
Variable sqrtF : F -> option F.
Variable sd : nat.
Variable inv_jitter : F.
Variable measurement_model : 'M[F]_(1, sd).
Variable stationary_covariance : 'M[F]_sd.
Variable state_transition : F -> 'M[F]_sd.
Variable spatial_conditional :
  seq (input F) -> seq (seq (option F)) -> seq 'M[F]_(1, 1) * seq 'M[F]_1.
Variable kalman_filter :
  forall o, seq F -> seq 'cV[F]_o -> seq 'M[F]_o ->
  option (seq (seq bool)) -> bool -> F * (seq 'cV[F]_sd * seq 'M[F]_sd).
Variable rauch_tung_striebel_smoother :
  seq F -> seq 'cV[F]_sd -> seq 'M[F]_sd -> bool -> bool ->
  seq 'cV[F]_sd * seq 'M[F]_sd * seq 'M[F]_sd.
Variable temporal_conditional :
  seq (input F) -> seq (input F) -> seq 'cV[F]_sd -> seq 'M[F]_sd ->
  seq 'M[F]_sd -> seq 'cV[F]_sd * seq 'M[F]_sd.
Variable normal : int -> forall n, 'cV[F]_n.
Variable normal_batch : int -> nat -> nat -> forall n, seq (seq 'cV[F]_n).
Variable self : MarkovGP.t1 F sd.
Variable Xs : option (seq (input F)).
Variables (num_samps : nat) (seed : int).

Let site := BaseModel.pseudo_likelihood (MarkovGP.base self).
Let grid := MarkovGP.sample_grid self Xs.
Let Xcol := omap (map (fun x => [:: x])) grid.1.1.
Let predict_with :=
  MarkovGP.predict1 inv_jitter measurement_model spatial_conditional
    kalman_filter rauch_tung_striebel_smoother temporal_conditional
    self Xcol.
Let noise := normal_batch seed num_samps (size grid.1.2) 1%N.

(** The call up to its last line: the stacked smoothing outputs meet the
    prior samples and the posterior mean in [combine_samples]. *)
Lemma posterior_sample_combine post_mean post_var prior_samp lik_chol
    (smoothed : nat -> ndarray F) :
  let y_prior i :=
    MarkovGP.noisy_samples (gather 0 (nth [::] prior_samp i) grid.1.2)
      lik_chol (nth [::] noise i) in
  predict_with None = Some (post_mean, post_var) ->
  MarkovGP.prior_sample sqrtF measurement_model stationary_covariance
    state_transition normal self num_samps grid.1.1 seed = Some prior_samp ->
  all_some [seq cholesky sqrtF c | c <- GaussianDistribution.covariance site]
    = Some lik_chol ->
  size noise = size prior_samp ->
  (forall i, (i < size prior_samp)%N ->
     exists v,
       predict_with
         (Some (existT _ 1%N (y_prior i, GaussianDistribution.covariance site)))
       = Some (smoothed i, v)) ->
  MarkovGP.posterior_sample sqrtF inv_jitter measurement_model
    stationary_covariance state_transition spatial_conditional kalman_filter
    rauch_tung_striebel_smoother temporal_conditional normal normal_batch
    self Xs num_samps seed
  = MarkovGP.combine_samples grid.2 post_mean prior_samp
      [seq smoothed i | i <- iota 0 (size prior_samp)].
Proof.
move=> y_prior Epost Eprior Echol sznoise Esmooth.
rewrite /MarkovGP.posterior_sample.
move: Epost Eprior sznoise Esmooth.
rewrite /y_prior /predict_with /noise /Xcol /grid.
case: (MarkovGP.sample_grid self Xs) => [[Xu tr] te] /=.
move=> Epost Eprior sznoise Esmooth.
rewrite Epost Eprior Echol.
set ys := [seq _ | fe <- zip _ _].
set smooth := MarkovGP.smooth_prior_sample _ _ _ _ _ _ _ _.
have := @scan_map _ _ _ smooth (fun y => (smooth 0%N y).2)
          (fun _ _ => erefl) 0%N ys.
case: (scan _ _ _) => [cnt ss] /= ->.
have szys : size ys = size prior_samp.
  by rewrite /ys size_map size_zip size_map sznoise minnn.
rewrite (@all_some_eq_nth _ (Arr1 [::]) _
           [seq smoothed i | i <- iota 0 (size prior_samp)]) //.
  by rewrite size_map size_iota [RHS]size_map szys.
move=> i; rewrite size_map szys => lti.
rewrite (nth_map [::]) ?szys // (nth_map 0%N) ?size_iota // nth_iota // add0n.
rewrite /ys (nth_map ([::], [::])) ?size_zip ?size_map ?sznoise ?minnn //.
rewrite nth_zip ?size_map ?sznoise // (nth_map [::]) //.
by have [v /= ->] := Esmooth i lti.
Qed.

Variable prior_samp : seq (seq 'cV[F]_1).
Variable lik_chol : seq 'M[F]_1.

Let f_prior i := nth [::] prior_samp i.
Let y_prior i :=
  MarkovGP.noisy_samples (gather 0 (f_prior i) grid.1.2) lik_chol
    (nth [::] noise i).
Let S := size prior_samp.
Let result :=
  MarkovGP.posterior_sample sqrtF inv_jitter measurement_model
    stationary_covariance state_transition spatial_conditional
    kalman_filter rauch_tung_striebel_smoother temporal_conditional normal
    normal_batch self Xs num_samps seed.

Hypothesis Eprior :
  MarkovGP.prior_sample sqrtF measurement_model stationary_covariance
    state_transition normal self num_samps grid.1.1 seed = Some prior_samp.
Hypothesis Echol :
  all_some [seq cholesky sqrtF c | c <- GaussianDistribution.covariance site]
    = Some lik_chol.
Hypothesis sznoise : size noise = S.

(** One-dimensional means: row [i] pairs sample [i] with its own smoothing. *)
Lemma posterior_sample_rows post_mean post_var (smoothed : nat -> seq F) :
  predict_with None = Some (Arr1 post_mean, post_var) ->
  (forall i, (i < S)%N ->
     [/\ size (f_prior i) = size post_mean,
         size (smoothed i) = size post_mean &
         exists v,
           predict_with
             (Some (existT _ 1%N
                      (y_prior i, GaussianDistribution.covariance site)))
           = Some (Arr1 (smoothed i), v)]) ->
  result
  = Some [seq gather 0
                [seq (nth 0 (f_prior i) j) ord0 ord0
                     - nth 0 (smoothed i) j + nth 0 post_mean j
                | j <- iota 0 (size post_mean)]
                grid.2
         | i <- iota 0 S].
Proof.
move=> Epost Esm; set pm := post_mean; set pv := post_var; set sm := smoothed.
have szA : size [seq [seq x ord0 ord0 | x : 'cV[F]_1 <- f] | f <- prior_samp]
           = S by rewrite size_map.
have hA : (0 < S)%N ->
    size (head [::] [seq [seq x ord0 ord0 | x : 'cV[F]_1 <- f]
                    | f <- prior_samp]) = size (f_prior 0%N).
  by rewrite /S /f_prior; case: (prior_samp) => // f0 fs _ /=; rewrite size_map.
have hmap T (g : nat -> seq T) : (0 < S)%N ->
    head [::] [seq g i | i <- iota 0 S] = g 0%N.
  by case: (S).
rewrite /result.
rewrite (@posterior_sample_combine
           (Arr1 pm) pv prior_samp lik_chol (fun i => Arr1 (sm i))
           Epost Eprior Echol sznoise); first by move=> i /Esm [_ _].
rewrite /MarkovGP.combine_samples -/S.
case E: prior_samp => [|f0 fs]; first by rewrite /S E.
rewrite -E.
have S_gt0 : (0 < S)%N by rewrite /S E.
have szs : all (fun r => size r == size pm) [seq sm i | i <- iota 0 S].
  apply/allP => r /mapP [i Hi ->]; move: Hi.
  rewrite mem_iota add0n => /andP [_ lti].
  by have [_ -> _] := Esm i lti.
rewrite (map_comp (@Arr1 F) sm) (stack2_arr1 _ szs) ?size_map ?size_iota //.
rewrite [expand_dims _]/=.
have [szf0 szs0 _] := Esm 0%N S_gt0.
have szB : size [seq sm i | i <- iota 0 S] = S by rewrite size_map size_iota.
have hA' := hA S_gt0; rewrite szf0 in hA'.
have hB : size (head [::] [seq sm i | i <- iota 0 S]) = size pm.
  by rewrite hmap.
rewrite (broadcast2_same _ szA szB hA' hB).
set d := [seq _ | i <- iota 0 S].
have szd : size d = S by rewrite size_map size_iota.
have hd : size (head [::] d) = size pm.
  by rewrite /d hmap // size_map size_iota.
rewrite (broadcast2_row _ szd hd (erefl _)) /d.
congr Some; rewrite -map_comp; apply/eq_in_map => i.
rewrite mem_iota add0n => /andP [_ lti] /=; congr gather.
apply/eq_in_map => j; rewrite mem_iota add0n => /andP [_ ltj].
have [szf _ _] := Esm i lti.
rewrite (nth_map 0%N) ?size_iota // nth_iota // add0n.
rewrite (nth_map 0%N) ?size_iota // nth_iota // add0n.
rewrite (nth_map [::]) // (nth_map 0) ?szf //.
by rewrite (nth_map 0%N) ?size_iota // nth_iota.
Qed.

(** Zero-dimensional means: the stacked smoothing outputs run along the
    columns. *)
Lemma posterior_sample_single (post_mean : F) post_var (smoothed : nat -> F) :
  predict_with None = Some (Arr0 post_mean, post_var) ->
  (forall i, (i < S)%N ->
     size (f_prior i) = 1%N /\
     exists v,
       predict_with
         (Some (existT _ 1%N
                  (y_prior i, GaussianDistribution.covariance site)))
       = Some (Arr0 (smoothed i), v)) ->
  result
  = Some [seq gather 0
                [seq (nth 0 (f_prior i) 0) ord0 ord0 - smoothed j + post_mean
                | j <- iota 0 S]
                grid.2
         | i <- iota 0 S].
Proof.
move=> Epost Esm; set pm := post_mean; set pv := post_var; set sm := smoothed.
have szA : size [seq [seq x ord0 ord0 | x : 'cV[F]_1 <- f] | f <- prior_samp]
           = S by rewrite size_map.
have hA : (0 < S)%N ->
    size (head [::] [seq [seq x ord0 ord0 | x : 'cV[F]_1 <- f]
                    | f <- prior_samp]) = size (f_prior 0%N).
  by rewrite /S /f_prior; case: (prior_samp) => // f0 fs _ /=; rewrite size_map.
have hmap T (g : nat -> seq T) : (0 < S)%N ->
    head [::] [seq g i | i <- iota 0 S] = g 0%N.
  by case: (S).
rewrite /result.
rewrite (@posterior_sample_combine
           (Arr0 pm) pv prior_samp lik_chol (fun i => Arr0 (sm i))
           Epost Eprior Echol sznoise); first by move=> i /Esm [_].
rewrite /MarkovGP.combine_samples -/S.
case E: prior_samp => [|f0 fs]; first by rewrite /S E.
rewrite -E.
have S_gt0 : (0 < S)%N by rewrite /S E.
rewrite (map_comp (@Arr0 F) sm) stack2_arr0 [expand_dims _]/=.
have [szf0 _] := Esm 0%N S_gt0.
have szB : size [seq sm i | i <- iota 0 S] = S by rewrite size_map size_iota.
have hA' := hA S_gt0; rewrite szf0 in hA'.
rewrite (broadcast2_col_row _ szA hA' szB).
set d := [seq _ | i <- iota 0 S].
have szd : size d = S by rewrite size_map size_iota.
have hd : size (head [::] d) = S by rewrite /d hmap // size_map size_iota.
rewrite (broadcast2_scalar _ _ szd hd) /d.
congr Some; rewrite -map_comp; apply/eq_in_map => i.
rewrite mem_iota add0n => /andP [_ lti] /=; congr gather.
apply/eq_in_map => j; rewrite mem_iota add0n => /andP [_ ltj].
rewrite (nth_map 0%N) ?size_iota // nth_iota // add0n.
rewrite (nth_map 0%N) ?size_iota // nth_iota // add0n.
have [szf _] := Esm i lti.
rewrite (nth_map [::]) // (nth_map 0) ?szf //.
by rewrite (nth_map 0%N) ?size_iota // nth_iota.
Qed.

End DoucetFacts.


Section ToySmoothingFacts.

Variable F : realFieldType.
Variable sqrtF : F -> option F.
Hypothesis sqrtF_4 : sqrtF 4 = Some 2.

Lemma cholesky_scalar n (a l : F) :
  sqrtF a = Some l -> cholesky sqrtF (a%:M : 'M[F]_n) = Some l%:M.
Proof.
move=> al; rewrite -!diag_const_mx; apply: cholesky_diag => i.
by rewrite !mxE.
Qed.

Lemma toy_noise_covariance dt :
  process_noise_covariance (toy_transition dt) 4%:M + (10 ^- 8) *: 1%:M
  = 4%:M :> 'M[F]_1.
Proof.
rewrite /process_noise_covariance /toy_transition tr_scalar_mx scalemx1.
rewrite -!scalar_mxM -raddfB -raddfD /=; congr (_%:M).
by field.
Qed.

Lemma toy_prior_sample :
  exists f,
    MarkovGP.prior_sample sqrtF 1%:M 4%:M (@toy_transition F) (@toy_normal F)
      (toy_smoothing F) 1 None 0 = Some [:: [:: f]].
Proof.
rewrite /MarkovGP.prior_sample [MarkovGP.dt _]/= [map _ _]/=.
rewrite [scan _ _ _]/= toy_noise_covariance !mxE eqxx mulr1n sqrtF_4 /=.
by eexists.
Qed.

Lemma toy_lik_chol :
  all_some [seq cholesky sqrtF c | c <- [:: 4%:M : 'M[F]_1]] = Some [:: 2%:M].
Proof.
have -> : [seq cholesky sqrtF c | c <- [:: 4%:M : 'M[F]_1]]
          = [:: cholesky sqrtF 4%:M] by [].
by rewrite (cholesky_scalar _ sqrtF_4).
Qed.

End ToySmoothingFacts.

Section ToySmoothingFacts2.

Variable F : realFieldType.
Variable sqrtF : F -> option F.
Hypothesis sqrtF_4 : sqrtF 4 = Some 2.

Lemma toy_prior_sample_pair :
  exists f,
    MarkovGP.prior_sample sqrtF 1%:M 4%:M (@toy_transition F) (@toy_normal F)
      (toy_smoothing F) 2 None 0 = Some [:: [:: f]; [:: f]].
Proof.
rewrite /MarkovGP.prior_sample [MarkovGP.dt _]/= [map _ _]/=.
rewrite [scan _ _ _]/= toy_noise_covariance !mxE eqxx mulr1n sqrtF_4 /=.
by eexists.
Qed.

Lemma toy_prior_sample2 :
  exists f0 f1,
    MarkovGP.prior_sample sqrtF 1%:M 4%:M (@toy_transition F) (@toy_normal F)
      (toy_smoothing2 F) 2 None 0 = Some [:: [:: f0; f1]; [:: f0; f1]].
Proof.
rewrite /MarkovGP.prior_sample [MarkovGP.dt _]/= [map _ _]/=.
rewrite [scan _ _ _]/= !toy_noise_covariance !mxE eqxx mulr1n sqrtF_4 /=.
by eexists; eexists.
Qed.

End ToySmoothingFacts2.

Section ToyPredictFacts.

Variable F : realFieldType.

Notation toy_predict_on self Xcol :=
  (MarkovGP.predict1 (0 : F) 1%:M (@toy_spatial_conditional F)
     (@toy_filter F) (@toy_smoother F) (@toy_temporal_conditional F)
     self Xcol).

Lemma toy_predict_some (self : MarkovGP.t1 F 1) Xcol o (y : seq 'cV[F]_o) v :
  MarkovGP.spatio_temporal self = false ->
  exists pv,
    toy_predict_on self Xcol (Some (existT _ o (y, v)))
    = Some (MarkovGP.squeeze_mean
              [seq (const_mx (\sum_i m i ord0) : 'cV[F]_1) | m : 'cV[F]_o <- y],
            pv).
Proof.
move=> st; rewrite /MarkovGP.predict1 /MarkovGP.predict st /= -!map_comp.
eexists; congr (Some (MarkovGP.squeeze_mean _, _)).
by apply: eq_map => m /=; rewrite mul1mx.
Qed.

Lemma toy_predict_stored (self : MarkovGP.t1 F 1) Xcol :
  MarkovGP.spatio_temporal self = false ->
  exists pv,
    toy_predict_on self Xcol None
    = Some (MarkovGP.squeeze_mean
              [seq (const_mx (\sum_i m i ord0) : 'cV[F]_1)
              | m : 'cV[F]_1 <- GaussianDistribution.mean
                       (BaseModel.pseudo_likelihood (MarkovGP.base self))],
            pv).
Proof.
move=> st; rewrite /MarkovGP.predict1 /MarkovGP.predict.
rewrite /MarkovGP.compute_full_pseudo_lik st /= -!map_comp.
eexists; congr (Some (MarkovGP.squeeze_mean _, _)).
by apply: eq_map => m /=; rewrite mul1mx.
Qed.

Lemma toy_row (f : 'cV[F]_1) (c : F) :
  f ord0 ord0
  - \sum_(i < 1) MarkovGP.noisy_sample f 2%:M (const_mx c) i ord0
  + \sum_(i < 1) (const_mx 3 : 'cV[F]_1) i ord0 = 3 - 2 * c.
Proof.
rewrite !big_ord1 /MarkovGP.noisy_sample !mxE big_ord1 !mxE eqxx mulr1n.
by rewrite opprD addrA subrr sub0r addrC.
Qed.

End ToyPredictFacts.

Section ToySqueezeFacts.
Variable F : realFieldType.

Lemma toy_squeeze o (y : seq 'cV[F]_o) :
  MarkovGP.squeeze_mean
    [seq (const_mx (\sum_i m i ord0) : 'cV[F]_1) | m : 'cV[F]_o <- y]
  = if size y == 1%N then Arr0 (\sum_i (nth 0 y 0) i ord0)
    else Arr1 (toy_predict_mean y).
Proof.
rewrite squeeze_mean1 size_map; case: eqP => [sz1|_].
  by rewrite (nth_map 0) ?sz1 // mxE.
by rewrite -map_comp; congr Arr1; apply: eq_map => m /=; rewrite mxE.
Qed.

Lemma three_minus_two : 3 - 2 = 1 :> F.
Proof. by rewrite [3]mulrS addrK. Qed.

End ToySqueezeFacts.

Lemma sort_01 : sort <=%R [:: 0; 1 : rat] = [:: 0; 1].
Proof. by apply: sorted_sort; [exact: le_trans|]. Qed.

Lemma toy_sample_grid :
  MarkovGP.sample_grid (toy_smoothing2 rat) (Some [:: [:: 1]])
  = (Some [:: 0; 1], [:: 0; 1]%N, [:: 1%N]).
Proof.
by rewrite /MarkovGP.sample_grid /np_unique [flatten _]/= [undup _]/= sort_01.
Qed.

Lemma toy_prior_sample_grid :
  exists f0 f1,
    MarkovGP.prior_sample rat_sqrt 1%:M 4%:M (@toy_transition rat)
      (@toy_normal rat) (toy_smoothing2 rat) 2 (Some [:: 0; 1]) 0
    = Some [:: [:: f0; f1]; [:: f0; f1]].
Proof.
rewrite /MarkovGP.prior_sample sort_01 [np_diff _]/= [map _ _]/=.
rewrite [scan _ _ _]/= !toy_noise_covariance !mxE eqxx mulr1n rat_sqrt_4 /=.
by eexists; eexists.
Qed.


Section SinglePointFacts.

Variable F : realFieldType.

Lemma toy_smoothed (f : 'cV[F]_1) (c : F) :
  \sum_(i < 1) MarkovGP.noisy_sample f 2%:M (const_mx c) i ord0
  = f ord0 ord0 + 2 * c.
Proof.
by rewrite big_ord1 /MarkovGP.noisy_sample !mxE big_ord1 !mxE eqxx mulr1n.
Qed.

Lemma single_point_rows_differ (x : F) :
  x - (x + 2 * 1%:R) + 3 != x - (x + 2 * 0%:R) + 3.
Proof.
rewrite (inj_eq (addIr _)) (inj_eq (addrI _)) eqr_opp (inj_eq (addrI _)).
by rewrite mulr1 mulr0 pnatr_eq0.
Qed.

End SinglePointFacts.




(** C10.  [GP.predict(X)] returns the model as it received it.
    [SparseGP.predict(X)] returns the model that [update_posterior()] leaves:
    posterior mean, posterior variance and posterior covariance are replaced
    by what [sparse_gaussian_conditional] computes from the stored naturals,
    and nothing else changes. *)
Theorem predict_frame (F : realFieldType) (M : nat) gaussian_conditional
    sparse_gaussian_conditional sparse_conditional_post_to_data :
  (forall (self : GP.t F) Xs,
     (GP.predict gaussian_conditional self Xs).1 = self) /\
  (forall (self : SparseGP.t F M) Xs,
     let self' :=
       (SparseGP.predict sparse_gaussian_conditional
          sparse_conditional_post_to_data self Xs).1 in
     let base := GP.base (SparseGP.gp self) in
     let base' := GP.base (SparseGP.gp self') in
     let site := BaseModel.pseudo_likelihood base in
     let mc :=
       sparse_gaussian_conditional
         (GaussianDistribution.nat1 site) (GaussianDistribution.nat2 site)
         (BaseModel.X base) (SparseGP.Z self) in
     [/\ self' = SparseGP.update_posterior sparse_gaussian_conditional self,
         BaseModel.posterior_mean base'
           = [seq (mc.1 i ord0)%:M | i <- enum 'I_M],
         BaseModel.posterior_variance base'
           = [seq (mc.2 i i)%:M | i <- enum 'I_M],
         SparseGP.posterior_covariance self' = mc.2 &
         [/\ BaseModel.pseudo_likelihood base' = site,
             BaseModel.X base' = BaseModel.X base,
             BaseModel.Y base' = BaseModel.Y base,
             SparseGP.Z self' = SparseGP.Z self &
             GP.obs_ind (SparseGP.gp self') = GP.obs_ind (SparseGP.gp self)]]).
Proof.
split=> [self Xs|self Xs].
  by rewrite /GP.predict; case: (gaussian_conditional _ _ _ _).
rewrite /SparseGP.predict /SparseGP.update_posterior.
case: (sparse_gaussian_conditional _ _ _ _) => mean cov /=.
by case: (sparse_conditional_post_to_data _ _ _ _).
Qed.

(** A prediction that changes the stored posterior covariance. *)
Lemma sparse_predict_changes_state :
  SparseGP.posterior_covariance
    (SparseGP.predict toy_sparse_conditional toy_post_to_data toy_sgp [::]).1
  != SparseGP.posterior_covariance toy_sgp.
Proof.
by rewrite /SparseGP.predict /SparseGP.update_posterior /= eq_sym oner_neq0.
Qed.

(** * Further properties of the code *)

Section RoundTripFacts.

Variable F : realFieldType.
Variable sqrtF : F -> option F.
Hypothesis sqrtF_ok : sqrt_spec sqrtF.
Variable d : nat.

Lemma symmetric_invmx (A : 'M[F]_d) : symmetric A -> symmetric (invmx A).
Proof. by rewrite /symmetric trmx_inv => /eqP ->. Qed.

(** Reparametrising twice gives the arguments back. *)
Lemma reparametrise_involutive (p1 : seq 'cV[F]_d) (p2 : seq 'M[F]_d)
    r1 r2 s1 s2 :
  all (@symmetric F d) p2 ->
  GaussianDistribution.reparametrise sqrtF p1 p2 = Some (r1, r2) ->
  GaussianDistribution.reparametrise sqrtF r1 r2 = Some (s1, s2) ->
  s1 = p1 /\ s2 = p2.
Proof.
move=> p2sym E1 E2.
have [sz1 szr1 szr2 vals] := reparametrise_ok sqrtF_ok p2sym E1.
have r2sym : all (@symmetric F d) r2.
  apply/(all_nthP 0) => n; rewrite szr2 => ltn.
  have [_ _ ->] := vals n ltn.
  by apply: symmetric_invmx; rewrite (all_nthP 0 p2sym).
have [_ szs1 szs2 vals'] := reparametrise_ok sqrtF_ok r2sym E2.
split.
  apply: (@eq_from_nth _ 0); first by rewrite szs1 szr2 sz1.
  move=> n; rewrite szs1 szr2 => ltn.
  have ltn' : (n < size r2)%N by rewrite szr2.
  have [_ -> _] := vals' n ltn'.
  have [p2u -> ->] := vals n ltn.
  by rewrite invmxK mulKVmx.
apply: (@eq_from_nth _ 0); first by rewrite szs2 szr2.
move=> n; rewrite szs2 szr2 => ltn.
have ltn' : (n < size r2)%N by rewrite szr2.
have [_ _ ->] := vals' n ltn'.
by have [_ _ ->] := vals n ltn; rewrite invmxK.
Qed.

End RoundTripFacts.

(** X1.  A store that was filled by [update_mean_cov(mean, covariance)] with
    symmetric covariances is a fixed point of [update_nat_params] at its own
    naturals, and a store that was filled by [update_nat_params(nat1, nat2)]
    with symmetric precisions is a fixed point of [update_mean_cov] at its own
    mean and covariance: whenever the second update succeeds it returns the
    same four arrays. *)
Theorem store_round_trip (F : realFieldType) (sqrtF : F -> option F)
    (d : nat) :
  sqrt_spec sqrtF ->
  (forall self mean covariance g g',
     all (@symmetric F d) covariance ->
     GaussianDistribution.update_mean_cov sqrtF self mean covariance = Some g ->
     GaussianDistribution.update_nat_params sqrtF g
       (GaussianDistribution.nat1 g) (GaussianDistribution.nat2 g) = Some g' ->
     g' = g) /\
  (forall self nat1 nat2 g g',
     all (@symmetric F d) nat2 ->
     GaussianDistribution.update_nat_params sqrtF self nat1 nat2 = Some g ->
     GaussianDistribution.update_mean_cov sqrtF g
       (GaussianDistribution.mean g) (GaussianDistribution.covariance g)
       = Some g' ->
     g' = g).
Proof.
move=> sqrtF_ok; split=> [self m c g g' csym|self n1 n2 g g' nsym].
  rewrite /GaussianDistribution.update_mean_cov.
  case E: (GaussianDistribution.reparametrise _ _ _) => [[r1 r2]|] // [<-] /=.
  rewrite /GaussianDistribution.update_nat_params /=.
  case E': (GaussianDistribution.reparametrise _ _ _) => [[s1 s2]|] // [<-].
  by have [-> ->] := reparametrise_involutive sqrtF_ok csym E E'.
rewrite /GaussianDistribution.update_nat_params.
case E: (GaussianDistribution.reparametrise _ _ _) => [[r1 r2]|] // [<-] /=.
rewrite /GaussianDistribution.update_mean_cov /=.
case E': (GaussianDistribution.reparametrise _ _ _) => [[s1 s2]|] // [<-].
by have [-> ->] := reparametrise_involutive sqrtF_ok nsym E E'.
Qed.

Lemma reparametrise_one_rat (m : 'cV[rat]_1) :
  GaussianDistribution.reparametrise rat_sqrt [:: m] [:: 1%:M] =
  Some ([:: m], [:: 1%:M]).
Proof.
have sym1 : all (@symmetric rat 1) [:: 1%:M].
  by rewrite all_seq1 /symmetric tr_scalar_mx eqxx.
have ok1 : all (fun A => cho_factor rat_sqrt A : bool) [:: 1%:M : 'M[rat]_1].
  by rewrite all_seq1 (cho_factor_scalar _ rat_sqrt_1).
rewrite (@reparametrise_val _ _ rat_sqrt_ok 1 [:: m] [:: 1%:M] (erefl _) sym1 ok1).
by rewrite [zip _ _]/= [map _ _]/= [map _ [:: 1%:M]]/= invmx1 mul1mx.
Qed.

Lemma store_round_trip_witness :
  let g0 : GaussianDistribution.t rat 1 :=
    GaussianDistribution.mk [::] [::] [::] [::] in
  let g := GaussianDistribution.mk [:: const_mx 3] [:: 1%:M]
             [:: const_mx 3] [:: 1%:M] in
  GaussianDistribution.update_mean_cov rat_sqrt g0 [:: const_mx 3] [:: 1%:M]
    = Some g /\
  forall g',
    GaussianDistribution.update_nat_params rat_sqrt g
      (GaussianDistribution.nat1 g) (GaussianDistribution.nat2 g) = Some g' ->
    g' = g.
Proof.
move=> g0 g.
have sym1 : all (@symmetric rat 1) [:: 1%:M].
  by rewrite all_seq1 /symmetric tr_scalar_mx eqxx.
have E : GaussianDistribution.update_mean_cov rat_sqrt g0 [:: const_mx 3]
           [:: 1%:M] = Some g.
  by rewrite /GaussianDistribution.update_mean_cov reparametrise_one_rat.
split=> // g'.
exact: (proj1 (store_round_trip 1 rat_sqrt_ok) g0 _ _ g g' sym1 E).
Defined.

Section InitialNaturals.

Variable F : realFieldType.
Variable sqrtF : F -> option F.
Hypothesis sqrtF_ok : sqrt_spec sqrtF.

Lemma invmx_e2 d : invmx (10 ^+ 2 *: 1%:M) = 10 ^- 2 *: 1%:M :> 'M[F]_d.
Proof. by rewrite !scalemx1 invmx_scalar. Qed.

Lemma symmetric_scale1 d (a : F) : symmetric (a *: 1%:M : 'M[F]_d).
Proof. by rewrite /symmetric scalemx1 tr_scalar_mx. Qed.

End InitialNaturals.

(** X2.  In a model that [BaseModel.__init__] has built, every site starts
    with the naturals [nat1 = 0] and [nat2 = 1e-2 * I], and the store is
    consistent with its zero means and covariances [1e2 * I]. *)
Theorem initial_naturals (F : realFieldType) (sqrtF : F -> option F)
    (e q : nat) (independent : bool) X Y
    (b : BaseModel.t F e q (BaseModel.pseudo_lik_size e q independent)) :
  sqrt_spec sqrtF ->
  BaseModel.init sqrtF q independent X Y = Some b ->
  let site := BaseModel.pseudo_likelihood b in
  [/\ GaussianDistribution.nat1 site = nseq (size X) 0,
      GaussianDistribution.nat2 site = nseq (size X) (10 ^- 2 *: 1%:M) &
      GaussianDistribution.dual_consistent site].
Proof.
move=> sqrtF_ok; rewrite /BaseModel.init.
case E: (GaussianDistribution.init _ _ _) => [site|] // [<-] /=.
have [Em Ec Er] := GaussianDistribution_init_fields E.
have csym : all (@symmetric F _)
    (nseq (size X) (10 ^+ 2 *: 1%:M
                    : 'M[F]_(BaseModel.pseudo_lik_size e q independent))).
  by apply/allP => A /nseqP [-> _]; apply: symmetric_scale1.
have [_ sz1 sz2 vals] := reparametrise_ok sqrtF_ok csym Er.
rewrite size_nseq in sz1 sz2 vals.
have E1 : GaussianDistribution.nat1 site = nseq (size X) 0.
  apply: (@eq_from_nth _ 0); first by rewrite sz1 size_nseq.
  move=> n; rewrite sz1 => ltn; have [_ -> _] := vals n ltn.
  by rewrite !nth_nseq ltn mulmx0.
have E2 : GaussianDistribution.nat2 site = nseq (size X) (10 ^- 2 *: 1%:M).
  apply: (@eq_from_nth _ 0); first by rewrite sz2 size_nseq.
  move=> n; rewrite sz2 => ltn; have [_ _ ->] := vals n ltn.
  by rewrite !nth_nseq ltn invmx_e2.
split=> //; rewrite /GaussianDistribution.dual_consistent Em Ec E1 E2.
rewrite !size_nseq; split=> // n ltn; rewrite !nth_nseq ltn mulmx0.
have [Au _ _] := vals n ltn; rewrite nth_nseq ltn in Au.
by rewrite -invmx_e2 mulmxV.
Qed.

Lemma initial_naturals_witness :
  exists b : BaseModel.t rat 1 1 (BaseModel.pseudo_lik_size 1 1 false),
    BaseModel.init rat_sqrt 1 false [:: [:: 0]] [:: const_mx (Some 1)]
      = Some b /\
    GaussianDistribution.nat2 (BaseModel.pseudo_likelihood b)
      = nseq 1 (10 ^- 2 *: 1%:M).
Proof.
have [b E] := BaseModel_init_succeeds rat_sqrt_ok 1 false [:: [:: 0]]
                [:: (const_mx (Some 1) : 'rV[option rat]_1)] rat_sqrt_e2.
exists b; split; first exact: E.
by have [_ ->] := initial_naturals rat_sqrt_ok E.
Defined.

Section ScatterFacts.

Variable T : Type.
Variable x0 : T.

Let write (a : seq T) (iv : nat * T) :=
  if (iv.1 < size a)%N then set_nth x0 a iv.1 iv.2 else a.

Lemma size_write a iv : size (write a iv) = size a.
Proof.
rewrite /write; case: ifP => // lti.
by rewrite size_set_nth; apply/maxn_idPr.
Qed.

Lemma scatter_fold (a : seq T) (idx : seq nat) (y : seq T) :
  size y = size idx -> uniq idx -> all (fun i => i < size a)%N idx ->
  let r := foldl write a (zip idx y) in
  [/\ size r = size a,
      forall j, (j < size idx)%N -> nth x0 r (nth 0%N idx j) = nth x0 y j &
      forall k, k \notin idx -> nth x0 r k = nth x0 a k].
Proof.
elim: idx y a => [|i idx IH] [|v y] a //= [szy] /andP [i_notin uq].
case/andP => lti inr.
have sza : size (write a (i, v)) = size a by apply: size_write.
have inr' : all (fun k => k < size (write a (i, v)))%N idx by rewrite sza.
have [szr hit miss] := IH y (write a (i, v)) szy uq inr'.
have Ew k : nth x0 (write a (i, v)) k = if k == i then v else nth x0 a k.
  by rewrite /write /= lti nth_set_nth.
split=> [|[|j] //=|k]; first by rewrite szr.
- by move=> _; rewrite miss // Ew eqxx.
- by rewrite ltnS; apply: hit.
by rewrite inE negb_or => /andP [/negPf ki k_notin]; rewrite miss // Ew ki.
Qed.

Lemma index_update_val (a : seq T) (idx : seq nat) (y : seq T) :
  size y = size idx -> uniq idx -> all (fun i => i < size a)%N idx ->
  exists r,
    [/\ index_update x0 a idx y = Some r, size r = size a,
        forall j, (j < size idx)%N -> nth x0 r (nth 0%N idx j) = nth x0 y j &
        forall k, k \notin idx -> nth x0 r k = nth x0 a k].
Proof.
move=> szy uq inr; rewrite /index_update szy eqxx.
have [szr hit miss] := scatter_fold szy uq inr.
by eexists; split; first by reflexivity.
Qed.

End ScatterFacts.

(** X3.  [BaseModel.group_natural_params(nat1, nat2, batch_ind)] passes its
    arguments on when there is no [batch_ind] or when [batch_ind] has
    [num_data] entries (whatever their order).  For a shorter [batch_ind] of
    distinct positions within the store it returns the stored naturals with
    row [j] of the arguments written at position [batch_ind[j]], and every
    other position as stored. *)
Theorem scatter_natural_params (F : realFieldType) (e q p : nat)
    (self : BaseModel.t F e q p) nat1 nat2 :
  let site := BaseModel.pseudo_likelihood self in
  let old1 := GaussianDistribution.nat1 site in
  let old2 := GaussianDistribution.nat2 site in
  BaseModel.group_natural_params self nat1 nat2 None = Some (nat1, nat2) /\
  (forall batch_ind, size batch_ind = BaseModel.num_data self ->
     BaseModel.group_natural_params self nat1 nat2 (Some batch_ind)
       = Some (nat1, nat2)) /\
  (forall batch_ind,
     size batch_ind != BaseModel.num_data self ->
     size nat1 = size batch_ind -> size nat2 = size batch_ind ->
     uniq batch_ind ->
     all (fun i => (i < size old1)%N && (i < size old2)%N) batch_ind ->
     exists r1 r2,
       [/\ BaseModel.group_natural_params self nat1 nat2 (Some batch_ind)
             = Some (r1, r2),
           size r1 = size old1 /\ size r2 = size old2,
           forall j, (j < size batch_ind)%N ->
             nth 0 r1 (nth 0%N batch_ind j) = nth 0 nat1 j /\
             nth 0 r2 (nth 0%N batch_ind j) = nth 0 nat2 j &
           forall k, k \notin batch_ind ->
             nth 0 r1 k = nth 0 old1 k /\ nth 0 r2 k = nth 0 old2 k]).
Proof.
move=> site old1 old2; split=> //; split=> [batch_ind szb|batch_ind].
  by rewrite /BaseModel.group_natural_params szb eqxx.
move=> szb sz1 sz2 uq inr; rewrite /BaseModel.group_natural_params szb.
have inr1 : all (fun i => i < size old1)%N batch_ind.
  by apply: sub_all inr => i /andP [].
have inr2 : all (fun i => i < size old2)%N batch_ind.
  by apply: sub_all inr => i /andP [].
have [r1 [-> szr1 hit1 miss1]] := index_update_val 0 sz1 uq inr1.
have [r2 [-> szr2 hit2 miss2]] := index_update_val 0 sz2 uq inr2.
exists r1, r2; split=> // [j ltj|k k_notin].
  by rewrite hit1 // hit2.
by rewrite miss1 // miss2.
Qed.

Lemma scatter_natural_params_witness :
  exists r1 r2,
    BaseModel.group_natural_params toy_dense_base
      [:: const_mx 7] [:: 7%:M] (Some [:: 1%N]) = Some (r1, r2) /\
    nth 0 r1 1 = const_mx 7 /\ nth 0 r1 0 = const_mx (3 / 5).
Proof.
have [_ [_ /(_ [:: 1%N] isT (erefl _) (erefl _) isT isT)]] :=
  @scatter_natural_params rat 1 1 1 toy_dense_base [:: const_mx 7] [:: 7%:M].
case=> r1 [r2 [E _ /(_ 0%N isT) [hit _] /(_ 0%N isT) [miss _]]].
by exists r1, r2.
Defined.

Section GatherFacts.

Variable T : Type.
Variable x0 : T.

Lemma gather_iota (a : seq T) : gather x0 a (iota 0 (size a)) = a.
Proof.
apply: (@eq_from_nth _ x0); rewrite /gather size_map size_iota // => i lti.
rewrite (nth_map 0%N) ?size_iota // nth_iota // add0n.
by congr (nth _ _ _); apply/minn_idPl; rewrite -ltnS prednK // (leq_ltn_trans _ lti).
Qed.

Lemma gather_gather_iota (a : seq T) (b : seq nat) :
  gather x0 a (gather 0%N (iota 0 (size a)) b) = gather x0 a b.
Proof.
rewrite /gather -map_comp; apply: eq_map => i /=; rewrite size_iota.
case: a => [|x a]; first by rewrite !nth_nil.
by rewrite [size _]/= [_.-1]/= nth_iota ?add0n ?ltnS ?geq_minr // -minnA minnn.
Qed.

End GatherFacts.

(** X4.  In a model whose [ind] is [arange(num_data)] and whose posterior
    arrays have [num_data] entries (as [BaseModel.__init__] leaves them),
    [conditional_posterior_to_data()] returns the stored posterior mean and
    variance, [conditional_posterior_to_data(batch_ind)] their rows at
    [batch_ind], and [conditional_data_to_posterior] maps either result to
    itself. *)
Theorem posterior_projection (F : realFieldType) (e q p : nat)
    (self : BaseModel.t F e q p) :
  let N := BaseModel.num_data self in
  BaseModel.ind self = iota 0 N ->
  size (BaseModel.posterior_mean self) = N ->
  size (BaseModel.posterior_variance self) = N ->
  BaseModel.conditional_posterior_to_data self None None None
    = (BaseModel.posterior_mean self, BaseModel.posterior_variance self) /\
  forall batch_ind,
    let r :=
      BaseModel.conditional_posterior_to_data self (Some batch_ind) None None in
    r = (gather 0 (BaseModel.posterior_mean self) batch_ind,
         gather 0 (BaseModel.posterior_variance self) batch_ind) /\
    BaseModel.conditional_data_to_posterior self r.1 r.2 = r.
Proof.
move=> N Eind szm szv; rewrite /BaseModel.conditional_posterior_to_data Eind.
have G1 b : gather 0 (BaseModel.posterior_mean self) (gather 0%N (iota 0 N) b)
            = gather 0 (BaseModel.posterior_mean self) b.
  by rewrite -szm gather_gather_iota.
have G2 b :
    gather 0 (BaseModel.posterior_variance self) (gather 0%N (iota 0 N) b)
    = gather 0 (BaseModel.posterior_variance self) b.
  by rewrite -szv gather_gather_iota.
rewrite -/N !G1 !G2; split; first by rewrite -{1}szm -{1}szv !gather_iota.
by move=> batch_ind; rewrite !G1 !G2.
Qed.

Lemma posterior_projection_witness :
  BaseModel.conditional_posterior_to_data toy_dense_base None None None
    = ([:: 0; 0], [:: 1%:M; 1%:M]).
Proof.
by have [-> _] :=
  @posterior_projection rat 1 1 1 toy_dense_base (erefl _) (erefl _) (erefl _).
Defined.

Section DensePriorFacts.

Variable F : realFieldType.
Variable sqrtF : F -> option F.
Hypothesis sqrtF_ok : sqrt_spec sqrtF.

Lemma zip_nseq T U (c : T) (s : seq U) :
  zip (nseq (size s) c) s = [seq (c, x) | x <- s].
Proof. by elim: s => [|x s IH] //=; rewrite IH. Qed.

Lemma kernel_matrix_sym (kernel : input F -> input F -> F) n Xs :
  (forall x y, kernel x y = kernel y x) ->
  (GP.kernel_matrix kernel n Xs)^T = GP.kernel_matrix kernel n Xs.
Proof. by move=> ksym; apply/matrixP => i j; rewrite !mxE ksym. Qed.

Lemma toy_white_gram :
  GP.kernel_matrix (@toy_white_kernel F) 2 [:: [:: 0]; [:: 1]]
  + (10 ^- 12) *: 1%:M = 4%:M.
Proof.
have E01 : ([:: 0] == [:: 1 : F]) = false.
  by rewrite eqseq_cons eq_sym oner_eq0.
have E10 : ([:: 1] == [:: 0 : F]) = false by rewrite eqseq_cons oner_eq0.
apply/matrixP => i j; rewrite !mxE /toy_white_kernel.
case: i => [[|[|i]] lti] //; case: j => [[|[|j]] ltj] //=;
  by rewrite ?eqxx ?E01 ?E10 ?mulr1n ?mulr0n ?mulr1 ?mulr0 ?subrK ?addr0.
Qed.

End DensePriorFacts.

(** X5.  [GP.prior_sample(num_samps, X, seed)] with a symmetric kernel: when
    the Cholesky factorisation of [K + 1e-12 * I] succeeds with factor [L],
    the call returns [num_samps] samples, sample [s] being [L] times draw [s]
    of the standard normal array, where [L] is lower triangular with a
    positive diagonal and [L L^T = K + 1e-12 * I]; when the factorisation
    fails there is no sample. *)
Theorem dense_prior_sample (F : realFieldType) (sqrtF : F -> option F)
    (kernel : input F -> input F -> F) normal_array
    (self : GP.t F) num_samps Xs seed :
  sqrt_spec sqrtF ->
  (forall x y, kernel x y = kernel y x) ->
  let X' := if Xs is Some Xs then Xs else BaseModel.X (GP.base self) in
  let N := size X' in
  let Kj : 'M[F]_N := GP.kernel_matrix kernel N X' + (10 ^- 12) *: 1%:M in
  (forall L, cholesky sqrtF Kj = Some L ->
     [/\ GP.prior_sample sqrtF kernel normal_array self num_samps Xs seed
         = Some [seq L *m normal_array seed num_samps N 1%N s
                | s <- iota 0 num_samps],
         is_trig_mx L, forall i, 0 < L i i & L *m L^T = Kj]) /\
  (cholesky sqrtF Kj = None ->
   GP.prior_sample sqrtF kernel normal_array self num_samps Xs seed = None).
Proof.
move=> sqrtF_ok ksym X' N Kj; rewrite /GP.prior_sample -/X' -/N -/Kj.
split=> [L EL|->] //; rewrite EL.
have Ksym : symmetric Kj.
  rewrite /symmetric /Kj linearD /= kernel_matrix_sym // scalemx1.
  by rewrite tr_scalar_mx.
have [Ltrig Lpos LL] := cholesky_ok sqrtF_ok Ksym EL; split=> //.
congr Some; rewrite -{1}(size_iota 0 num_samps) -(size_map
  (normal_array seed num_samps N 1%N)) zip_nseq -!map_comp.
by apply: eq_map => s /=; rewrite add0r.
Qed.

Lemma dense_prior_sample_witness :
  GP.prior_sample rat_sqrt (@toy_white_kernel rat) (@toy_normal_array rat)
    toy_gp 1 (Some [:: [:: 0]; [:: 1]]) 0
  = Some [:: 2%:M *m const_mx 1].
Proof.
have ksym x y : @toy_white_kernel rat x y = toy_white_kernel y x.
  by rewrite /toy_white_kernel eq_sym.
have [H _] := @dense_prior_sample rat rat_sqrt _ (@toy_normal_array rat)
                toy_gp 1 (Some [:: [:: 0]; [:: 1]]) 0 rat_sqrt_ok ksym.
have EL : cholesky rat_sqrt
    (GP.kernel_matrix (@toy_white_kernel rat) 2 [:: [:: 0]; [:: 1]]
     + (10 ^- 12) *: 1%:M) = Some 2%:M.
  by rewrite toy_white_gram (cholesky_scalar _ rat_sqrt_4).
by have [-> _ _ _] := H _ EL.
Defined.

(** X6.  A successful [GP.update_posterior()] replaces the posterior mean and
    variance and nothing else.  Prediction and the log-likelihood do not read
    the stored posterior, so they return the same values before and after it,
    and a second [update_posterior()] changes nothing. *)
Theorem dense_update_posterior (F : realFieldType) (sqrtF : F -> option F)
    (lnF : F -> F) (LOG2PI : F) kernel gaussian_conditional
    (self self' : GP.t F) :
  GP.update_posterior gaussian_conditional self = Some self' ->
  [/\ BaseModel.pseudo_likelihood (GP.base self')
        = BaseModel.pseudo_likelihood (GP.base self) /\
      BaseModel.X (GP.base self') = BaseModel.X (GP.base self) /\
      GP.obs_ind self' = GP.obs_ind self,
      size (BaseModel.posterior_mean (GP.base self'))
        = BaseModel.num_data (GP.base self) /\
      size (BaseModel.posterior_variance (GP.base self'))
        = BaseModel.num_data (GP.base self),
      forall Xs, (GP.predict gaussian_conditional self' Xs).2
                 = (GP.predict gaussian_conditional self Xs).2,
      forall y v, GP.compute_log_lik sqrtF lnF LOG2PI kernel self' y v
                  = GP.compute_log_lik sqrtF lnF LOG2PI kernel self y v &
      GP.update_posterior gaussian_conditional self' = Some self'].
Proof.
rewrite /GP.update_posterior.
case Egc: (gaussian_conditional _ _ _ _) => [mean cov].
case: ifP => // /andP [/eqP szm /eqP szc] [<-] /=.
split.
- by [].
- by split; rewrite size_map.
- by move=> Xs; rewrite /GP.predict /=; case: (gaussian_conditional _ _ _ _).
- by move=> y v; rewrite /GP.compute_log_lik.
by rewrite /GP.update_posterior /= Egc szm szc !eqxx.
Qed.

Lemma dense_update_posterior_witness :
  exists self',
    GP.update_posterior (@toy_gaussian_conditional rat) toy_gp = Some self' /\
    GP.update_posterior (@toy_gaussian_conditional rat) self' = Some self'.
Proof.
have [self' E] : exists self',
    GP.update_posterior (@toy_gaussian_conditional rat) toy_gp = Some self'.
  by rewrite /GP.update_posterior /=; eexists.
exists self'; split; first exact: E.
by have [_ _ _ _] := dense_update_posterior rat_sqrt (fun=> 0) 0 toy_kernel E.
Defined.

(** X7.  [SparseGP.compute_log_lik(pseudo_y, pseudo_var)] with a symmetric
    kernel and a symmetric [pseudo_var]: when the Cholesky factorisation of
    [Kuu + pseudo_var] succeeds the call returns
    [log N(pseudo_y | 0, Kuu + pseudo_var)].  Unlike [GP.compute_log_lik] it
    has no defaults to fall back on: a call that leaves an argument out
    raises. *)
Theorem sparse_log_lik (F : realFieldType) (sqrtF : F -> option F)
    (lnF : F -> F) (LOG2PI : F) (kernel : input F -> input F -> F) (M : nat)
    (self : SparseGP.t F M) :
  sqrt_spec sqrtF ->
  (forall x y, 0 < x -> 0 < y -> lnF (x * y) = lnF x + lnF y) ->
  (forall x y, kernel x y = kernel y x) ->
  let Kuu : 'M[F]_M :=
    \matrix_(i, j) kernel (tnth (SparseGP.Z self) i)
                     (tnth (SparseGP.Z self) j) in
  (forall y v c,
     symmetric v -> cho_factor sqrtF (Kuu + v) = Some c ->
     SparseGP.compute_log_lik sqrtF kernel lnF LOG2PI self (Some y) (Some v)
       = Some (log_normaliser lnF LOG2PI y (Kuu + v))) /\
  (forall y, SparseGP.compute_log_lik sqrtF kernel lnF LOG2PI self y None
             = None) /\
  (forall v, SparseGP.compute_log_lik sqrtF kernel lnF LOG2PI self None v
             = None).
Proof.
move=> sqrtF_ok lnF_mul ksym Kuu; split=> [y v c vsym Ec|]; last first.
  by split=> [[y|]|v].
rewrite /SparseGP.compute_log_lik -/Kuu Ec.
have Ksym : symmetric (Kuu + v).
  rewrite /symmetric linearD /= (eqP vsym); apply/eqP; congr (_ + _).
  by apply/matrixP => i j; rewrite !mxE ksym.
case: c Ec => Ly low Ec; congr Some; rewrite /log_normaliser.
have [_ ->] := cho_solve_inv sqrtF_ok Ksym Ec.
rewrite (cho_factor_logdet sqrtF_ok lnF_mul Ksym Ec) mulr1.
by rewrite /np_sum !big_ord1 mulmxA.
Qed.

Lemma sparse_log_lik_witness :
  SparseGP.compute_log_lik rat_sqrt toy_kernel (fun=> 0) 1 toy_sgp
    (Some (const_mx 3)) (Some 5%:M)
  = Some (log_normaliser (fun=> 0) 1 (const_mx 3 : 'cV_1) (9%:M : 'M_1)).
Proof.
have lnF_mul (x y : rat) : 0 < x -> 0 < y -> (fun=> 0) (x * y) = 0 + 0 :> rat.
  by rewrite addr0.
have [H _] := @sparse_log_lik rat rat_sqrt (fun=> 0) 1 toy_kernel 1 toy_sgp
                rat_sqrt_ok lnF_mul toy_kernel_sym.
have EK : (\matrix_(i, j) toy_kernel (tnth (SparseGP.Z toy_sgp) i)
                            (tnth (SparseGP.Z toy_sgp) j)) + 5%:M
          = 9%:M :> 'M[rat]_1.
  apply/matrixP => i j; rewrite !mxE /toy_kernel !ord1 !eqxx !mulr1n.
  by rewrite -natrD.
have sym5 : symmetric (5%:M : 'M[rat]_1).
  by rewrite /symmetric tr_scalar_mx.
have Ec : cho_factor rat_sqrt
    ((\matrix_(i, j) toy_kernel (tnth (SparseGP.Z toy_sgp) i)
                       (tnth (SparseGP.Z toy_sgp) j)) + 5%:M)
    = Some (3%:M, false).
  by rewrite EK (cho_factor_scalar _ rat_sqrt_9).
by rewrite (H (const_mx 3) 5%:M _ sym5 Ec) EK.
Defined.

(** X8.  [SparseGP.update_posterior()] reads the site store, [X] and [Z]
    only, none of which it changes: a second call leaves the model as the
    first one left it, and [SparseGP.predict(X)], which starts with it,
    returns the same model and the same prediction when it is repeated. *)
Theorem sparse_update_idempotent (F : realFieldType) (M : nat)
    sparse_gaussian_conditional sparse_conditional_post_to_data
    (self : SparseGP.t F M) :
  let update := SparseGP.update_posterior sparse_gaussian_conditional in
  let predict :=
    SparseGP.predict sparse_gaussian_conditional
      sparse_conditional_post_to_data in
  update (update self) = update self /\
  forall Xs, predict (predict self Xs).1 Xs = predict self Xs.
Proof.
move=> update predict.
have Eu s : update (update s) = update s.
  rewrite /update [SparseGP.update_posterior _ s]/SparseGP.update_posterior.
  case E: (sparse_gaussian_conditional _ _ _ _) => [mean cov].
  by rewrite /SparseGP.update_posterior /= E.
split=> // Xs.
have Ep s : predict s Xs
    = (update s, (predict s Xs).2).
  rewrite /predict /SparseGP.predict -/(update s).
  by case: (sparse_conditional_post_to_data _ _ _ _).
have Ep2 s : (predict (update s) Xs).2 = (predict s Xs).2.
  by rewrite /predict /SparseGP.predict -!/(update _) Eu.
by rewrite [in LHS]Ep Ep /= Eu Ep2.
Qed.

Section GlobalSiteFacts.

Variable F : realFieldType.

Lemma flatten_singletons T (rows : seq (seq T)) :
  all (fun x => size x == 1%N) rows -> [seq [:: x] | x <- flatten rows] = rows.
Proof.
elim: rows => [|[|a [|b x]] rows IH] //= sz1.
by rewrite IH.
Qed.

Lemma sum_cols_diag M n (W : 'M[F]_(M, n)) (d : 'I_n -> 'M[F]_1) :
  \sum_j col j W *m d j *m (col j W)^T
  = W *m diag_mx (\row_j d j ord0 ord0) *m W^T.
Proof.
apply/matrixP => i k; rewrite summxE !mxE; apply: eq_bigr => j _.
rewrite !mxE big_ord1 !mxE big_ord1 !mxE.
rewrite (bigD1 j) //= big1 ?addr0 => [l /negPf lj|].
  by rewrite !mxE lj mulr0n mulr0.
by rewrite !mxE eqxx mulr1n.
Qed.

Lemma sum_cols_vec M n (W : 'M[F]_(M, n)) (v : 'I_n -> 'cV[F]_1) :
  \sum_j col j W *m v j = W *m (\col_j v j ord0 ord0).
Proof.
apply/matrixP => i k; rewrite summxE !mxE; apply: eq_bigr => j _.
by rewrite !mxE big_ord1 !mxE !ord1.
Qed.

Lemma sum_enum_ord (V : nmodType) n (f : 'I_n -> V) :
  \sum_(j <- Finite.enum 'I_n) f j = \sum_j f j.
Proof. by rewrite /index_enum unlock. Qed.

End GlobalSiteFacts.

(** X9.  [SparseGP.compute_global_pseudo_lik()] and
    [SparseGP.compute_full_pseudo_nat(obs_ind)] agree: with one-column inputs
    and a number of observed rows other than one, the global pseudo
    covariance is the inverse of the sum of the per-point full precisions
    plus [1e-12 * I] (plus the jitter of the utility inverse), and the global
    pseudo mean is that covariance times the sum of the per-point first
    naturals.  Where that matrix has no inverse the call fails. *)
Theorem global_pseudo_lik_sums_full (F : realFieldType)
    (sqrtF : F -> option F) (kernel : input F -> input F -> F) (M : nat)
    (inv_jitter : F) (self : SparseGP.t F M) n1 n2 :
  let obs := GP.obs_ind (SparseGP.gp self) in
  all (fun x => size x == 1%N) (GP.obs_X (SparseGP.gp self)) ->
  size obs != 1%N ->
  SparseGP.compute_full_pseudo_nat sqrtF kernel self obs = Some (n1, n2) ->
  let P := \sum_(A <- n2) A + (10 ^- 12 + inv_jitter)%:M in
  (P \in unitmx ->
   SparseGP.compute_global_pseudo_lik sqrtF kernel inv_jitter self
   = Some (invmx P *m \sum_(v <- n1) v, invmx P)) /\
  (P \notin unitmx ->
   SparseGP.compute_global_pseudo_lik sqrtF kernel inv_jitter self = None).
Proof.
move=> obs rows1 n_neq1.
rewrite /SparseGP.compute_full_pseudo_nat /SparseGP.compute_global_pseudo_lik.
rewrite -/obs /GP.obs_X -/obs flatten_singletons // {rows1}.
rewrite (negPf n_neq1).
have Esz : size (gather [::] (BaseModel.X (GP.base (SparseGP.gp self))) obs)
           = size obs by rewrite size_map.
rewrite Esz eqxx.
case: (solve _ _ _) => [Wuf|] // [<- <-].
rewrite !big_map !sum_enum_ord sum_cols_diag sum_cols_vec /inv.
rewrite -addrA scalemx1 -raddfD /= /GP.diag_squeeze.
by split=> [->|/negPf ->].
Qed.

Section GlobalSiteExample.

Variable F : realFieldType.
Variable sqrtF : F -> option F.
Variable kernel : input F -> input F -> F.

Lemma rank1_entry (w : 'cV[F]_1) (N : 'M[F]_1) :
  0 <= N ord0 ord0 -> 0 <= (w *m N *m w^T) ord0 ord0.
Proof.
move=> N_ge0; rewrite !mxE !big_ord1 !mxE big_ord1.
by rewrite mulrAC -expr2 mulr_ge0 ?sqr_ge0.
Qed.

(** With one inducing input, [compute_full_pseudo_nat] returns, and every
    full precision it returns has a non-negative entry. *)
Lemma SparseGP_compute_full_pseudo_nat_succeeds (self : SparseGP.t F 1)
    batch_ind l :
  let base := GP.base (SparseGP.gp self) in
  let z := tnth (SparseGP.Z self) ord0 in
  sqrtF (kernel z z) = Some l ->
  size (flatten (gather [::] (BaseModel.X base) batch_ind)) = size batch_ind ->
  (forall k, 0 <= nth 0 (GaussianDistribution.nat2
                           (BaseModel.pseudo_likelihood base)) k ord0 ord0) ->
  exists n1 n2,
    SparseGP.compute_full_pseudo_nat sqrtF kernel self batch_ind
      = Some (n1, n2) /\
    {in n2, forall P : 'M[F]_1, 0 <= P ord0 ord0}.
Proof.
move=> base z sq_z sz_obs nat2_ge0.
rewrite /SparseGP.compute_full_pseudo_nat.
set Kuu := (\matrix_(i, j) _ : 'M[F]_1).
have -> : Kuu = (kernel z z)%:M.
  by apply/matrixP => i j; rewrite !mxE !ord1 eqxx mulr1n.
rewrite /solve (cho_factor_scalar _ sq_z) /omap /obind /oapp.
rewrite size_map sz_obs eqxx.
eexists; eexists; split; first by reflexivity.
move=> P /mapP [j _ ->]; apply: rank1_entry.
exact: nth_gather_ge0.
Qed.

Lemma sum_nonneg_unit (n2 : seq 'M[F]_1) (jit : F) :
  0 <= jit -> {in n2, forall P : 'M[F]_1, 0 <= P ord0 ord0} ->
  \sum_(A <- n2) A + (10 ^- 12 + jit)%:M \in unitmx.
Proof.
move=> jit_ge0 n2_ge0; apply: unitmx11.
rewrite mxE [X in _ + X]mxE eqxx mulr1n.
apply: ltr_wpDl; last first.
  by apply: ltr_wpDr => //; rewrite invr_gt0 exprn_gt0.
rewrite summxE big_seq; apply: sumr_ge0 => A; exact: n2_ge0.
Qed.

End GlobalSiteExample.

Lemma global_pseudo_lik_sums_full_witness :
  exists n1 n2,
    SparseGP.compute_full_pseudo_nat rat_sqrt toy_kernel toy_sgp [:: 0; 1]%N
      = Some (n1, n2) /\
    SparseGP.compute_global_pseudo_lik rat_sqrt toy_kernel 0 toy_sgp
    = Some (invmx (\sum_(A <- n2) A + (10 ^- 12 + 0)%:M) *m \sum_(v <- n1) v,
            invmx (\sum_(A <- n2) A + (10 ^- 12 + 0)%:M)).
Proof.
have sq : rat_sqrt (toy_kernel (tnth (SparseGP.Z toy_sgp) ord0)
                      (tnth (SparseGP.Z toy_sgp) ord0)) = Some 2.
  by rewrite /toy_kernel eqxx rat_sqrt_4.
have [n1 [n2 [E n2_ge0]]] :=
  SparseGP_compute_full_pseudo_nat_succeeds (self := toy_sgp)
    (batch_ind := [:: 0; 1]%N) sq (erefl _) (@toy_nat2_ge0 _).
exists n1, n2; split; first exact: E.
have [H _] := @global_pseudo_lik_sums_full rat rat_sqrt toy_kernel 1 0
                toy_sgp n1 n2 isT isT E.
exact: (H (sum_nonneg_unit (lexx 0) n2_ge0)).
Defined.

Section GroupingCases.

Variable F : realFieldType.

Lemma max1_neq0 (x : F) : Num.max x 1 != 0.
Proof. by rewrite gt_eqF // lt_max ltr01 orbT. Qed.

Lemma max_2_1 : 2 = Num.max 2 1 :> F.
Proof. by rewrite max_l // ler1n. Qed.

End GroupingCases.

(** X10.  Two border cases of [SparseMarkovGP.group_natural_params], the
    data points of the update being those listed in [batch_ind] (all of them
    without [batch_ind]) and data point [batch_ind[j]] lying in the interval
    [self.ind[batch_ind[j]]].  An
    inducing interval without a data point in the update keeps its stored
    naturals, except that [1e-8 * I] is added to [nat2] (once more at every
    call).  An interval whose number of data points in the update equals
    [max(num_neighbours_k, 1)] forgets its stored naturals: it gets the sum of
    the contributions, and [1e-8 * I] on [nat2]. *)
Theorem grouping_border_cases (F : realFieldType) (sd q e : nat)
    (independent : bool) (self : SparseMarkovGP.t F sd q e independent)
    nat1_n nat2_n batch_ind :
  let ind := if batch_ind is Some batch_ind
             then gather 0%N (SparseMarkovGP.ind self) batch_ind
             else SparseMarkovGP.ind self in
  let site := SparseMarkovGP.pseudo_likelihood self in
  let old_nat1 := GaussianDistribution.nat1 site in
  let old_nat2 := GaussianDistribution.nat2 site in
  size nat1_n = size ind -> size nat2_n = size ind ->
  size old_nat2 = size old_nat1 ->
  size (SparseMarkovGP.num_neighbours self) = size old_nat1 ->
  exists nat1 nat2,
    SparseMarkovGP.group_natural_params self nat1_n nat2_n batch_ind
      = Some (nat1, nat2) /\
    forall k, (k < size old_nat1)%N ->
      (k \notin ind ->
       nth 0 nat1 k = nth 0 old_nat1 k /\
       nth 0 nat2 k = nth 0 old_nat2 k + (10 ^- 8) *: 1%:M) /\
      ((count_mem k ind)%:R
         = Num.max (nth 0 (SparseMarkovGP.num_neighbours self) k) 1 ->
       nth 0 nat1 k
         = \sum_(j < size ind | nth 0%N ind j == k) nth 0 nat1_n j /\
       nth 0 nat2 k
         = \sum_(j < size ind | nth 0%N ind j == k) nth 0 nat2_n j
           + (10 ^- 8) *: 1%:M).
Proof.
move=> ind site old1 old2 sz1 sz2 szo szn.
have [[nat1 nat2] E] := group_natural_params_returns sz1 sz2 szo szn.
exists nat1, nat2; split=> // k ltk.
have [_ _ /(_ k ltk) /= [-> ->]] := group_natural_params_val E.
rewrite -/ind; split=> [k_notin|->].
  have -> : count_mem k ind = 0%N by apply/count_memPn.
  rewrite mul0r subr0 !scale1r !big_pred0 ?add0r // => j.
    by apply/negP => /eqP Ej; rewrite -Ej mem_nth in k_notin.
  by apply/negP => /eqP Ej; rewrite -Ej mem_nth in k_notin.
by rewrite divff ?max1_neq0 // subrr !scale0r !addr0.
Qed.

Lemma grouping_border_cases_witness :
  exists nat1 nat2,
    SparseMarkovGP.group_natural_params toy_sparse
      [:: const_mx 3] [:: 3%:M] (Some [:: 2]%N) = Some (nat1, nat2) /\
    nth 0 nat1 0 = const_mx 1 /\ nth 0 nat1 1 = const_mx 3.
Proof.
have [nat1 [nat2 [E vals]]] :=
  @grouping_border_cases _ _ _ _ _ toy_sparse
    [:: const_mx 3] [:: 3%:M] (Some [:: 2]%N)
    (erefl _) (erefl _) (erefl _) (erefl _).
exists nat1, nat2; split=> //.
have [/(_ isT) [-> _] _] := vals 0%N isT.
have [_ /(_ (esym (maxxx _))) [-> _]] := vals 1%N isT.
by rewrite big_mkcond big_ord_recl big_ord0 /= addr0.
Defined.

Section DifferenceFacts.

Variable F : realFieldType.

Lemma np_diff_ge0 (a : seq F) :
  all (fun d => 0 <= d) (np_diff a) = sorted <=%O a.
Proof.
apply/(all_nthP 0)/(sortedP 0) => [diff i lti|srt i].
  have lti' : (i < (size a).-1)%N by rewrite -subn1 ltn_subRL add1n.
  have := diff i; rewrite size_np_diff => /(_ lti').
  by rewrite nth_np_diff // subr_ge0.
rewrite size_np_diff => lti; rewrite nth_np_diff // subr_ge0.
by apply: srt; rewrite -subn1 ltn_subRL add1n in lti.
Qed.

End DifferenceFacts.

(** X11.  In a model built by [SparseMarkovGP.__init__], every step of [dz]
    is non-negative exactly when every inducing input lies between the two
    sentinels [-1e10] and [1e10]. *)
Theorem inducing_steps_nonnegative (F : realFieldType)
    (sqrtF : F -> option F) (sd q e : nat) (independent : bool)
    (inv_jitter : F) input_admin (on_gpu : bool) set_z_stats X Y Z R parallel
    (self : SparseMarkovGP.t F sd q e independent) :
  SparseMarkovGP.init sqrtF sd q independent inv_jitter input_admin on_gpu
    set_z_stats X Y Z R parallel = Some self ->
  all (fun d => 0 <= d) (SparseMarkovGP.dz self)
  = all (fun z => (- 10 ^+ 10 <= z) && (z <= 10 ^+ 10)) Z.
Proof.
move=> /SparseMarkovGP_init_fields [[_ -> _ _] _].
by rewrite np_diff_ge0 sorted_augment.
Qed.

Lemma inducing_steps_nonnegative_witness :
  exists self,
    toy_init [:: 1; 0] = Some self /\
    all (fun d => 0 <= d) (SparseMarkovGP.dz self)
    = all (fun z : rat => (- 10 ^+ 10 <= z) && (z <= 10 ^+ 10)) [:: 1; 0].
Proof.
have [self E] := toy_init_succeeds [:: 1; 0]; exists self; split.
  exact: E.
exact: (inducing_steps_nonnegative E).
Defined.

Section UniqueFacts.

Variable F : realFieldType.

Lemma np_unique_sorted (a : seq F) : sorted <%O (np_unique a).1.
Proof. by rewrite /np_unique /= sort_lt_sorted undup_uniq. Qed.

(** The inverse indices of [np.unique] lead back to the entries. *)
Lemma gather_unique (a b : seq F) :
  {subset b <= a} ->
  gather 0 (np_unique a).1 [seq index x (np_unique a).1 | x <- b] = b.
Proof.
move=> sub_ba; rewrite /np_unique /= /gather -map_comp.
rewrite -[RHS]map_id; apply/eq_in_map => x /sub_ba x_in_a /=.
have x_in_u : x \in sort <=%O (undup a) by rewrite mem_sort mem_undup.
have lt_ix := x_in_u; rewrite -index_mem in lt_ix.
have /minn_idPl -> : (index x (sort <=%O (undup a))
                      <= (size (sort <=%O (undup a))).-1)%N.
  by rewrite -ltnS prednK // (leq_ltn_trans _ lt_ix).
exact: nth_index.
Qed.

End UniqueFacts.

(** X12.  The grid of [posterior_sample(X, ...)].  Without [X] the training
    inputs are the grid, and training and test positions are both
    [arange(num_data)].  With [X], for one-column inputs, the grid is the
    strictly increasing list of the distinct training and test inputs, the
    grid read at [train_ind] gives the training inputs back in their order,
    and the grid read at [test_ind] gives [X] back. *)
Theorem sampling_grid_positions (F : realFieldType) (sd : nat)
    (self : MarkovGP.t1 F sd) :
  let N := BaseModel.num_data (MarkovGP.base self) in
  let Xtrain := flatten (BaseModel.X (MarkovGP.base self)) in
  MarkovGP.sample_grid self None = (None, iota 0 N, iota 0 N) /\
  (forall Xs, size Xtrain = N ->
     let grid := MarkovGP.sample_grid self (Some Xs) in
     exists g,
       [/\ grid.1.1 = Some g, sorted <%O g,
           gather 0 g grid.1.2 = Xtrain & gather 0 g grid.2 = flatten Xs]).
Proof.
move=> N Xtrain; split=> // Xs szX; rewrite /MarkovGP.sample_grid.
set a := flatten _.
have Ea : a = Xtrain ++ flatten Xs by rewrite /a flatten_cat.
have -> : np_unique a = ((np_unique a).1, [seq index x (np_unique a).1 | x <- a]).
  by [].
rewrite /=; exists (np_unique a).1.
set f := index^~ _.
have szf : size [seq f x | x <- Xtrain] = N by rewrite size_map.
have sub1 : {subset Xtrain <= a} by move=> x; rewrite Ea mem_cat => ->.
have sub2 : {subset flatten Xs <= a}.
  by move=> x; rewrite Ea mem_cat => ->; rewrite orbT.
split=> //; first exact: np_unique_sorted.
  by rewrite -/N -szf {2}Ea map_cat take_size_cat // gather_unique.
by rewrite -/N -szf {2}Ea map_cat drop_size_cat // gather_unique.
Qed.

Lemma sampling_grid_positions_witness :
  let grid :=
    MarkovGP.sample_grid (toy_smoothing rat) (Some [:: [:: 1]; [:: 0]]) in
  exists g,
    [/\ grid.1.1 = Some g, sorted <%O g,
        gather 0 g grid.1.2 = [:: 0] & gather 0 g grid.2 = [:: 1; 0]].
Proof.
exact: (proj2 (sampling_grid_positions (toy_smoothing rat))
          [:: [:: 1]; [:: 0]] (erefl _)).
Defined.

Section PriorSampleFacts.

Variable F : realFieldType.
Variable sqrtF : F -> option F.
Variables (sd q e : nat) (independent : bool).
Variable H : 'M[F]_(q, sd).
Variable Pinf : 'M[F]_sd.
Variable A : F -> 'M[F]_sd.
Variable normal : int -> forall n, 'cV[F]_n.
Variable seed : int.

Let jitter : 'M[F]_sd := (10 ^- 8) *: 1%:M.

Let sample_one_time_step (i : nat) (carry : option 'cV[F]_sd * nat)
    (inputs : 'M[F]_sd * 'M[F]_sd) :=
  let: (m, k) := carry in
  let: (A, Q) := inputs in
  let chol_Q := cholesky sqrtF (Q + jitter) in
  let gen := seed + (i * k)%:Z + k%:Z in
  let m :=
    if (m, chol_Q) is (Some m, Some chol_Q)
    then Some (A *m m + chol_Q *m normal gen sd) else None in
  let f := omap (mulmx H) m in
  ((m, k.+1), f).

Let draw_full_sample (xs : seq ('M[F]_sd * 'M[F]_sd))
    (carry_ : seq (option 'cV[F]_q) * nat) (_ : F) :=
  let: (f_sample_i, i) := carry_ in
  let gen0 := seed - 1 - i%:Z in
  let m0 := omap (fun c => c *m normal gen0 sd) (cholesky sqrtF Pinf) in
  let: (_, f_sample) := scan (sample_one_time_step i) (m0, 0%N) xs in
  ((f_sample, i.+1), f_sample).

Lemma prior_sample_scan (self : MarkovGP.t F sd q e independent) num_samps
    Xs :
  let dt := if Xs is Some Xs then 0 :: np_diff (sort <=%O Xs)
            else MarkovGP.dt self in
  let xs :=
    zip [seq A d | d <- dt]
        [seq process_noise_covariance (A d) Pinf | d <- dt] in
  MarkovGP.prior_sample sqrtF H Pinf A normal self num_samps Xs seed
  = all_some
      [seq all_some f
      | f <- (scan (draw_full_sample xs)
                ([seq Some f | f <- nseq (size dt) 0], 0%N)
                (nseq num_samps 0)).2].
Proof.
move=> dt xs; rewrite /MarkovGP.prior_sample -/dt -map_comp -/xs.
by case: (scan _ _ _).
Qed.

Variable LQ : nat -> 'M[F]_sd.
Variable Ak : nat -> 'M[F]_sd.

Let step (i k : nat) (m : 'cV[F]_sd) : 'cV[F]_sd :=
  Ak k *m m + LQ k *m normal (seed + (i * k)%:Z + k%:Z) sd.

Lemma time_steps_scan i xs m k0 :
  (forall j, (j < size xs)%N ->
     (nth (0, 0) xs j).1 = Ak (k0 + j) /\
     cholesky sqrtF ((nth (0, 0) xs j).2 + jitter) = Some (LQ (k0 + j))) ->
  (scan (sample_one_time_step i) (Some m, k0) xs).2
  = [seq Some (H *m x) | x <- prior_states (step i) m k0 (size xs)].
Proof.
elim: xs m k0 => [|[a Q] xs IH] m k0 //= ok.
have [/= Ea EQ] := ok 0%N isT; rewrite addn0 in Ea EQ; rewrite EQ Ea.
case Esc: (scan _ _ _) => [c ys] /=; congr (_ :: _).
have := IH (step i k0 m) k0.+1; rewrite Esc /= => -> // j ltj.
by have := ok j.+1 ltj; rewrite addnS addSn.
Qed.

Lemma all_some_Some T U (f : T -> U) (s : seq T) :
  all_some [seq Some (f x) | x <- s] = Some [seq f x | x <- s].
Proof. by elim: s => [|x s IH] //=; rewrite IH. Qed.

Lemma samples_scan xs LP c i0 n :
  cholesky sqrtF Pinf = Some LP ->
  (forall j, (j < size xs)%N ->
     (nth (0, 0) xs j).1 = Ak j /\
     cholesky sqrtF ((nth (0, 0) xs j).2 + jitter) = Some (LQ j)) ->
  (scan (draw_full_sample xs) (c, i0) (nseq n 0)).2
  = [seq [seq Some (H *m x)
         | x <- prior_states (step i)
                  (LP *m normal (seed - 1 - i%:Z) sd) 0 (size xs)]
    | i <- iota i0 n].
Proof.
move=> EP ok; elim: n c i0 => [|n IH] c i0 //=.
rewrite EP /=.
have := @time_steps_scan i0 xs (LP *m normal (seed - 1 - i0%:Z) sd) 0%N ok.
case: (scan (sample_one_time_step i0) _ _) => [c' f_sample] /= ->.
by have := IH
  [seq Some (H *m x)
  | x <- prior_states (step i0) (LP *m normal (seed - 1 - i0%:Z) sd) 0
           (size xs)] i0.+1; case: (scan _ _ _) => [c'' ys] /= ->.
Qed.

End PriorSampleFacts.

(** X13.  [MarkovGP.prior_sample(num_samps, X, seed)], where the Cholesky
    factorisations of [Pinf] (factor [LP]) and of every [Q_k + 1e-8 * I]
    (factor [LQ k]) succeed: the call returns [num_samps] samples of one value
    per time step, sample [i] being [H m_k] along the recursion
    [m_k = A_k m_(k-1) + LQ k @ normal(seed + i * k + k)] started from
    [LP @ normal(seed - 1 - i)].  At the first time step the generator is the
    one of [seed] in every sample. *)
Theorem markov_prior_sample_states (F : realFieldType)
    (sqrtF : F -> option F) (sd q e : nat) (independent : bool)
    (H : 'M[F]_(q, sd)) (Pinf : 'M[F]_sd) (A : F -> 'M[F]_sd)
    (normal : int -> forall n, 'cV[F]_n)
    (self : MarkovGP.t F sd q e independent) num_samps Xs seed LP LQ :
  let dt := if Xs is Some Xs then 0 :: np_diff (sort <=%O Xs)
            else MarkovGP.dt self in
  let step (i k : nat) (m : 'cV[F]_sd) :=
    A (nth 0 dt k) *m m + LQ k *m normal (seed + (i * k)%:Z + k%:Z) sd in
  cholesky sqrtF Pinf = Some LP ->
  (forall k, (k < size dt)%N ->
     cholesky sqrtF (process_noise_covariance (A (nth 0 dt k)) Pinf
                     + (10 ^- 8) *: 1%:M) = Some (LQ k)) ->
  MarkovGP.prior_sample sqrtF H Pinf A normal self num_samps Xs seed
  = Some [seq [seq H *m x
              | x <- prior_states (step i)
                       (LP *m normal (seed - 1 - i%:Z) sd) 0 (size dt)]
         | i <- iota 0 num_samps] /\
  forall i m, step i 0%N m = A (nth 0 dt 0) *m m + LQ 0%N *m normal seed sd.
Proof.
move=> dt step EP EQ; split; last first.
  by move=> i m; rewrite /step muln0 !addr0.
rewrite prior_sample_scan -/dt; set xs := zip _ _.
have szxs : size xs = size dt by rewrite size_zip !size_map minnn.
have ok j : (j < size xs)%N ->
    (nth (0, 0) xs j).1 = A (nth 0 dt j) /\
    cholesky sqrtF ((nth (0, 0) xs j).2 + (10 ^- 8) *: 1%:M) = Some (LQ j).
  rewrite szxs => ltj; rewrite nth_zip ?size_map //=.
  by rewrite !(nth_map 0) // EQ.
rewrite (samples_scan H normal seed (Ak := fun k => A (nth 0 dt k))
           _ 0%N num_samps EP ok) szxs.
rewrite -map_comp -[RHS]all_some_Some; congr all_some.
by apply: eq_map => i /=; rewrite all_some_Some.
Qed.

Lemma markov_prior_sample_states_witness :
  let step (i k : nat) (m : 'cV[rat]_1) :=
    toy_transition (nth 0 [:: 0] k) *m m
    + 2%:M *m toy_normal rat (0 + (i * k)%:Z + k%:Z) 1 in
  MarkovGP.prior_sample rat_sqrt 1%:M 4%:M (@toy_transition rat)
    (@toy_normal rat) (toy_smoothing rat) 1 None 0
  = Some [seq [seq 1%:M *m x
              | x <- prior_states (step i)
                       (2%:M *m toy_normal rat (0 - 1 - i%:Z) 1) 0 1]
         | i <- iota 0 1].
Proof.
move=> step.
have EP : cholesky rat_sqrt (4%:M : 'M[rat]_1) = Some 2%:M.
  exact: (cholesky_scalar _ rat_sqrt_4).
have EQ k : (k < size (MarkovGP.dt (toy_smoothing rat)))%N ->
    cholesky rat_sqrt
      (process_noise_covariance
         (toy_transition (nth 0 (MarkovGP.dt (toy_smoothing rat)) k)) 4%:M
       + (10 ^- 8) *: 1%:M) = Some ((fun=> 2%:M) k).
  by move=> _; rewrite toy_noise_covariance.
exact: (proj1 (@markov_prior_sample_states rat rat_sqrt 1 1 1 false 1%:M
                 4%:M (@toy_transition rat) (@toy_normal rat)
                 (toy_smoothing rat) 1 None 0 2%:M (fun=> 2%:M) EP EQ)).
Defined.

Section ToySiteFacts.

Variable F : realFieldType.

Lemma toy_smoothing_site_consistent :
  GaussianDistribution.dual_consistent (toy_smoothing_site F).
Proof.
split=> // [[|n]] //= _; split.
  rewrite mul_scalar_mx; apply/matrixP => i j; rewrite !mxE.
  by rewrite mulrCA divff ?mulr1 // pnatr_eq0.
by rewrite -scalar_mxM divff ?pnatr_eq0.
Qed.

End ToySiteFacts.

(** X14.  [MarkovGP.compute_full_pseudo_lik()] against
    [MarkovGP.compute_full_pseudo_nat(arange(num_data))], on a consistent
    site store with one entry per data point (and, in the spatio-temporal
    case, one row of inputs per data point).  In the temporal case the two
    are the stored mean and covariance and the stored naturals, exact
    inverses of each other.  In the spatio-temporal case the naturals are
    projected by the same [B] in both, and the pseudo covariance is the
    inverse of the projected precision plus [1e-12 * I] (plus the jitter of
    the utility inverse), the pseudo mean being that covariance times the
    projected [nat1]; where a projected precision has no such inverse the
    call fails. *)
Theorem full_pseudo_lik_and_nat (F : realFieldType) (sd q e : nat)
    (independent : bool) (inv_jitter : F) spatial_conditional
    (self : MarkovGP.t F sd q e independent) :
  let base := MarkovGP.base self in
  let site := BaseModel.pseudo_likelihood base in
  let N := BaseModel.num_data base in
  let all_ind := iota 0 N in
  size (GaussianDistribution.mean site) = N ->
  GaussianDistribution.dual_consistent site ->
  (MarkovGP.spatio_temporal self = false ->
   [/\ MarkovGP.compute_full_pseudo_lik inv_jitter spatial_conditional self
       = Some (existT _ _ (GaussianDistribution.mean site,
                            GaussianDistribution.covariance site)),
       MarkovGP.compute_full_pseudo_nat spatial_conditional self all_ind
       = existT _ _ (GaussianDistribution.nat1 site,
                     GaussianDistribution.nat2 site) &
       forall n, (n < N)%N ->
         nth 0 (GaussianDistribution.covariance site) n
           *m nth 0 (GaussianDistribution.nat2 site) n = 1%:M /\
         nth 0 (GaussianDistribution.covariance site) n
           *m nth 0 (GaussianDistribution.nat1 site) n
         = nth 0 (GaussianDistribution.mean site) n]) /\
  (MarkovGP.spatio_temporal self = true ->
   size (BaseModel.X base) = N -> size (MarkovGP.R self) = N ->
   let B := (spatial_conditional (BaseModel.X base) (MarkovGP.R self)).1 in
   let n1 := bmm (transpose B) (GaussianDistribution.nat1 site) in
   let n2 :=
     bmm (bmm (transpose B) (GaussianDistribution.nat2 site)) B in
   let shifted := [seq P + (10 ^- 12) *: 1%:M | P <- n2] in
   [/\ MarkovGP.compute_full_pseudo_nat spatial_conditional self all_ind
       = existT _ _ (n1, n2),
       forall V, inv_vmap inv_jitter shifted = Some V ->
         [/\ MarkovGP.compute_full_pseudo_lik inv_jitter spatial_conditional
               self = Some (existT _ _ (bmm V n1, V)),
             size V = size n2 &
             forall k, (k < size n2)%N ->
               nth 0 V k *m (nth 0 n2 k + (10 ^- 12 + inv_jitter)%:M)
               = 1%:M] &
       inv_vmap inv_jitter shifted = None ->
       MarkovGP.compute_full_pseudo_lik inv_jitter spatial_conditional self
       = None]).
Proof.
move=> base site N all_ind szm [szc sz1 sz2 cons].
have G1 : gather 0 (GaussianDistribution.nat1 site) all_ind
          = GaussianDistribution.nat1 site.
  by rewrite /all_ind -szm -sz1 gather_iota.
have G2 : gather 0 (GaussianDistribution.nat2 site) all_ind
          = GaussianDistribution.nat2 site.
  by rewrite /all_ind -szm -sz2 gather_iota.
split=> [st|st szX szR].
  rewrite /MarkovGP.compute_full_pseudo_lik /MarkovGP.compute_full_pseudo_nat.
  rewrite st G1 G2; split=> // n; rewrite -szm => ltn.
  by have [-> ->] := cons n ltn.
move=> B n1 n2 shifted.
rewrite /MarkovGP.compute_full_pseudo_lik /MarkovGP.compute_full_pseudo_nat.
rewrite st G1 G2 /all_ind -{1}szX gather_iota -szR gather_iota.
rewrite -/base -/site.
have -> : spatial_conditional (BaseModel.X base) (MarkovGP.R self)
          = (B, (spatial_conditional (BaseModel.X base) (MarkovGP.R self)).2).
  by rewrite /B; case: (spatial_conditional _ _).
rewrite -/n1 -/n2 -/shifted; split=> // [V EV|->] //.
rewrite EV; split=> //; have [szV vals] := inv_vmap_nth EV.
  by rewrite szV size_map.
move=> k ltk; have [] := vals k; first by rewrite size_map.
rewrite (nth_map 0) // -addrA scalemx1 -raddfD /= => Pu ->.
by rewrite mulVmx.
Qed.

Lemma full_pseudo_lik_and_nat_witness :
  @MarkovGP.compute_full_pseudo_lik rat 1 1 1 false 0
    (@toy_spatial_conditional rat) (toy_smoothing rat)
  = Some (existT _ 1%N ([:: const_mx 3 : 'cV[rat]_1], [:: 4%:M : 'M[rat]_1]))
  /\
  @MarkovGP.compute_full_pseudo_nat rat 1 1 1 false
    (@toy_spatial_conditional rat) (toy_smoothing rat) [:: 0%N]
  = existT _ 1%N ([:: const_mx (3 / 4) : 'cV[rat]_1],
                  [:: (4^-1)%:M : 'M[rat]_1]).
Proof.
have [H _] := @full_pseudo_lik_and_nat rat 1 1 1 false 0
                (@toy_spatial_conditional rat) (toy_smoothing rat)
                (erefl _) (toy_smoothing_site_consistent _).
by have [E1 E2 _] := H (erefl _).
Defined.
